(** * Lumina Frame: the image provider and the session controller

    A shallow embedding of [src/services/geminiService.ts] and of the
    controller in [src/App.tsx] (history navigation, in-flight guard,
    tap and swipe gestures), followed by the properties of the
    specification that concern them.

    Conventions of the embedding.
    - A React state hook is a field of [State], a [useRef] cell a field
      of [Refs]; a handler is a function [App -> App].
    - [null] and [undefined] are both [None]: the program only tests
      such values for truthiness.
    - Screen coordinates, brightness and the draw of [Math.random] are
      binary64 numbers ([PrimFloat.float]), with the arithmetic that
      JavaScript does on them; [historyIndex] and clock readings are
      integers ([Z]).
    - What the browser still owes the program (a provider promise, an
      image being decoded, a timer) is kept in [EventLoop]; an [Event]
      delivers one of them or one user action, and the handlers are
      assumed to come from the latest render when an event arrives. *)

From Stdlib Require Import ZArith String Ascii List Bool Lia.
From Stdlib Require Import DecimalString Floats.
Import ListNotations.
Set Warnings "-inexact-float".

(** ** JavaScript primitives used by the sources *)

Module JS.

(** The values a caller can pass where a string is expected. *)
Inductive Value : Type :=
| Undefined
| Null
| Str (s : string).

Inductive Error : Type :=
| TypeError (message : string).

(** Completion of a statement list: a value, or a thrown error. *)
Inductive Completion (A : Type) : Type :=
| Normal (a : A)
| Throw (e : Error).
Arguments Normal {A} a.
Arguments Throw {A} e.

Definition bind {A B : Type} (c : Completion A) (k : A -> Completion B)
  : Completion B :=
  match c with
  | Normal a => k a
  | Throw e => Throw e
  end.

(** [try { body } catch (error) { handler }] *)
Definition try_catch {A : Type} (body : Completion A)
    (handler : Error -> Completion A) : Completion A :=
  match body with
  | Normal a => Normal a
  | Throw e => handler e
  end.

(** Truthiness of a [string | null]: the empty string is falsy. *)
Definition truthy (v : option string) : bool :=
  match v with
  | Some (String _ _) => true
  | Some EmptyString => false
  | None => false
  end.

(** The class [\s] on code units below 256: TAB, LF, VT, FF, CR,
    SPACE and NO-BREAK SPACE. *)
Definition isWhiteSpace (c : ascii) : bool :=
  let n := N_of_ascii c in
  ((9 <=? n) && (n <=? 13) || (n =? 32) || (n =? 160))%N.

(** [s.replace(/\s+/g, '-')]: the scan goes left to right and [\s+]
    is greedy, so every maximal run of white space becomes one
    hyphen.  [inRun] tells that the previous unit was white space. *)
Fixpoint replaceRuns (inRun : bool) (s : string) : string :=
  match s with
  | EmptyString => EmptyString
  | String c rest =>
      if isWhiteSpace c
      then (if inRun then replaceRuns true rest
            else String "-" (replaceRuns true rest))
      else String c (replaceRuns false rest)
  end.

(** The method call [genre.replace(/\s+/g, '-')]: reading a property
    of [null] or [undefined] throws a [TypeError]. *)
Definition String_replace_whitespace (this : Value) : Completion string :=
  match this with
  | Str s => Normal (replaceRuns false s)
  | Null => Throw (TypeError "Cannot read properties of null")
  | Undefined => Throw (TypeError "Cannot read properties of undefined")
  end.

(** What [Math.floor] returns: an integer, or its argument when that is
    NaN or infinite.  ([Math.floor(-0)] is [-0], which prints as "0"
    like [0]; it is kept as [Int 0].) *)
Inductive Integral : Type :=
| Int (n : Z)
| NaN
| Infinity (negative : bool).

(** [Math.floor] of a binary64 number: a finite number is
    [(-1)^s * m * 2^e], and shifting the signed significand by [e]
    rounds towards minus infinity. *)
Definition Math_floor (x : float) : Integral :=
  match Prim2SF x with
  | S754_nan => NaN
  | S754_infinity s => Infinity s
  | S754_zero _ => Int 0
  | S754_finite s m e => Int (Z.shiftl (cond_Zopp s (Zpos m)) e)
  end.

(** Conversion of an integral Number to a string inside a template
    literal (plain decimal digits; exact below 10^21). *)
Definition Number_toString (n : Z) : string :=
  NilEmpty.string_of_int (Z.to_int n).

(** The same conversion for a result of [Math.floor]. *)
Definition Integral_toString (x : Integral) : string :=
  match x with
  | Int n => Number_toString n
  | NaN => "NaN"
  | Infinity false => "Infinity"
  | Infinity true => "-Infinity"
  end.

(** [a.slice(start, end)] *)
Definition Array_slice {A : Type} (a : list A) (start end_ : Z) : list A :=
  let len := Z.of_nat (List.length a) in
  let k := if (start <? 0)%Z then Z.max (len + start) 0 else Z.min start len in
  let final := if (end_ <? 0)%Z then Z.max (len + end_) 0 else Z.min end_ len in
  firstn (Z.to_nat (final - k)) (skipn (Z.to_nat k) a).

(** [a[i]] for an integral index; out of range is [undefined]. *)
Definition Array_get {A : Type} (a : list A) (i : Z) : option A :=
  if (i <? 0)%Z then None else nth_error a (Z.to_nat i).

(** Comparison [a > b] of Numbers. *)
Definition gt (a b : float) : bool := PrimFloat.ltb b a.

Definition Math_abs (x : float) : float := PrimFloat.abs x.

(** [Math.max] and [Math.min] of two Numbers: NaN is contagious and
    [+0] is larger than [-0]. *)
Definition Math_max (a b : float) : float :=
  if PrimFloat.is_nan a || PrimFloat.is_nan b then PrimFloat.nan
  else if PrimFloat.ltb a b then b
  else if PrimFloat.ltb b a then a
  else if PrimFloat.get_sign a then b else a.

Definition Math_min (a b : float) : float :=
  if PrimFloat.is_nan a || PrimFloat.is_nan b then PrimFloat.nan
  else if PrimFloat.ltb a b then a
  else if PrimFloat.ltb b a then b
  else if PrimFloat.get_sign a then a else b.

End JS.

Notation "x <- c ;; k" := (JS.bind c (fun x => k))
  (at level 61, c at next level, right associativity).

(** ** types.ts *)

Inductive Genre : Type :=
| Nature | Urban | Abstract | Space | Minimalism | Animals.

(** The string value of each member of the enum. *)
Definition Genre_value (g : Genre) : string :=
  match g with
  | Nature => "Nature"
  | Urban => "Urban Architecture"
  | Abstract => "Abstract Art"
  | Space => "Deep Space"
  | Minimalism => "Minimalism"
  | Animals => "Wildlife"
  end.

Definition Genre_eqb (a b : Genre) : bool :=
  match a, b with
  | Nature, Nature | Urban, Urban | Abstract, Abstract
  | Space, Space | Minimalism, Minimalism | Animals, Animals => true
  | _, _ => false
  end.

Inductive FrameStyle : Type :=
| FrameNone | ModernBlack | GalleryWhite | Wood.

Inductive FilterPreset : Type :=
| Original | Noir | Vivid | Warm | Cool | Cinematic | Fade.

Record AppConfig : Type := {
  genre : Genre;
  interval : float;
  isSlideshow : bool;
  frameStyle : FrameStyle;
  filterPreset : FilterPreset;
  frameWidth : float;
  brightness : float
}.

(** [Partial<AppConfig>]: every field optional. *)
Record PartialConfig : Type := {
  p_genre : option Genre;
  p_interval : option float;
  p_isSlideshow : option bool;
  p_frameStyle : option FrameStyle;
  p_filterPreset : option FilterPreset;
  p_frameWidth : option float;
  p_brightness : option float
}.

(** ** services/geminiService.ts *)

Definition picsum : string := "https://picsum.photos/seed/".

(** [generateArtImage(genre)], after its 600 ms pause.  [random] is the
    value returned by [Math.random()]. *)
Definition generateArtImage (genre : JS.Value) (random : float)
  : JS.Completion (option string) :=
  JS.try_catch
    (let cacheBuster := JS.Math_floor (random * 100000)%float in
     slug <- JS.String_replace_whitespace genre ;;
     let seed := (slug ++ "-" ++ JS.Integral_toString cacheBuster)%string in
     let width := 1920%Z in
     let height := 1080%Z in
     let imageUrl :=
       (picsum ++ seed ++ "/" ++ JS.Number_toString width
               ++ "/" ++ JS.Number_toString height)%string in
     JS.Normal (Some imageUrl))
    (fun error => (* console.error(...) *) JS.Normal None).

(** ** App.tsx: the state of the component *)

Definition INITIAL_CONFIG : AppConfig := {|
  genre := Nature;
  interval := 30%float;
  isSlideshow := false;
  frameStyle := FrameNone;
  filterPreset := Original;
  frameWidth := 20%float;
  brightness := 1.0%float
|}.

Inductive Side : Type := SideLeft | SideRight | SideCenter.

Definition Side_eqb (a b : Side) : bool :=
  match a, b with
  | SideLeft, SideLeft | SideRight, SideRight | SideCenter, SideCenter => true
  | _, _ => false
  end.

(** [lastTapSideRef.current === side] *)
Definition ref_is_side (r : option Side) (side : Side) : bool :=
  match r with
  | Some s => Side_eqb s side
  | None => false
  end.

(** What an instance of [loadNewImage] closes over: the dependencies
    [config.genre] and [historyIndex] of its [useCallback], as they
    were in the render that created it. *)
Record LoadClosure : Type := {
  cl_genre : Genre;
  cl_historyIndex : Z
}.

(** A call of [loadNewImage] that has passed the guard and has not yet
    finished: suspended at [await generateArtImage(..)], or waiting for
    [img.onload] / [img.onerror]. *)
Inductive Stage : Type :=
| AwaitingProvider
| Decoding (imageUrl : string).

Record InFlight : Type := {
  if_closure : LoadClosure;
  if_stage : Stage
}.

Definition TimerId : Type := positive.

Inductive TimerCallback : Type :=
| SingleTapAction (showControls_seen : bool)
| HideControls
| DelayedLoadNewImage (cl : LoadClosure).

Record Timer : Type := {
  timer_id : TimerId;
  timer_delay : Z;
  timer_callback : TimerCallback
}.

(** The [useState] hooks. *)
Record State : Type := {
  config : AppConfig;
  currentImage : option string;
  loading : bool;
  showControls : bool;
  imageHistory : list string;
  historyIndex : Z
}.

(** The [useRef] cells (wake lock and slideshow timer left out). *)
Record Refs : Type := {
  controlsTimerRef : option TimerId;
  isGeneratingRef : bool;
  lastTapTimeRef : Z;
  lastTapSideRef : option Side;
  singleTapTimerRef : option TimerId;
  touchStartRef : option (float * float);
  initialBrightnessRef : float
}.

(** Work the browser holds for the component. *)
Record EventLoop : Type := {
  inflight : list InFlight;
  timers : list Timer;
  nextTimerId : TimerId
}.

Record App : Type := {
  state : State;
  refs : Refs;
  loop : EventLoop
}.

Definition initial : App := {|
  state := {| config := INITIAL_CONFIG; currentImage := None; loading := true;
              showControls := false; imageHistory := []; historyIndex := (-1)%Z |};
  refs := {| controlsTimerRef := None; isGeneratingRef := false;
             lastTapTimeRef := 0%Z; lastTapSideRef := None;
             singleTapTimerRef := None; touchStartRef := None;
             initialBrightnessRef := 1.0%float |};
  loop := {| inflight := []; timers := []; nextTimerId := 1%positive |}
|}.

(** *** State setters *)

Definition with_state (f : State -> State) (a : App) : App :=
  {| state := f (state a); refs := refs a; loop := loop a |}.

Definition with_refs (f : Refs -> Refs) (a : App) : App :=
  {| state := state a; refs := f (refs a); loop := loop a |}.

Definition with_loop (f : EventLoop -> EventLoop) (a : App) : App :=
  {| state := state a; refs := refs a; loop := f (loop a) |}.

Definition setConfig (f : AppConfig -> AppConfig) : App -> App :=
  with_state (fun s =>
    {| config := f (config s); currentImage := currentImage s;
       loading := loading s; showControls := showControls s;
       imageHistory := imageHistory s; historyIndex := historyIndex s |}).

Definition setCurrentImage (v : option string) : App -> App :=
  with_state (fun s =>
    {| config := config s; currentImage := v;
       loading := loading s; showControls := showControls s;
       imageHistory := imageHistory s; historyIndex := historyIndex s |}).

Definition setLoading (v : bool) : App -> App :=
  with_state (fun s =>
    {| config := config s; currentImage := currentImage s;
       loading := v; showControls := showControls s;
       imageHistory := imageHistory s; historyIndex := historyIndex s |}).

Definition setShowControls (v : bool) : App -> App :=
  with_state (fun s =>
    {| config := config s; currentImage := currentImage s;
       loading := loading s; showControls := v;
       imageHistory := imageHistory s; historyIndex := historyIndex s |}).

Definition setImageHistory (f : list string -> list string) : App -> App :=
  with_state (fun s =>
    {| config := config s; currentImage := currentImage s;
       loading := loading s; showControls := showControls s;
       imageHistory := f (imageHistory s); historyIndex := historyIndex s |}).

Definition setHistoryIndex (f : Z -> Z) : App -> App :=
  with_state (fun s =>
    {| config := config s; currentImage := currentImage s;
       loading := loading s; showControls := showControls s;
       imageHistory := imageHistory s; historyIndex := f (historyIndex s) |}).

Definition set_controlsTimerRef (v : option TimerId) : App -> App :=
  with_refs (fun r =>
    {| controlsTimerRef := v; isGeneratingRef := isGeneratingRef r;
       lastTapTimeRef := lastTapTimeRef r; lastTapSideRef := lastTapSideRef r;
       singleTapTimerRef := singleTapTimerRef r;
       touchStartRef := touchStartRef r;
       initialBrightnessRef := initialBrightnessRef r |}).

Definition set_isGeneratingRef (v : bool) : App -> App :=
  with_refs (fun r =>
    {| controlsTimerRef := controlsTimerRef r; isGeneratingRef := v;
       lastTapTimeRef := lastTapTimeRef r; lastTapSideRef := lastTapSideRef r;
       singleTapTimerRef := singleTapTimerRef r;
       touchStartRef := touchStartRef r;
       initialBrightnessRef := initialBrightnessRef r |}).

Definition set_lastTap (time : Z) (side : option Side) : App -> App :=
  with_refs (fun r =>
    {| controlsTimerRef := controlsTimerRef r;
       isGeneratingRef := isGeneratingRef r;
       lastTapTimeRef := time; lastTapSideRef := side;
       singleTapTimerRef := singleTapTimerRef r;
       touchStartRef := touchStartRef r;
       initialBrightnessRef := initialBrightnessRef r |}).

Definition set_singleTapTimerRef (v : option TimerId) : App -> App :=
  with_refs (fun r =>
    {| controlsTimerRef := controlsTimerRef r;
       isGeneratingRef := isGeneratingRef r;
       lastTapTimeRef := lastTapTimeRef r; lastTapSideRef := lastTapSideRef r;
       singleTapTimerRef := v;
       touchStartRef := touchStartRef r;
       initialBrightnessRef := initialBrightnessRef r |}).

Definition set_touchStartRef (v : option (float * float)) : App -> App :=
  with_refs (fun r =>
    {| controlsTimerRef := controlsTimerRef r;
       isGeneratingRef := isGeneratingRef r;
       lastTapTimeRef := lastTapTimeRef r; lastTapSideRef := lastTapSideRef r;
       singleTapTimerRef := singleTapTimerRef r;
       touchStartRef := v;
       initialBrightnessRef := initialBrightnessRef r |}).

Definition set_initialBrightnessRef (v : float) : App -> App :=
  with_refs (fun r =>
    {| controlsTimerRef := controlsTimerRef r;
       isGeneratingRef := isGeneratingRef r;
       lastTapTimeRef := lastTapTimeRef r; lastTapSideRef := lastTapSideRef r;
       singleTapTimerRef := singleTapTimerRef r;
       touchStartRef := touchStartRef r;
       initialBrightnessRef := v |}).

Definition set_inflight (f : list InFlight -> list InFlight) : App -> App :=
  with_loop (fun l =>
    {| inflight := f (inflight l); timers := timers l;
       nextTimerId := nextTimerId l |}).

(** *** Timers *)

(** [window.setTimeout(callback, delay)]: the timer is queued under a
    fresh identifier, which is returned. *)
Definition setTimeout (callback : TimerCallback) (delay : Z) (a : App)
  : TimerId * App :=
  let id := nextTimerId (loop a) in
  (id, with_loop (fun l =>
         {| inflight := inflight l;
            timers := timers l ++ [{| timer_id := id; timer_delay := delay;
                                      timer_callback := callback |}];
            nextTimerId := Pos.succ id |}) a).

Definition clearTimeout (id : TimerId) : App -> App :=
  with_loop (fun l =>
    {| inflight := inflight l;
       timers := filter (fun t => negb (Pos.eqb (timer_id t) id)) (timers l);
       nextTimerId := nextTimerId l |}).

(** [if (ref.current) clearTimeout(ref.current)] *)
Definition clear_if_set (r : option TimerId) (a : App) : App :=
  match r with
  | Some id => clearTimeout id a
  | None => a
  end.

(** ** App.tsx: image loading *)

(** The [loadNewImage] that the latest render hands to its callers. *)
Definition rendered_loadNewImage (a : App) : LoadClosure :=
  {| cl_genre := genre (config (state a));
     cl_historyIndex := historyIndex (state a) |}.

(** [loadNewImage], up to its [await]: the guard, the two flags, and
    the request to the provider (here, the new entry of [inflight]). *)
Definition loadNewImage (cl : LoadClosure) (a : App) : App :=
  if isGeneratingRef (refs a) then a
  else
    let a := set_isGeneratingRef true a in
    let a := setLoading true a in
    set_inflight
      (fun l => l ++ [{| if_closure := cl; if_stage := AwaitingProvider |}]) a.

(** The [else] branch after the [await], and the body of
    [img.onerror]. *)
Definition load_failed (a : App) : App :=
  let a := setLoading false a in
  set_isGeneratingRef false a.

(** [loadNewImage], from the [await] on, once the provider has answered
    [imageUrl].  A truthy answer starts the preload of an [Image]. *)
Definition loadNewImage_resumed (cl : LoadClosure) (imageUrl : option string)
    (a : App) : App :=
  match imageUrl with
  | Some url =>
      if JS.truthy imageUrl
      then set_inflight
             (fun l => l ++ [{| if_closure := cl; if_stage := Decoding url |}]) a
      else load_failed a
  | None => load_failed a
  end.

(** [img.onload].  [cl_historyIndex cl] is the captured [historyIndex];
    the three updater functions see the state of the moment. *)
Definition img_onload (cl : LoadClosure) (imageUrl : string) (a : App) : App :=
  let prevImage := currentImage (state a) in
  let a :=
    match prevImage with
    | Some prev =>
        if JS.truthy prevImage
        then
          let a := setImageHistory
                     (fun prev_history =>
                        let newHistory :=
                          JS.Array_slice prev_history 0 (cl_historyIndex cl + 1) in
                        newHistory ++ [prev]) a in
          setHistoryIndex (fun prev_index => (prev_index + 1)%Z) a
        else a
    | None => a
    end in
  let a := setCurrentImage (Some imageUrl) a in
  let a := setLoading false a in
  set_isGeneratingRef false a.

Definition img_onerror (a : App) : App := load_failed a.

(** [loadPreviousImage]; its callers always hold the instance of the
    latest render, so the captured [historyIndex] and [imageHistory]
    are those of the state. *)
Definition loadPreviousImage (a : App) : App :=
  let s := state a in
  if (historyIndex s >=? 0)%Z && (0 <? Z.of_nat (List.length (imageHistory s)))%Z
  then
    let prevImage := JS.Array_get (imageHistory s) (historyIndex s) in
    let a := setCurrentImage prevImage a in
    setHistoryIndex (fun prev => (prev - 1)%Z) a
  else a.

(** ** App.tsx: taps *)

Definition side_of (clientX width : float) : Side :=
  if PrimFloat.ltb clientX (width * 0.35)%float then SideLeft
  else if JS.gt clientX (width * 0.65)%float then SideRight
  else SideCenter.

(** The condition of the double-tap test. *)
Definition is_double_tap (side : Side) (currentTime : Z) (a : App) : bool :=
  let tapLength := (currentTime - lastTapTimeRef (refs a))%Z in
  (tapLength <? 300)%Z && (tapLength >? 0)%Z
  && ref_is_side (lastTapSideRef (refs a)) side
  && negb (Side_eqb side SideCenter).

(** [handleInteraction(e)], with [e.clientX], [window.innerWidth] and
    the reading of the clock. *)
Definition handleInteraction (clientX innerWidth : float) (currentTime : Z)
    (a : App) : App :=
  let side := side_of clientX innerWidth in
  if is_double_tap side currentTime a then
    let a :=
      match singleTapTimerRef (refs a) with
      | Some id => set_singleTapTimerRef None (clearTimeout id a)
      | None => a
      end in
    let a :=
      match side with
      | SideRight => loadNewImage (rendered_loadNewImage a) a
      | SideLeft => loadPreviousImage a
      | SideCenter => a
      end in
    set_lastTap 0 None a
  else
    let showControls_seen := showControls (state a) in
    let a := set_lastTap currentTime (Some side) a in
    let a := clear_if_set (singleTapTimerRef (refs a)) a in
    let (id, a) := setTimeout (SingleTapAction showControls_seen) 300 a in
    set_singleTapTimerRef (Some id) a.

(** The callback of the single-tap timer. *)
Definition single_tap_action (showControls_seen : bool) (a : App) : App :=
  let a :=
    if showControls_seen then setShowControls false a
    else
      let a := setShowControls true a in
      let a := clear_if_set (controlsTimerRef (refs a)) a in
      let (id, a) := setTimeout HideControls 4000 a in
      set_controlsTimerRef (Some id) a in
  set_singleTapTimerRef None a.

(** ** App.tsx: configuration updates *)

Definition merge {A : Type} (old : A) (new : option A) : A :=
  match new with
  | Some v => v
  | None => old
  end.

(** [{ ...prev, ...newConfig }] *)
Definition spread (prev : AppConfig) (newConfig : PartialConfig) : AppConfig :=
  {| genre := merge (genre prev) (p_genre newConfig);
     interval := merge (interval prev) (p_interval newConfig);
     isSlideshow := merge (isSlideshow prev) (p_isSlideshow newConfig);
     frameStyle := merge (frameStyle prev) (p_frameStyle newConfig);
     filterPreset := merge (filterPreset prev) (p_filterPreset newConfig);
     frameWidth := merge (frameWidth prev) (p_frameWidth newConfig);
     brightness := merge (brightness prev) (p_brightness newConfig) |}.

(** [updateConfig(newConfig)].  The timer keeps the [loadNewImage] of
    the render in which [updateConfig] ran. *)
Definition updateConfig (newConfig : PartialConfig) (a : App) : App :=
  let seen := rendered_loadNewImage a in
  let genre_seen := genre (config (state a)) in
  let a := setConfig (fun prev => spread prev newConfig) a in
  let a := clear_if_set (controlsTimerRef (refs a)) a in
  match p_genre newConfig with
  | Some g =>
      if negb (Genre_eqb g genre_seen)
      then snd (setTimeout (DelayedLoadNewImage seen) 100 a)
      else a
  | None => a
  end.

(** ** App.tsx: swipes *)

(** [handleTouchStart(e)], with the position of [e.touches[0]]. *)
Definition handleTouchStart (clientX clientY : float) (a : App) : App :=
  let a := set_touchStartRef (Some (clientX, clientY)) a in
  set_initialBrightnessRef (brightness (config (state a))) a.

Definition set_brightness (v : float) (prev : AppConfig) : AppConfig :=
  {| genre := genre prev; interval := interval prev;
     isSlideshow := isSlideshow prev; frameStyle := frameStyle prev;
     filterPreset := filterPreset prev; frameWidth := frameWidth prev;
     brightness := v |}.

(** The guard of the brightness update. *)
Definition is_brightness_swipe (startX innerWidth deltaX deltaY : float) : bool :=
  let isRightSide := JS.gt startX (innerWidth * 0.6)%float in
  isRightSide && JS.gt (JS.Math_abs deltaY) 10%float
  && JS.gt (JS.Math_abs deltaY) (JS.Math_abs deltaX).

(** [handleTouchMove(e)], with the position of [e.touches[0]] and
    [window.innerWidth]. *)
Definition handleTouchMove (clientX clientY innerWidth : float) (a : App) : App :=
  match touchStartRef (refs a) with
  | None => a
  | Some (startX, startY) =>
      let deltaY := (startY - clientY)%float in
      let deltaX := (clientX - startX)%float in
      if is_brightness_swipe startX innerWidth deltaX deltaY then
        let change := (deltaY / 300)%float in
        let newBrightness := (initialBrightnessRef (refs a) + change)%float in
        let newBrightness :=
          JS.Math_max 0.1%float (JS.Math_min 2.0%float newBrightness) in
        setConfig (set_brightness newBrightness) a
      else a
  end.

Definition handleTouchEnd (a : App) : App := set_touchStartRef None a.

(** ** The event loop *)

Inductive Event : Type :=
| CallLoadNewImage            (* the Next button, a slideshow tick, the initial load *)
| CallLoadPreviousImage
| ProviderResolves (i : nat) (imageUrl : option string)
| ImageLoads (i : nat)
| ImageFails (i : nat)
| Click (clientX innerWidth : float) (currentTime : Z)
| TimerFires (id : TimerId)
| TouchStart (clientX clientY : float)
| TouchMove (clientX clientY innerWidth : float)
| TouchEnd
| ConfigUpdate (newConfig : PartialConfig).

(** Entry [i] of a list, and the list without it. *)
Fixpoint extract {A : Type} (i : nat) (l : list A) {struct l}
  : option (A * list A) :=
  match l, i with
  | [], _ => None
  | x :: rest, O => Some (x, rest)
  | x :: rest, S j =>
      match extract j rest with
      | Some (y, rest') => Some (y, x :: rest')
      | None => None
      end
  end.

Fixpoint extract_timer (id : TimerId) (l : list Timer)
  : option (Timer * list Timer) :=
  match l with
  | [] => None
  | t :: rest =>
      if Pos.eqb (timer_id t) id then Some (t, rest)
      else match extract_timer id rest with
           | Some (u, rest') => Some (u, t :: rest')
           | None => None
           end
  end.

Definition run_callback (c : TimerCallback) (a : App) : App :=
  match c with
  | SingleTapAction seen => single_tap_action seen a
  | HideControls => setShowControls false a
  | DelayedLoadNewImage cl => loadNewImage cl a
  end.

(** One event; [None] when the event cannot occur in this state. *)
Definition step (e : Event) (a : App) : option App :=
  match e with
  | CallLoadNewImage => Some (loadNewImage (rendered_loadNewImage a) a)
  | CallLoadPreviousImage => Some (loadPreviousImage a)
  | ProviderResolves i imageUrl =>
      match extract i (inflight (loop a)) with
      | Some ({| if_closure := cl; if_stage := AwaitingProvider |}, rest) =>
          Some (loadNewImage_resumed cl imageUrl (set_inflight (fun _ => rest) a))
      | _ => None
      end
  | ImageLoads i =>
      match extract i (inflight (loop a)) with
      | Some ({| if_closure := cl; if_stage := Decoding url |}, rest) =>
          Some (img_onload cl url (set_inflight (fun _ => rest) a))
      | _ => None
      end
  | ImageFails i =>
      match extract i (inflight (loop a)) with
      | Some ({| if_closure := cl; if_stage := Decoding url |}, rest) =>
          Some (img_onerror (set_inflight (fun _ => rest) a))
      | _ => None
      end
  | Click clientX innerWidth currentTime =>
      Some (handleInteraction clientX innerWidth currentTime a)
  | TimerFires id =>
      match extract_timer id (timers (loop a)) with
      | Some (t, rest) =>
          Some (run_callback (timer_callback t)
                  (with_loop (fun l => {| inflight := inflight l; timers := rest;
                                          nextTimerId := nextTimerId l |}) a))
      | None => None
      end
  | TouchStart x y => Some (handleTouchStart x y a)
  | TouchMove x y w => Some (handleTouchMove x y w a)
  | TouchEnd => Some (handleTouchEnd a)
  | ConfigUpdate newConfig => Some (updateConfig newConfig a)
  end.

Fixpoint run (events : list Event) (a : App) : option App :=
  match events with
  | [] => Some a
  | e :: rest =>
      match step e a with
      | Some a' => run rest a'
      | None => None
      end
  end.

(** *** The operations of the session, as event sequences *)

(** A call of [loadNewImage] followed to its end without other events
    in between: the provider answers [answer] and, when the answer is
    truthy, the image decodes or fails to.  The call succeeds when the
    answer is truthy and the image decodes. *)
Inductive Operation : Type :=
| Load (answer : option string) (decodes : bool)
| LoadPrevious.

Definition events_of (op : Operation) : list Event :=
  match op with
  | Load answer decodes =>
      CallLoadNewImage :: ProviderResolves 0 answer
        :: (if JS.truthy answer
            then [if decodes then ImageLoads 0 else ImageFails 0]
            else [])
  | LoadPrevious => [CallLoadPreviousImage]
  end.

Definition trace_of (ops : list Operation) : list Event :=
  flat_map events_of ops.

Definition LoadSucceeds (imageUrl : string) : Operation :=
  Load (Some imageUrl) true.

(** ** Statements of the specification *)

(** The slug, in the words of the specification: the genre name with
    each run of white space replaced by one hyphen.  A run is maximal:
    what follows it does not start with white space. *)
Fixpoint all_white (s : string) : bool :=
  match s with
  | EmptyString => true
  | String c rest => JS.isWhiteSpace c && all_white rest
  end.

Definition starts_black (s : string) : Prop :=
  match s with
  | EmptyString => True
  | String c _ => JS.isWhiteSpace c = false
  end.

Inductive slug_of : string -> string -> Prop :=
| slug_end : slug_of "" ""
| slug_keep (c : ascii) (s t : string) :
    JS.isWhiteSpace c = false -> slug_of s t ->
    slug_of (String c s) (String c t)
| slug_run (ws s t : string) :
    ws <> ""%string -> all_white ws = true -> starts_black s -> slug_of s t ->
    slug_of (ws ++ s) (String "-" t).

(** The address the provider promises for a slug and a number. *)
Definition stock_url (slug : string) (n : JS.Integral) : string :=
  (picsum ++ slug ++ "-" ++ JS.Integral_toString n ++ "/1920/1080")%string.

(** The binary64 number [m * 2^e], with [e <= 0], is below 100000. *)
Definition below_100000 (m e : Z) : Prop :=
  (e <= 0 /\ 0 <= m < 100000 * 2 ^ (- e))%Z.

(** *** Auxiliary functions of the proofs *)

Fixpoint skip_white (s : string) : string :=
  match s with
  | EmptyString => EmptyString
  | String c rest => if JS.isWhiteSpace c then skip_white rest else s
  end.

Fixpoint take_white (s : string) : string :=
  match s with
  | EmptyString => EmptyString
  | String c rest =>
      if JS.isWhiteSpace c then String c (take_white rest) else EmptyString
  end.

(** *** The session *)

(** The range of [historyIndex] in the data model. *)
Definition index_in_range (a : App) : Prop :=
  (-1 <= historyIndex (state a)
   <= Z.of_nat (List.length (imageHistory (state a))) - 1)%Z.

(** No call of [loadNewImage] is under way. *)
Definition idle (a : App) : Prop :=
  isGeneratingRef (refs a) = false /\ inflight (loop a) = [].

(** Events of the session proper: all but a configuration update,
    whose timer calls a [loadNewImage] of an earlier render. *)
Definition session_event (e : Event) : bool :=
  match e with
  | ConfigUpdate _ => false
  | _ => true
  end.

Definition is_delayed_load (t : Timer) : bool :=
  match timer_callback t with
  | DelayedLoadNewImage _ => true
  | _ => false
  end.

(** The flag tells whether a load is in flight, and there is at most
    one. *)
Definition guard_matches (a : App) : Prop :=
  match inflight (loop a) with
  | [] => isGeneratingRef (refs a) = false
  | [_] => isGeneratingRef (refs a) = true
  | _ => False
  end.

(** The inductive invariant behind [index_in_range]: the index captured
    by the load in flight lies between the index and the last
    position. *)
Definition session_invariant (a : App) : Prop :=
  index_in_range a
  /\ (forall t, In t (timers (loop a)) -> is_delayed_load t = false)
  /\ match inflight (loop a) with
     | [] => isGeneratingRef (refs a) = false
     | [f] =>
         isGeneratingRef (refs a) = true
         /\ (historyIndex (state a) <= cl_historyIndex (if_closure f)
             <= Z.of_nat (List.length (imageHistory (state a))) - 1)%Z
     | _ => False
     end.

(** [b] differs from [a] in nothing that the history and the loading
    guard depend on, and holds no delayed load that [a] did not. *)
Definition same_session (a b : App) : Prop :=
  currentImage (state b) = currentImage (state a)
  /\ loading (state b) = loading (state a)
  /\ imageHistory (state b) = imageHistory (state a)
  /\ historyIndex (state b) = historyIndex (state a)
  /\ isGeneratingRef (refs b) = isGeneratingRef (refs a)
  /\ inflight (loop b) = inflight (loop a)
  /\ (forall t, In t (timers (loop b)) -> is_delayed_load t = true ->
                In t (timers (loop a))).

(** A session in which three images have been loaded one after the
    other. *)
Definition after_three_loads : App := {|
  state := {| config := INITIAL_CONFIG; currentImage := Some "c"%string;
              loading := false; showControls := false;
              imageHistory := ["a"; "b"]%string; historyIndex := 1%Z |};
  refs := refs initial;
  loop := loop initial
|}.

(** The sentence of the specification on going back and loading again,
    read literally: the image on display before [loadPreviousImage] is
    still the current image or in the history afterwards. *)
Definition shown_image_survives : Prop :=
  forall (a : App) (shown url : string),
    idle a ->
    imageHistory (state a) <> [] ->
    (0 <= historyIndex (state a))%Z ->
    currentImage (state a) = Some shown ->
    JS.truthy (Some shown) = true ->
    JS.truthy (Some url) = true ->
    exists a' : App,
      run (CallLoadPreviousImage :: events_of (LoadSucceeds url)) a = Some a'
      /\ (currentImage (state a') = Some shown
          \/ In shown (imageHistory (state a'))).

(** *** Gestures *)

(** The sentence of the specification on double taps, read literally:
    a second tap in the same zone, less than 300 ms after a first one,
    is a double tap and leaves no single-tap timer behind. *)
Definition same_zone_is_double_tap : Prop :=
  forall (a : App) (x1 x2 width : float) (t1 t2 : Z),
    is_double_tap (side_of x1 width) t1 a = false ->
    side_of x2 width = side_of x1 width ->
    (0 < t2 - t1 < 300)%Z ->
    let a1 := handleInteraction x1 width t1 a in
    is_double_tap (side_of x2 width) t2 a1 = true
    /\ singleTapTimerRef (refs (handleInteraction x2 width t2 a1)) = None.

(** What a double tap on [side] calls. *)
Definition navigate (side : Side) (a : App) : App :=
  match side with
  | SideRight => loadNewImage (rendered_loadNewImage a) a
  | SideLeft => loadPreviousImage a
  | SideCenter => a
  end.

(** A finger position reported by a [touchmove], with the width of the
    window at that moment. *)
Record Move : Type := {
  move_x : float;
  move_y : float;
  move_width : float
}.

Definition touch_move (a : App) (m : Move) : App :=
  handleTouchMove (move_x m) (move_y m) (move_width m) a.

(** A touch sequence: [touchstart], then the moves in order. *)
Definition touch_sequence (startX startY : float) (moves : list Move) (a : App)
  : App :=
  fold_left touch_move moves (handleTouchStart startX startY a).

(** A successful load needs a truthy address. *)
Definition truthy_url (u : string) : Prop := JS.truthy (Some u) = true.

(** A load is in flight when the genre changes, and finishes before
    the timer of the update fires. *)
Definition stale_trace : list Event :=
  [CallLoadNewImage; ProviderResolves 0 (Some "a"%string); ImageLoads 0;
   CallLoadNewImage;
   ConfigUpdate {| p_genre := Some Urban; p_interval := None;
                   p_isSlideshow := None; p_frameStyle := None;
                   p_filterPreset := None; p_frameWidth := None;
                   p_brightness := None |};
   ProviderResolves 0 (Some "b"%string); ImageLoads 0;
   TimerFires 1%positive;
   ProviderResolves 0 (Some "c"%string); ImageLoads 0].

(** The loads that finish in a sequence of events: each [ImageLoads]
    runs the [onload] handler of one [loadNewImage] call. *)
Definition images_loaded (events : list Event) : nat :=
  length (filter (fun e => match e with ImageLoads _ => true | _ => false end)
                 events).

(** A move that cannot change the brightness: the touch started on the
    left, or the move is not more vertical than horizontal. *)
Definition no_swipe (startX startY : float) (m : Move) : Prop :=
  JS.gt startX (move_width m * 0.6)%float = false
  \/ JS.gt (JS.Math_abs (startY - move_y m)%float)
           (JS.Math_abs (move_x m - startX)%float) = false.

(** *** Further statements about the session *)

(** ArtFrame.tsx: the image element is rendered when [imageUrl] is
    truthy, the CURATING placeholder when [loading && !imageUrl]. *)
Definition shows_image (imageUrl : option string) : bool := JS.truthy imageUrl.

Definition shows_placeholder (loading_ : bool) (imageUrl : option string) : bool :=
  loading_ && negb (JS.truthy imageUrl).

Definition displayed (a : App) : Prop :=
  shows_image (currentImage (state a)) = true.

(** An image under preload has a truthy address. *)
Definition decoding_truthy (f : InFlight) : Prop :=
  match if_stage f with
  | Decoding url => truthy_url url
  | AwaitingProvider => True
  end.

(** Every archived or half-loaded address is a non-empty string. *)
Definition addresses_truthy (a : App) : Prop :=
  Forall truthy_url (imageHistory (state a))
  /\ Forall decoding_truthy (inflight (loop a)).

(** While the flag is set, [loading] is set. *)
Definition spinner_matches (a : App) : Prop :=
  isGeneratingRef (refs a) = true -> loading (state a) = true.

(** No queued timer carries the identifier that [setTimeout] will hand
    out next. *)
Definition fresh_id (a : App) : Prop :=
  Forall (fun t => timer_id t <> nextTimerId (loop a)) (timers (loop a)).

(** The timers left by [clear_if_set]. *)
Definition cleared (r : option TimerId) (tm : list Timer) : list Timer :=
  match r with
  | Some id => filter (fun t => negb (Pos.eqb (timer_id t) id)) tm
  | None => tm
  end.




(** A change of genre, as the control panel sends it. *)
Definition genre_update (g : Genre) : PartialConfig :=
  {| p_genre := Some g; p_interval := None; p_isSlideshow := None;
     p_frameStyle := None; p_filterPreset := None; p_frameWidth := None;
     p_brightness := None |}.

(** *** Further statements about the provider and the gestures *)

(** No unit of [s] is white space. *)
Fixpoint no_white (s : string) : bool :=
  match s with
  | EmptyString => true
  | String c rest => negb (JS.isWhiteSpace c) && no_white rest
  end.

(** The interval to which [handleTouchMove] clamps. *)
Definition in_brightness_range (b : float) : Prop :=
  PrimFloat.leb 0.1 b = true /\ PrimFloat.leb b 2.0 = true.

Definition brightness_ok (a : App) : Prop :=
  PrimFloat.is_nan (brightness (config (state a))) = true
  \/ in_brightness_range (brightness (config (state a))).

(** Updates that the control panel sends: it has no brightness
    control. *)
Definition from_controls (e : Event) : Prop :=
  match e with
  | ConfigUpdate p => p_brightness p = None
  | _ => True
  end.

(** *** Timers *)

Definition is_single_tap (t : Timer) : bool :=
  match timer_callback t with SingleTapAction _ => true | _ => false end.

Definition is_hide (t : Timer) : bool :=
  match timer_callback t with HideControls => true | _ => false end.

Definition none_of (kind : Timer -> bool) (tm : list Timer) : Prop :=
  forall t, In t tm -> kind t = false.

(** Identifiers are fresh and distinct; a pending single-tap timer is
    the one in [singleTapTimerRef], a pending auto-hide timer the one
    in [controlsTimerRef]. *)
Definition disciplined (stt ctr : option TimerId) (tm : list Timer) (nid : TimerId)
  : Prop :=
  Forall (fun t => (timer_id t < nid)%positive) tm
  /\ NoDup (map timer_id tm)
  /\ (forall t, In t tm -> is_single_tap t = true -> stt = Some (timer_id t))
  /\ (forall t, In t tm -> is_hide t = true -> ctr = Some (timer_id t)).

Definition timer_discipline (a : App) : Prop :=
  disciplined (singleTapTimerRef (refs a)) (controlsTimerRef (refs a))
              (timers (loop a)) (nextTimerId (loop a)).

(** *** The controls panel *)

(** [a] with the fields that taps and their timers touch replaced. *)
Definition panel_of (a : App) (sc : bool) (ctr stt : option TimerId)
    (ltt : Z) (lts : option Side) (tm : list Timer) (nid : TimerId) : App :=
  {| state := {| config := config (state a); currentImage := currentImage (state a);
                 loading := loading (state a); showControls := sc;
                 imageHistory := imageHistory (state a);
                 historyIndex := historyIndex (state a) |};
     refs := {| controlsTimerRef := ctr;
                isGeneratingRef := isGeneratingRef (refs a);
                lastTapTimeRef := ltt; lastTapSideRef := lts;
                singleTapTimerRef := stt;
                touchStartRef := touchStartRef (refs a);
                initialBrightnessRef := initialBrightnessRef (refs a) |};
     loop := {| inflight := inflight (loop a); timers := tm; nextTimerId := nid |} |}.

Definition timer (id : TimerId) (delay : Z) (cb : TimerCallback) : Timer :=
  {| timer_id := id; timer_delay := delay; timer_callback := cb |}.

(** ** App.tsx: the slideshow effect *)

(** A timer of [window.setInterval]: it keeps the [loadNewImage] of the
    render whose effect registered it. *)
Record Interval : Type := {
  interval_id : TimerId;
  interval_period : float;
  interval_closure : LoadClosure
}.

(** The component with its slideshow timer. *)
Record Mounted : Type := {
  app : App;
  slideshowTimerRef : option TimerId;
  intervals : list Interval
}.

Definition set_app (a : App) (m : Mounted) : Mounted :=
  {| app := a; slideshowTimerRef := slideshowTimerRef m; intervals := intervals m |}.

(** [window.setInterval(callback, period)]; identifiers come from the
    same counter as those of [setTimeout]. *)
Definition setInterval (cl : LoadClosure) (period : float) (m : Mounted)
  : TimerId * Mounted :=
  let id := nextTimerId (loop (app m)) in
  (id, {| app := with_loop (fun l => {| inflight := inflight l; timers := timers l;
                                        nextTimerId := Pos.succ id |}) (app m);
          slideshowTimerRef := slideshowTimerRef m;
          intervals := intervals m
                       ++ [{| interval_id := id; interval_period := period;
                              interval_closure := cl |}] |}).

Definition clearInterval (id : TimerId) (m : Mounted) : Mounted :=
  {| app := app m; slideshowTimerRef := slideshowTimerRef m;
     intervals := filter (fun i => negb (Pos.eqb (interval_id i) id)) (intervals m) |}.

(** [if (slideshowTimerRef.current) clearInterval(slideshowTimerRef.current)] *)
Definition clear_slideshow_timer (m : Mounted) : Mounted :=
  match slideshowTimerRef m with
  | Some id => clearInterval id m
  | None => m
  end.

(** The body of the effect, run with the values of the render of
    [app m]. *)
Definition slideshow_effect (m : Mounted) : Mounted :=
  let a := app m in
  let cl := rendered_loadNewImage a in
  let m :=
    if negb (JS.truthy (currentImage (state a))) && negb (isGeneratingRef (refs a))
    then set_app (loadNewImage cl a) m
    else m in
  if isSlideshow (config (state a)) then
    let m := clear_slideshow_timer m in
    let (id, m) := setInterval cl (interval (config (state a)) * 1000)%float m in
    {| app := app m; slideshowTimerRef := Some id; intervals := intervals m |}
  else clear_slideshow_timer m.

(** The function the effect returns. *)
Definition slideshow_cleanup (m : Mounted) : Mounted := clear_slideshow_timer m.

Definition option_string_eqb (x y : option string) : bool :=
  match x, y with
  | Some s, Some t => String.eqb s t
  | None, None => true
  | _, _ => false
  end.

(** The dependency list [config.isSlideshow, config.interval,
    config.genre, loadNewImage, currentImage] compared between two
    renders; [loadNewImage] is the same function exactly when
    [config.genre] and [historyIndex] are unchanged. *)
Definition same_deps (before after : App) : bool :=
  Bool.eqb (isSlideshow (config (state before))) (isSlideshow (config (state after)))
  && PrimFloat.Leibniz.eqb (interval (config (state before)))
                           (interval (config (state after)))
  && Genre_eqb (genre (config (state before))) (genre (config (state after)))
  && Z.eqb (historyIndex (state before)) (historyIndex (state after))
  && option_string_eqb (currentImage (state before)) (currentImage (state after)).

(** The render after an event: when a dependency has changed, the
    cleanup of the previous effect runs, then the effect. *)
Definition commit (before : App) (m : Mounted) : Mounted :=
  if same_deps before (app m) then m
  else slideshow_effect (slideshow_cleanup m).

Inductive MountedEvent : Type :=
| AppEvent (e : Event)
| IntervalTicks (id : TimerId).

Definition mounted_step (e : MountedEvent) (m : Mounted) : option Mounted :=
  match e with
  | AppEvent e =>
      match step e (app m) with
      | Some a' => Some (commit (app m) (set_app a' m))
      | None => None
      end
  | IntervalTicks id =>
      match find (fun i => Pos.eqb (interval_id i) id) (intervals m) with
      | Some i =>
          Some (commit (app m) (set_app (loadNewImage (interval_closure i) (app m)) m))
      | None => None
      end
  end.

Fixpoint mounted_run (events : list MountedEvent) (m : Mounted) : option Mounted :=
  match events with
  | [] => Some m
  | e :: rest =>
      match mounted_step e m with
      | Some m' => mounted_run rest m'
      | None => None
      end
  end.

(** The first render and its effect. *)
Definition mount : Mounted :=
  slideshow_effect {| app := initial; slideshowTimerRef := None; intervals := [] |}.

(** The interval registered, if any, is the one of the latest effect. *)
Definition slideshow_timer_ok (m : Mounted) : Prop :=
  let c := config (state (app m)) in
  match intervals m with
  | [] => isSlideshow c = false
  | [i] =>
      isSlideshow c = true
      /\ slideshowTimerRef m = Some (interval_id i)
      /\ interval_period i = (interval c * 1000)%float
      /\ interval_closure i = rendered_loadNewImage (app m)
  | _ => False
  end.

(** The interval registered, if any, is the one in the ref. *)
Definition registered (m : Mounted) : Prop :=
  match intervals m with
  | [] => True
  | [i] => slideshowTimerRef m = Some (interval_id i)
  | _ => False
  end.

(** Events that leave the genre alone: everything but a configuration
    update that names a genre. *)
Definition leaves_genre (e : MountedEvent) : Prop :=
  match e with
  | AppEvent (ConfigUpdate p) => p_genre p = None
  | _ => True
  end.

(** The update sent by the play button when the slideshow is off. *)
Definition slideshow_on : PartialConfig :=
  {| p_genre := None; p_interval := None; p_isSlideshow := Some true;
     p_frameStyle := None; p_filterPreset := None; p_frameWidth := None;
     p_brightness := None |}.

(** The component after mounting and switching the slideshow on. *)
Definition slideshow_started : Mounted :=
  commit (app mount) (set_app (updateConfig slideshow_on (app mount)) mount).

(** *** The interval across renders *)

(** The identifier that [setTimeout] or [setInterval] hands out next. *)
Definition next_id (a : App) : TimerId := nextTimerId (loop a).

(** Every registered interval got its identifier from the counter. *)
Definition interval_ids_below (m : Mounted) : Prop :=
  Forall (fun i => (interval_id i < next_id (app m))%positive) (intervals m).

(** The effect of the render of [m'] has registered a new interval, in
    place of the ones of [m]. *)
Definition restarted (m m' : Mounted) : Prop :=
  exists i' : Interval,
    intervals m' = [i']
    /\ slideshowTimerRef m' = Some (interval_id i')
    /\ interval_period i' = (interval (config (state (app m'))) * 1000)%float
    /\ interval_closure i' = rendered_loadNewImage (app m')
    /\ Forall (fun i => (interval_id i < interval_id i')%positive) (intervals m).

(** What the renders keep. *)
Definition mounted_invariant (m : Mounted) : Prop :=
  slideshow_timer_ok m /\ interval_ids_below m /\ addresses_truthy (app m).

(** The slideshow is on and the first image is being decoded. *)
Definition slideshow_decoding : Mounted :=
  match mounted_run [AppEvent (ConfigUpdate slideshow_on);
                     AppEvent (ProviderResolves 0 (Some "a"%string))] mount with
  | Some m => m
  | None => mount
  end.

(** The update sent by the Urban button of the genre tab. *)
Definition to_urban : PartialConfig :=
  {| p_genre := Some Urban; p_interval := None; p_isSlideshow := None;
     p_frameStyle := None; p_filterPreset := None; p_frameWidth := None;
     p_brightness := None |}.

(** ** The screen wake lock (App.tsx, lines 30, 42-70 and 158) *)

(** A [WakeLockSentinel] is an object: only its identity matters. *)
Definition Sentinel : Type := positive.

(** How the platform settles [navigator.wakeLock.request('screen')]. *)
Inductive Settlement : Type :=
| Granted (s : Sentinel)
| Denied.

(** [wakeLock_in_navigator] is ['wakeLock' in navigator]; [awaited] counts
    the requests the platform has not settled; [held] lists the sentinels
    granted and not released since. *)
Record WakeLock : Type := {
  wakeLock_in_navigator : bool;
  wakeLockRef : option Sentinel;
  awaited : nat;
  held : list Sentinel
}.

Definition wake_initial (supported : bool) : WakeLock :=
  {| wakeLock_in_navigator := supported; wakeLockRef := None;
     awaited := 0; held := [] |}.

(** [!wakeLockRef.current]: [null] is falsy, a sentinel (an object) is
    truthy, released or not. *)
Definition ref_is_empty (r : option Sentinel) : bool :=
  match r with
  | None => true
  | Some _ => false
  end.

(** [requestWakeLock] up to its [await] (lines 44-46). *)
Definition requestWakeLock (w : WakeLock) : WakeLock :=
  if wakeLock_in_navigator w && ref_is_empty (wakeLockRef w)
  then {| wakeLock_in_navigator := wakeLock_in_navigator w;
          wakeLockRef := wakeLockRef w;
          awaited := S (awaited w);
          held := held w |}
  else w.

(** [requestWakeLock] after its [await]: the assignment of line 46, or the
    [catch] of lines 48-51, which only logs. *)
Definition requestWakeLock_resumed (r : Settlement) (w : WakeLock)
  : WakeLock :=
  match r with
  | Granted s =>
      {| wakeLock_in_navigator := wakeLock_in_navigator w;
         wakeLockRef := Some s;
         awaited := awaited w;
         held := held w |}
  | Denied => w
  end.

(** [sentinel.release()]; releasing a released sentinel changes nothing. *)
Definition release (s : Sentinel) (l : list Sentinel) : list Sentinel :=
  filter (fun x => negb (Pos.eqb x s)) l.

(** The cleanup of the effect (lines 65-69). *)
Definition wake_cleanup (w : WakeLock) : WakeLock :=
  {| wakeLock_in_navigator := wakeLock_in_navigator w;
     wakeLockRef := None;
     awaited := awaited w;
     held := match wakeLockRef w with
             | Some s => release s (held w)
             | None => held w
             end |}.

(** The effect at mount (line 55). *)
Definition wake_mount (supported : bool) : WakeLock :=
  requestWakeLock (wake_initial supported).

(** What happens to a mounted component: a click on the frame
    ([handleInteraction], line 158), a [visibilitychange] event (lines
    58-62), the platform settling the oldest request, the unmount.  A
    document that becomes hidden loses its screen wake locks: the platform
    releases them, the sentinels stay where they are. *)
Inductive WakeEvent : Type :=
| Interaction
| VisibilityChange (visible : bool)
| RequestSettles (r : Settlement)
| Unmount.

Definition platform_settles (r : Settlement) (n : nat) (w : WakeLock)
  : WakeLock :=
  {| wakeLock_in_navigator := wakeLock_in_navigator w;
     wakeLockRef := wakeLockRef w;
     awaited := n;
     held := match r with
             | Granted s => s :: held w
             | Denied => held w
             end |}.

Definition platform_hides (w : WakeLock) : WakeLock :=
  {| wakeLock_in_navigator := wakeLock_in_navigator w;
     wakeLockRef := wakeLockRef w;
     awaited := awaited w;
     held := [] |}.

Definition wake_step (e : WakeEvent) (w : WakeLock) : option WakeLock :=
  match e with
  | Interaction => Some (requestWakeLock w)
  | VisibilityChange true => Some (requestWakeLock w)
  | VisibilityChange false => Some (platform_hides w)
  | RequestSettles r =>
      match awaited w with
      | O => None
      | S n => Some (requestWakeLock_resumed r (platform_settles r n w))
      end
  | Unmount => Some (wake_cleanup w)
  end.

Fixpoint wake_run (es : list WakeEvent) (w : WakeLock) : option WakeLock :=
  match es with
  | [] => Some w
  | e :: rest =>
      match wake_step e w with
      | Some w' => wake_run rest w'
      | None => None
      end
  end.

Definition grants (ss : list Sentinel) : list WakeEvent :=
  map (fun s => RequestSettles (Granted s)) ss.

(** The lock is held and the page goes to the background and comes back. *)
Definition lock_granted : WakeLock :=
  {| wakeLock_in_navigator := true; wakeLockRef := Some 1%positive;
     awaited := 0; held := [1%positive] |}.

(** The events that call [requestWakeLock]. *)
Definition calls_requestWakeLock (e : WakeEvent) : bool :=
  match e with
  | Interaction | VisibilityChange true => true
  | _ => false
  end.

(** No call of [requestWakeLock] is made while a request is awaited. *)
Fixpoint one_at_a_time (es : list WakeEvent) (w : WakeLock) : Prop :=
  match es with
  | [] => True
  | e :: rest =>
      (calls_requestWakeLock e = true -> awaited w = 0%nat)
      /\ match wake_step e w with
         | Some w' => one_at_a_time rest w'
         | None => True
         end
  end.

(** Nothing is held, or one sentinel, which the ref names. *)
Definition ref_tracks_lock (w : WakeLock) : Prop :=
  match held w with
  | [] => True
  | [s] => wakeLockRef w = Some s
  | _ => False
  end.

(** What a run keeps when no two requests overlap. *)
Definition wake_invariant (w : WakeLock) : Prop :=
  ref_tracks_lock w
  /\ (awaited w = 0%nat
      \/ awaited w = 1%nat /\ wakeLockRef w = None /\ held w = []).

(** * Properties *)

(** ** The image provider *)

Lemma append_assoc (s t u : string) : ((s ++ t) ++ u = s ++ (t ++ u))%string.
Proof. induction s as [|c s IH]; simpl; [reflexivity | now rewrite IH]. Qed.

Lemma take_skip_white (s : string) : (take_white s ++ skip_white s)%string = s.
Proof.
  induction s as [|c s IH]; simpl; [reflexivity|].
  destruct (JS.isWhiteSpace c); simpl; [now rewrite IH | reflexivity].
Qed.

Lemma take_white_all (s : string) : all_white (take_white s) = true.
Proof.
  induction s as [|c s IH]; simpl; [reflexivity|].
  destruct (JS.isWhiteSpace c) eqn:E; simpl; [now rewrite E | reflexivity].
Qed.

Lemma skip_white_black (s : string) : starts_black (skip_white s).
Proof.
  induction s as [|c s IH]; simpl; [exact I|].
  destruct (JS.isWhiteSpace c) eqn:E; simpl; assumption.
Qed.

Lemma skip_white_length (s : string) :
  (String.length (skip_white s) <= String.length s)%nat.
Proof.
  induction s as [|c s IH]; simpl; [lia|].
  destruct (JS.isWhiteSpace c); simpl; lia.
Qed.

(** Inside a run the scan only drops white space. *)
Lemma replaceRuns_in_run (s : string) :
  JS.replaceRuns true s = JS.replaceRuns false (skip_white s).
Proof.
  induction s as [|c s IH]; simpl; [reflexivity|].
  destruct (JS.isWhiteSpace c) eqn:E; simpl; [exact IH | now rewrite E].
Qed.

(** The scan of [String.replace] computes the slug of the
    specification. *)
Lemma replaceRuns_slug (s : string) : slug_of s (JS.replaceRuns false s).
Proof.
  remember (String.length s) as n eqn:Hn.
  revert s Hn.
  induction n as [n IH] using (well_founded_induction lt_wf).
  intros [|c s] Hn; simpl.
  - constructor.
  - destruct (JS.isWhiteSpace c) eqn:E.
    + rewrite replaceRuns_in_run.
      replace (String c s)
        with (String c (take_white s) ++ skip_white s)%string
        by (simpl; now rewrite take_skip_white).
      apply slug_run.
      * discriminate.
      * simpl. now rewrite E, take_white_all.
      * apply skip_white_black.
      * apply (IH (String.length (skip_white s))); [|reflexivity].
        subst n. simpl. pose proof (skip_white_length s). lia.
    + apply slug_keep; [exact E|].
      apply (IH (String.length s)); [subst n; simpl; lia | reflexivity].
Qed.

(** The slugs of the six genres. *)
Lemma genre_slugs :
  map (fun g => JS.replaceRuns false (Genre_value g))
      [Nature; Urban; Abstract; Space; Minimalism; Animals]
  = ["Nature"; "Urban-Architecture"; "Abstract-Art"; "Deep-Space";
     "Minimalism"; "Wildlife"]%string.
Proof. reflexivity. Qed.

(** *** [Math.floor(Math.random() * 100000)] in binary64

    The product is rounded to nearest-even before [Math.floor] sees it.
    For a draw in [0, 1) the rounded product stays below 100000: the
    exact product is at least [100000 * 2^e] away from 100000, where
    [2^e] is the unit in the last place of the draw, and that is more
    than half a unit in the last place of the product. *)

Local Open Scope Z_scope.

Lemma Prim2SF_100000 :
  Prim2SF 100000%float = S754_finite false 6871947673600000 (-36).
Proof. vm_compute. reflexivity. Qed.

Lemma Prim2SF_one :
  Prim2SF 1%float = S754_finite false 4503599627370496 (-52).
Proof. vm_compute. reflexivity. Qed.

Lemma Prim2SF_zero : Prim2SF 0%float = S754_zero false.
Proof. vm_compute. reflexivity. Qed.

Lemma fexp_eq (z : Z) : fexp prec emax z = Z.max (z - 53) (-1074).
Proof. reflexivity. Qed.

(** [digits2_pos p] is the number of binary digits of [p]. *)
Lemma digits_bounds (p : positive) :
  2 ^ (Zpos (digits2_pos p) - 1) <= Zpos p < 2 ^ Zpos (digits2_pos p).
Proof.
  induction p as [p IH|p IH|].
  - cbn [digits2_pos]. rewrite Pos2Z.inj_succ. change (Zpos p~1) with (2 * Zpos p + 1).
    replace (Z.succ (Zpos (digits2_pos p)) - 1) with (Z.succ (Zpos (digits2_pos p) - 1)) by lia.
    rewrite !Z.pow_succ_r by lia.
    revert IH. generalize (2 ^ (Z.pos (digits2_pos p) - 1)) (2 ^ Z.pos (digits2_pos p)). lia.
  - cbn [digits2_pos]. rewrite Pos2Z.inj_succ. change (Zpos p~0) with (2 * Zpos p).
    replace (Z.succ (Zpos (digits2_pos p)) - 1) with (Z.succ (Zpos (digits2_pos p) - 1)) by lia.
    rewrite !Z.pow_succ_r by lia.
    revert IH. generalize (2 ^ (Z.pos (digits2_pos p) - 1)) (2 ^ Z.pos (digits2_pos p)). lia.
  - cbn. lia.
Qed.

(** One step of the shift halves the significand and keeps the bit that
    falls off as the round bit. *)
Lemma shr_1_spec (x : shr_record) :
  0 <= shr_m x ->
  shr_m (shr_1 x) = shr_m x / 2 /\ shr_r (shr_1 x) = Z.odd (shr_m x).
Proof.
  destruct x as [m r s]. cbn [shr_m]. intros Hm.
  destruct m as [|p|p]; [| |lia].
  - split; reflexivity.
  - destruct p as [p|p|]; cbn [shr_1 shr_m shr_r].
    + split; [|reflexivity]. change (Zpos p~1) with (2 * Zpos p + 1).
      apply Z.div_unique with 1; lia.
    + split; [|reflexivity]. change (Zpos p~0) with (2 * Zpos p).
      apply Z.div_unique with 0; lia.
    + split; reflexivity.
Qed.

(** [p] further steps, from a record that holds [M] shifted by [k]. *)
Lemma iter_shr_1 (M : Z) (p : positive) :
  0 <= M ->
  forall (x : shr_record) (k : Z),
    0 <= k -> shr_m x = M / 2 ^ k ->
    shr_m (iter_pos shr_1 p x) = M / 2 ^ (k + Zpos p)
    /\ shr_r (iter_pos shr_1 p x) = Z.odd (M / 2 ^ (k + Zpos p - 1)).
Proof.
  intros HM.
  assert (Hstep : forall x k, 0 <= k -> shr_m x = M / 2 ^ k ->
            shr_m (shr_1 x) = M / 2 ^ (k + 1)
            /\ shr_r (shr_1 x) = Z.odd (M / 2 ^ (k + 1 - 1))).
  { intros x k Hk Hx.
    assert (H0 : 0 <= shr_m x) by (rewrite Hx; apply Z.div_pos; [lia | apply Z.pow_pos_nonneg; lia]).
    destruct (shr_1_spec x H0) as [H1 H2]. split.
    - assert (Hp : 0 < 2 ^ k) by (apply Z.pow_pos_nonneg; lia).
      rewrite H1, Hx, Z.div_div; [| apply Z.pow_nonzero; lia | lia].
      f_equal. rewrite Z.pow_add_r by lia. reflexivity.
    - rewrite H2, Hx. now replace (k + 1 - 1) with k by lia. }
  induction p as [p IH|p IH|]; intros x k Hk Hx; cbn [iter_pos].
  - destruct (Hstep x k Hk Hx) as [H1 _].
    destruct (IH (shr_1 x) (k + 1) ltac:(lia) H1) as [H2 _].
    destruct (IH _ (k + 1 + Zpos p) ltac:(lia) H2) as [H3 H4].
    replace (k + Zpos p~1) with (k + 1 + Zpos p + Zpos p) by lia. auto.
  - destruct (IH x k Hk Hx) as [H2 _].
    destruct (IH _ (k + Zpos p) ltac:(lia) H2) as [H3 H4].
    replace (k + Zpos p~0) with (k + Zpos p + Zpos p) by lia. auto.
  - apply Hstep; assumption.
Qed.

(** The first pass of the rounding: no shift when the significand fits,
    a shift by [n] places otherwise. *)
Lemma shr_fexp_exact (M E : Z) :
  0 <= M ->
  let n := fexp prec emax (Zdigits2 M + E) - E in
  (n <= 0 ->
   shr_fexp prec emax M E loc_Exact
   = ({| shr_m := M; shr_r := false; shr_s := false |}, E))
  /\ (0 < n ->
      exists mrs, shr_fexp prec emax M E loc_Exact = (mrs, E + n)
        /\ shr_m mrs = M / 2 ^ n
        /\ shr_r mrs = Z.odd (M / 2 ^ (n - 1))).
Proof.
  intros HM n. unfold shr_fexp. fold n. cbn [shr_record_of_loc].
  split; intros Hn.
  - destruct n; [reflexivity | lia | reflexivity].
  - destruct n as [|p|p]; try lia. cbn [shr].
    eexists. split; [reflexivity|].
    apply (iter_shr_1 M p HM _ 0); [lia|].
    cbn [shr_m]. now rewrite Z.pow_0_r, Z.div_1_r.
Qed.

(** Rounding adds one only when the round bit is set. *)
Lemma round_nearest_even_cases (mrs : shr_record) :
  let mr := round_nearest_even (shr_m mrs) (loc_of_shr_record mrs) in
  mr = shr_m mrs \/ (mr = shr_m mrs + 1 /\ shr_r mrs = true).
Proof.
  destruct mrs as [m [|] [|]]; cbn; auto.
  destruct (Z.even m); auto.
Qed.

(** A number below [2^k] has at most [k] digits. *)
Lemma digits_le (M k : Z) : 0 <= k -> 0 <= M < 2 ^ k -> Zdigits2 M <= k.
Proof.
  intros Hk [H0 H1]. destruct M as [|p|p]; [exact Hk | | lia].
  cbn [Zdigits2]. destruct (digits_bounds p) as [Hd _].
  destruct (Z.le_gt_cases (Zpos (digits2_pos p)) k) as [H|H]; [exact H|].
  exfalso.
  assert (2 ^ k <= 2 ^ (Zpos (digits2_pos p) - 1)) by (apply Z.pow_le_mono_r; lia).
  lia.
Qed.

(** Below 100000 means below [2^17]. *)
Lemma below_digits (m e : Z) : below_100000 m e -> Zdigits2 m + e <= 17.
Proof.
  intros (He & H0 & H1).
  assert (Zdigits2 m <= 17 - e); [|lia].
  apply digits_le; [lia|]. split; [exact H0|].
  replace (17 - e) with (17 + - e) by lia. rewrite Z.pow_add_r by lia.
  assert (0 < 2 ^ (- e)) by (apply Z.pow_pos_nonneg; lia).
  change (2 ^ 17) with 131072. lia.
Qed.

(** Shifting to the right keeps the bound. *)
Lemma shift_below (m e n : Z) :
  0 < n -> e + n <= 0 -> 0 <= m < 100000 * 2 ^ (- e) ->
  0 <= m / 2 ^ n < 100000 * 2 ^ (- (e + n)).
Proof.
  intros Hn He [H0 H1].
  assert (Hp : 0 < 2 ^ n) by (apply Z.pow_pos_nonneg; lia).
  split; [apply Z.div_pos; lia|].
  apply Z.div_lt_upper_bound; [exact Hp|].
  replace (- e) with (n + - (e + n)) in H1 by lia.
  rewrite Z.pow_add_r in H1 by lia. lia.
Qed.

(** The second pass of [binary_round_aux] keeps the bound. *)
Lemma second_pass_below (mr e' : Z) :
  below_100000 mr e' ->
  below_100000 (shr_m (fst (shr_fexp prec emax mr e' loc_Exact)))
        (snd (shr_fexp prec emax mr e' loc_Exact)).
Proof.
  intros Hb. pose proof (below_digits mr e' Hb) as Hd.
  destruct Hb as (He & Hm).
  destruct (shr_fexp_exact mr e' (proj1 Hm)) as [Hle Hgt].
  set (n := fexp prec emax (Zdigits2 mr + e') - e') in *.
  destruct (Z.le_gt_cases n 0) as [Hn|Hn].
  - rewrite (Hle Hn). cbn [fst snd shr_m]. split; assumption.
  - destruct (Hgt ltac:(lia)) as (mrs & Heq & Hm2 & _).
    rewrite Heq. cbn [fst snd]. rewrite Hm2.
    assert (He2 : e' + n <= 0).
    { subst n. rewrite fexp_eq. lia. }
    split; [exact He2|]. apply shift_below; [lia | exact He2 | exact Hm].
Qed.

(** The first pass and the rounding: the gap below_100000 100000 is wider
    than half a unit in the last place. *)
Lemma first_pass_below (M E : Z) :
  0 <= M < 2 ^ 106 ->
  -1110 <= E <= 0 ->
  M + 2 ^ 52 < 100000 * 2 ^ (- E) ->
  let mrs := fst (shr_fexp prec emax M E loc_Exact) in
  below_100000 (round_nearest_even (shr_m mrs) (loc_of_shr_record mrs))
        (snd (shr_fexp prec emax M E loc_Exact)).
Proof.
  intros [HM0 HM1] [HE0 HE1] Hgap.
  assert (H52 : 0 < 2 ^ 52) by reflexivity.
  assert (Hb : below_100000 M E) by (split; [exact HE1 | lia]).
  pose proof (below_digits M E Hb) as Hd.
  assert (Hd2 : Zdigits2 M <= 106) by (apply digits_le; lia).
  destruct (shr_fexp_exact M E HM0) as [Hle Hgt].
  set (n := fexp prec emax (Zdigits2 M + E) - E) in *.
  destruct (Z.le_gt_cases n 0) as [Hn|Hn].
  - rewrite (Hle Hn). cbn. exact Hb.
  - destruct (Hgt ltac:(lia)) as (mrs & Heq & Hm1 & Hr).
    rewrite Heq. cbn [fst snd].
    assert (Hn53 : n <= 53) by (subst n; rewrite fexp_eq; lia).
    assert (He' : E + n <= 0) by (subst n; rewrite fexp_eq; lia).
    pose proof (shift_below M E n ltac:(lia) He' (proj2 Hb)) as Hm.
    rewrite <- Hm1 in Hm.
    split; [exact He'|].
    destruct (round_nearest_even_cases mrs) as [-> | [-> Hodd]]; [exact Hm|].
    split; [lia|].
    destruct (Z.lt_ge_cases (shr_m mrs + 1) (100000 * 2 ^ (- (E + n)))) as [Hlt|Hge];
      [exact Hlt|]. exfalso.
    set (K := 100000 * 2 ^ (- (E + n))) in *.
    set (h := 2 ^ (n - 1)).
    assert (Hh : 0 < h) by (apply Z.pow_pos_nonneg; lia).
    assert (H2h : 2 ^ n = 2 * h).
    { subst h. replace n with (Z.succ (n - 1)) at 1 by lia.
      rewrite Z.pow_succ_r by lia. reflexivity. }
    assert (Hh52 : h <= 2 ^ 52) by (apply Z.pow_le_mono_r; lia).
    assert (HK : 100000 * 2 ^ (- E) = K * (2 * h)).
    { subst K. rewrite <- H2h, <- Z.mul_assoc, <- Z.pow_add_r by lia.
      do 2 f_equal. lia. }
    rewrite Hr in Hodd. fold h in Hodd.
    set (q := M / h) in *.
    assert (Hq : h * q <= M) by (apply Z.mul_div_le; exact Hh).
    assert (Hq2 : shr_m mrs = q / 2).
    { rewrite Hm1, H2h. subst q. rewrite Z.mul_comm, Z.div_div by lia.
      now rewrite Z.mul_comm. }
    assert (Hq3 : q = 2 * (q / 2) + 1).
    { rewrite (Z.div_mod q 2) at 1 by lia. f_equal.
      rewrite Zmod_odd, Hodd. reflexivity. }
    rewrite <- Hq2 in Hq3.
    nia.
Qed.

(** The rounding of a significand [M] at exponent [E], when [M * 2^E]
    is below 100000 by more than [2^52 * 2^E]. *)
Lemma binary_round_aux_below (M E : Z) :
  0 <= M < 2 ^ 106 ->
  -1110 <= E <= 0 ->
  M + 2 ^ 52 < 100000 * 2 ^ (- E) ->
  match binary_round_aux prec emax false M E loc_Exact with
  | S754_zero s => s = false
  | S754_finite s m e => s = false /\ below_100000 (Zpos m) e
  | _ => False
  end.
Proof.
  intros HM HE Hgap.
  pose proof (first_pass_below M E HM HE Hgap) as H1. cbv zeta in H1.
  unfold binary_round_aux.
  destruct (shr_fexp prec emax M E loc_Exact) as [mrs' e'].
  cbn [fst snd] in H1.
  pose proof (second_pass_below _ _ H1) as H2.
  destruct (shr_fexp prec emax _ e' loc_Exact) as [mrs'' e''].
  cbn [fst snd] in H2. destruct H2 as (He & Hm).
  destruct (shr_m mrs'') as [|m2|m2]; [reflexivity | | lia].
  replace (e'' <=? emax - prec) with true
    by (symmetry; apply Z.leb_le; change (emax - prec) with 971; lia).
  split; [reflexivity|]. split; assumption.
Qed.

(** What [valid_binary] says of a finite binary64 number. *)
Lemma canonical_bounds (m : positive) (e : Z) :
  bounded prec emax m e = true ->
  Zpos (digits2_pos m) <= 53 /\ -1074 <= e
  /\ (Zpos (digits2_pos m) = 53 \/ e = -1074).
Proof.
  unfold bounded, canonical_mantissa. intros H.
  apply andb_prop in H. destruct H as [H _].
  apply Z.eqb_eq in H. rewrite fexp_eq in H. lia.
Qed.

(** The product of a number below 1 with 100000. *)
Lemma SFmul_below (m : positive) (e : Z) :
  bounded prec emax m e = true -> e < -52 ->
  match SFmul prec emax (S754_finite false m e)
                        (S754_finite false 6871947673600000 (-36)) with
  | S754_zero s => s = false
  | S754_finite s m2 e2 => s = false /\ below_100000 (Zpos m2) e2
  | _ => False
  end.
Proof.
  intros Hb He. cbn [SFmul xorb].
  destruct (canonical_bounds m e Hb) as (Hd & Hmin & _).
  destruct (digits_bounds m) as [_ Hm].
  assert (Hm53 : Zpos m < 2 ^ 53).
  { eapply Z.lt_le_trans; [exact Hm|]. apply Z.pow_le_mono_r; lia. }
  assert (Hpe : 2 ^ 53 <= 2 ^ (- e)) by (apply Z.pow_le_mono_r; lia).
  change (2 ^ 53) with 9007199254740992 in *.
  apply binary_round_aux_below.
  - rewrite Pos2Z.inj_mul. change (2 ^ 106) with (9007199254740992 * 9007199254740992).
    nia.
  - lia.
  - rewrite Pos2Z.inj_mul.
    replace (- (e + -36)) with (36 + - e) by lia.
    rewrite Z.pow_add_r by lia.
    change (2 ^ 52) with 4503599627370496. change (2 ^ 36) with 68719476736.
    nia.
Qed.

(** [<] on two positive finite numbers. *)
Lemma SFltb_finite (m q : positive) (e1 e2 : Z) :
  SFltb (S754_finite false m e1) (S754_finite false q e2) = true ->
  e1 < e2 \/ (e1 = e2 /\ Zpos m < Zpos q).
Proof.
  unfold SFltb, SFcompare.
  destruct (Z.compare_spec e1 e2) as [Heq|Hlt|Hgt]; [|now left|discriminate].
  rewrite Pos.compare_cont_spec. unfold Pos.switch_Eq.
  destruct (Pos.compare_spec m q) as [Hc|Hc|Hc]; try discriminate.
  intros _. right. split; [exact Heq|]. now apply Pos2Z.pos_lt_pos.
Qed.

(** A valid positive number below 1 has an exponent below that of 1. *)
Lemma below_one (m : positive) (e : Z) :
  bounded prec emax m e = true ->
  SFltb (S754_finite false m e) (S754_finite false 4503599627370496 (-52)) = true ->
  e < -52.
Proof.
  intros Hv H1.
  destruct (SFltb_finite _ _ _ _ H1) as [Hlt|[Heq Hc]]; [exact Hlt|].
  exfalso.
  destruct (canonical_bounds m _ Hv) as (_ & _ & [Hd|Hd]); [|lia].
  destruct (digits_bounds m) as [Hm _]. rewrite Hd in Hm.
  change (2 ^ (53 - 1)) with 4503599627370496 in Hm.
  exact (Z.lt_irrefl _ (Z.lt_le_trans _ _ _ Hc Hm)).
Qed.

(** The floor of a number below 100000. *)
Lemma floor_below (m : positive) (e : Z) :
  below_100000 (Zpos m) e -> 0 <= Z.shiftl (Zpos m) e < 100000.
Proof.
  intros (He2 & Hm0 & Hm2).
  rewrite Z.shiftl_div_pow2 by exact He2.
  assert (Hp : 0 < 2 ^ (- e)) by (apply Z.pow_pos_nonneg; lia).
  split; [apply Z.div_pos; lia|].
  apply Z.div_lt_upper_bound; [exact Hp | lia].
Qed.

(** The range of the floor, on the specification of binary64. *)
Lemma SF_floor_range (x : spec_float) :
  valid_binary x = true ->
  SFleb (S754_zero false) x = true ->
  SFltb x (S754_finite false 4503599627370496 (-52)) = true ->
  match SFmul prec emax x (S754_finite false 6871947673600000 (-36)) with
  | S754_zero _ => True
  | S754_finite s m e => s = false /\ 0 <= Z.shiftl (Zpos m) e < 100000
  | _ => False
  end.
Proof.
  intros Hv H0 H1.
  destruct x as [s|s| |s m e].
  - exact I.
  - destruct s; discriminate.
  - discriminate.
  - assert (Hs : s = false) by (destruct s; [discriminate H0 | reflexivity]).
    subst s.
    change (bounded prec emax m e = true) in Hv.
    pose proof (SFmul_below m e Hv (below_one m e Hv H1)) as Hmul.
    destruct (SFmul prec emax _ _) as [s2|s2| |s2 m2 e2]; try contradiction.
    + exact I.
    + destruct Hmul as [Hs Hb]. split; [exact Hs|]. now apply floor_below.
Qed.

(** [Math.floor(Math.random() * 100000)] is a natural number below
    100000, for every binary64 draw in [0, 1). *)
Lemma cacheBuster_range (random : float) :
  (0 <=? random)%float = true -> (random <? 1)%float = true ->
  exists n : Z,
    JS.Math_floor (random * 100000) = JS.Int n /\ 0 <= n < 100000.
Proof.
  rewrite leb_spec, ltb_spec, Prim2SF_zero, Prim2SF_one.
  intros H0 H1.
  pose proof (SF_floor_range _ (Prim2SF_valid random) H0 H1) as H.
  unfold JS.Math_floor. rewrite mul_spec, Prim2SF_100000. unfold SF64mul.
  destruct (SFmul prec emax _ _) as [s2|s2| |s2 m2 e2]; try contradiction.
  - exists 0. split; [reflexivity | lia].
  - destruct H as [-> H]. exists (Z.shiftl (Zpos m2) e2). split; [reflexivity | exact H].
Qed.

(** A draw whose product with 100000 is rounded up to an integer: the
    exact product is just below 99996. *)
Lemma cacheBuster_rounds_up :
  JS.Math_floor (0x1.fffac1d29dc72p-1 * 100000)%float = JS.Int 99996.
Proof. vm_compute. reflexivity. Qed.

(** With a string for a genre no statement of the [try] block throws. *)
Lemma generateArtImage_string (name : string) (random : float) :
  generateArtImage (JS.Str name) random
  = JS.Normal (Some (stock_url (JS.replaceRuns false name)
                               (JS.Math_floor (random * 100000)%float))).
Proof.
  unfold generateArtImage, stock_url. simpl.
  now rewrite !append_assoc.
Qed.

(** Only a missing genre reaches the [catch] branch. *)
Lemma generateArtImage_catch (random : float) :
  generateArtImage JS.Null random = JS.Normal None
  /\ generateArtImage JS.Undefined random = JS.Normal None.
Proof. split; reflexivity. Qed.

(** C9. [generateArtImage] never throws: for every value passed as the
    genre and every draw of [Math.random] in [0, 1) it completes
    normally.  It returns null exactly on the internal failure, which
    is the [TypeError] of [genre.replace] on a genre that is null or
    undefined.  For a string it returns the address
    https://picsum.photos/seed/<slug>-<n>/1920/1080, where <slug> is
    the genre name with each white-space run replaced by a hyphen and
    <n>, the floor of the binary64 product of the draw and 100000, is
    a natural number below 100000. *)
Theorem generateArtImage_contract (genre : JS.Value) (random : float) :
  (0 <=? random)%float = true -> (random <? 1)%float = true ->
  exists result : option string,
    generateArtImage genre random = JS.Normal result
    /\ match genre with
       | JS.Str name =>
           exists (slug : string) (n : Z),
             slug_of name slug
             /\ JS.Math_floor (random * 100000)%float = JS.Int n
             /\ (0 <= n < 100000)%Z
             /\ result = Some (picsum ++ slug ++ "-" ++ JS.Number_toString n
                                      ++ "/1920/1080")%string
       | JS.Null | JS.Undefined =>
           (exists error : JS.Error,
              JS.String_replace_whitespace genre = JS.Throw error)
           /\ result = None
       end.
Proof.
  intros H0 H1.
  destruct genre as [| |name].
  - exists None. split; [reflexivity|]. split; [eexists|]; reflexivity.
  - exists None. split; [reflexivity|]. split; [eexists|]; reflexivity.
  - destruct (cacheBuster_range random H0 H1) as (n & Hn & Hrange).
    eexists. split; [apply generateArtImage_string|].
    exists (JS.replaceRuns false name), n.
    split; [apply replaceRuns_slug|]. split; [exact Hn|]. split; [exact Hrange|].
    unfold stock_url. now rewrite Hn.
Qed.

Lemma generateArtImage_contract_witness :
  exists result : option string,
    generateArtImage (JS.Str (Genre_value Space)) 0x1.fffac1d29dc72p-1
    = JS.Normal result
    /\ exists (slug : string) (n : Z),
         slug_of (Genre_value Space) slug
         /\ JS.Math_floor (0x1.fffac1d29dc72p-1 * 100000)%float = JS.Int n
         /\ (0 <= n < 100000)%Z
         /\ result = Some (picsum ++ slug ++ "-" ++ JS.Number_toString n
                                  ++ "/1920/1080")%string.
Proof.
  exact (generateArtImage_contract (JS.Str (Genre_value Space))
           0x1.fffac1d29dc72p-1 eq_refl eq_refl).
Defined.

(** The same call, evaluated. *)
Lemma generateArtImage_example :
  generateArtImage (JS.Str (Genre_value Space)) 0x1.fffac1d29dc72p-1
  = JS.Normal (Some "https://picsum.photos/seed/Deep-Space-99996/1920/1080"%string).
Proof. vm_compute. reflexivity. Qed.

(** C10. For every genre of the enum [generateArtImage] returns a
    non-null, non-empty address: the [catch] branch is not taken, and
    in [loadNewImage] the answer always takes the branch that preloads
    the image, never the null-handling branch. *)
Theorem generateArtImage_never_null (g : Genre) (random : float) :
  exists url : string,
    generateArtImage (JS.Str (Genre_value g)) random = JS.Normal (Some url)
    /\ generateArtImage (JS.Str (Genre_value g)) random <> JS.Normal None
    /\ JS.truthy (Some url) = true
    /\ forall (cl : LoadClosure) (a : App),
         loadNewImage_resumed cl (Some url) a
         = set_inflight
             (fun l => l ++ [{| if_closure := cl; if_stage := Decoding url |}]) a.
Proof.
  eexists. split; [apply generateArtImage_string|].
  split; [rewrite generateArtImage_string; discriminate|].
  split; [reflexivity|].
  intros cl a. reflexivity.
Qed.

(** ** The session *)

Local Open Scope Z_scope.

Ltac open_app a :=
  destruct a as [[cfg cur ld sc hist idx] [ctr gen ltt lts stt ts ib] [fl tm nid]];
  cbn in *.

Lemma slice_prefix {A : Type} (l : list A) (n : Z) :
  0 <= n -> JS.Array_slice l 0 n = firstn (Z.to_nat n) l.
Proof.
  intros Hn. unfold JS.Array_slice.
  replace (0 <? 0) with false by reflexivity.
  destruct (Z.ltb_spec n 0); [exfalso; lia|].
  rewrite (Z.min_l 0) by lia. rewrite Z.sub_0_r. cbn [Z.to_nat skipn].
  destruct (Z.le_gt_cases n (Z.of_nat (length l))) as [Hl|Hl].
  - now rewrite Z.min_l by lia.
  - rewrite Z.min_r by lia. rewrite Nat2Z.id.
    rewrite firstn_all. symmetry. apply firstn_all2. lia.
Qed.

Lemma slice_prefix_length {A : Type} (l : list A) (n : Z) :
  0 <= n <= Z.of_nat (length l) ->
  length (JS.Array_slice l 0 n) = Z.to_nat n.
Proof.
  intros H. rewrite slice_prefix by lia. rewrite length_firstn. lia.
Qed.

Lemma extract_one {A : Type} (i : nat) (x y : A) (rest : list A) :
  extract i [x] = Some (y, rest) -> i = O /\ y = x /\ rest = [].
Proof.
  destruct i; simpl; intros H.
  - inversion H. auto.
  - destruct i; discriminate.
Qed.

Lemma extract_timer_In (id : TimerId) (l rest : list Timer) (t u : Timer) :
  extract_timer id l = Some (t, rest) -> In u rest -> In u l.
Proof.
  revert rest. induction l as [|x l IH]; simpl; intros rest H Hu; [discriminate|].
  destruct (Pos.eqb (timer_id x) id).
  - inversion H; subst. now right.
  - destruct (extract_timer id l) as [[v r]|]; [|discriminate].
    inversion H; subst. destruct Hu as [->|Hu]; [now left | right; eauto].
Qed.

Lemma extract_timer_hd (id : TimerId) (l rest : list Timer) (t : Timer) :
  extract_timer id l = Some (t, rest) -> In t l.
Proof.
  revert rest. induction l as [|x l IH]; simpl; intros rest H; [discriminate|].
  destruct (Pos.eqb (timer_id x) id).
  - inversion H; subst. now left.
  - destruct (extract_timer id l) as [[v r]|]; [|discriminate].
    inversion H; subst. right; eauto.
Qed.

Ltac finish := cbn in *; intuition (try discriminate; try congruence; try lia).

Lemma same_session_refl (a : App) : same_session a a.
Proof. unfold same_session. intuition. Qed.

Lemma same_session_trans (a b c : App) :
  same_session a b -> same_session b c -> same_session a c.
Proof.
  unfold same_session.
  intros (H1 & H2 & H3 & H4 & H5 & H6 & H7) (K1 & K2 & K3 & K4 & K5 & K6 & K7).
  repeat split; try congruence.
  intros t Hin Hd. apply H7; [apply K7|]; assumption.
Qed.

Lemma same_session_clearTimeout (id : TimerId) (a : App) :
  same_session a (clearTimeout id a).
Proof.
  unfold same_session. open_app a. intuition.
  match goal with H : In _ (filter _ _) |- _ => apply filter_In in H end.
  tauto.
Qed.

Lemma same_session_clear_if_set (r : option TimerId) (a : App) :
  same_session a (clear_if_set r a).
Proof.
  destruct r; [apply same_session_clearTimeout | apply same_session_refl].
Qed.

Lemma same_session_setTimeout (c : TimerCallback) (d : Z) (a : App) :
  (forall cl, c <> DelayedLoadNewImage cl) ->
  same_session a (snd (setTimeout c d a)).
Proof.
  intros Hc. unfold same_session. open_app a. intuition.
  match goal with H : In _ (_ ++ _) |- _ => apply in_app_or in H; destruct H as [H|[<-|[]]] end.
  - assumption.
  - unfold is_delayed_load in *. cbn in *. destruct c; try discriminate.
    now destruct (Hc cl).
Qed.

Ltac same_by_computation a := unfold same_session; open_app a; intuition.

Lemma same_session_set_singleTapTimerRef v a : same_session a (set_singleTapTimerRef v a).
Proof. same_by_computation a. Qed.
Lemma same_session_set_controlsTimerRef v a : same_session a (set_controlsTimerRef v a).
Proof. same_by_computation a. Qed.
Lemma same_session_set_lastTap t s a : same_session a (set_lastTap t s a).
Proof. same_by_computation a. Qed.
Lemma same_session_set_touchStartRef v a : same_session a (set_touchStartRef v a).
Proof. same_by_computation a. Qed.
Lemma same_session_set_initialBrightnessRef v a : same_session a (set_initialBrightnessRef v a).
Proof. same_by_computation a. Qed.
Lemma same_session_setShowControls v a : same_session a (setShowControls v a).
Proof. same_by_computation a. Qed.
Lemma same_session_setConfig f a : same_session a (setConfig f a).
Proof. same_by_computation a. Qed.


Lemma same_session_single_tap (seen : bool) (t : Z) (s : Side) (a : App) :
  same_session a
    (let a := set_lastTap t (Some s) a in
     let a := clear_if_set (singleTapTimerRef (refs a)) a in
     let (id, a) := setTimeout (SingleTapAction seen) 300 a in
     set_singleTapTimerRef (Some id) a).
Proof.
  cbv zeta.
  destruct (setTimeout _ _ _) as [id b] eqn:E.
  eapply same_session_trans; [|apply same_session_set_singleTapTimerRef].
  replace b with (snd (setTimeout (SingleTapAction seen) 300
     (clear_if_set (singleTapTimerRef (refs (set_lastTap t (Some s) a)))
        (set_lastTap t (Some s) a)))) by now rewrite E.
  eapply same_session_trans; [|apply same_session_setTimeout; discriminate].
  eapply same_session_trans; [|apply same_session_clear_if_set].
  apply same_session_set_lastTap.
Qed.

Lemma same_session_single_tap_action (seen : bool) (a : App) :
  same_session a (single_tap_action seen a).
Proof.
  unfold single_tap_action.
  eapply same_session_trans; [|apply same_session_set_singleTapTimerRef].
  destruct seen; [apply same_session_setShowControls|].
  destruct (setTimeout _ _ _) as [id b] eqn:E.
  eapply same_session_trans; [|apply same_session_set_controlsTimerRef].
  match type of E with setTimeout ?c ?d ?x = _ =>
    replace b with (snd (setTimeout c d x)) by now rewrite E end.
  eapply same_session_trans; [|apply same_session_setTimeout; discriminate].
  eapply same_session_trans; [|apply same_session_clear_if_set].
  apply same_session_setShowControls.
Qed.

Lemma same_session_handleTouchStart (x y : float) (a : App) :
  same_session a (handleTouchStart x y a).
Proof.
  unfold handleTouchStart.
  eapply same_session_trans; [apply same_session_set_touchStartRef|].
  apply same_session_set_initialBrightnessRef.
Qed.

Lemma same_session_handleTouchMove (x y w : float) (a : App) :
  same_session a (handleTouchMove x y w a).
Proof.
  unfold handleTouchMove.
  destruct (touchStartRef (refs a)) as [[sx sy]|]; [|apply same_session_refl].
  destruct (is_brightness_swipe _ _ _ _);
    [apply same_session_setConfig | apply same_session_refl].
Qed.

Lemma same_session_handleTouchEnd (a : App) :
  same_session a (handleTouchEnd a).
Proof. apply same_session_set_touchStartRef. Qed.

Lemma session_invariant_same (a b : App) :
  same_session a b -> session_invariant a -> session_invariant b.
Proof.
  unfold same_session, session_invariant, index_in_range.
  intros (Hc & Hl & Hh & Hi & Hg & Hf & Ht) (Hr & Hd & Hfl).
  rewrite Hh, Hi, Hg, Hf. repeat split; try tauto.
  intros t Hin. destruct (is_delayed_load t) eqn:E; [|reflexivity].
  rewrite <- E. apply Hd. now apply Ht.
Qed.

Lemma session_invariant_loadNewImage (a : App) :
  session_invariant a -> session_invariant (loadNewImage (rendered_loadNewImage a) a).
Proof.
  unfold session_invariant, index_in_range, loadNewImage.
  open_app a. destruct gen; cbn; [tauto|].
  destruct fl as [|f [|g fl]]; finish.
Qed.

Lemma session_invariant_loadPreviousImage (a : App) :
  session_invariant a -> session_invariant (loadPreviousImage a).
Proof.
  unfold session_invariant, index_in_range, loadPreviousImage.
  open_app a.
  destruct (Z.geb_spec idx 0); cbn; [|tauto].
  destruct (Z.ltb_spec 0 (Z.of_nat (length hist))); cbn; [|tauto].
  destruct fl as [|f [|g fl]]; finish.
Qed.

Lemma session_invariant_handleInteraction (x w : float) (t : Z) (a : App) :
  session_invariant a -> session_invariant (handleInteraction x w t a).
Proof.
  intros Hinv. unfold handleInteraction.
  destruct (is_double_tap _ _ _).
  - eapply session_invariant_same; [apply same_session_set_lastTap|].
    set (b := match singleTapTimerRef (refs a) with Some id => _ | None => a end).
    assert (Hb : session_invariant b).
    { subst b. destruct (singleTapTimerRef (refs a)); [|assumption].
      eapply session_invariant_same; [|eassumption].
      eapply same_session_trans;
        [apply same_session_clearTimeout | apply same_session_set_singleTapTimerRef]. }
    destruct (side_of x w).
    + now apply session_invariant_loadPreviousImage.
    + now apply session_invariant_loadNewImage.
    + assumption.
  - eapply session_invariant_same; [apply same_session_single_tap | assumption].
Qed.

Lemma step_session_invariant (e : Event) (a a' : App) :
  session_event e = true -> session_invariant a -> step e a = Some a' ->
  session_invariant a'.
Proof.
  intros He Hinv Hstep.
  destruct e; try discriminate; cbn [step] in Hstep.
  - inversion Hstep; subst. now apply session_invariant_loadNewImage.
  - inversion Hstep; subst. now apply session_invariant_loadPreviousImage.
  - unfold session_invariant, index_in_range in *.
    open_app a. destruct fl as [|f [|g fl]]; [discriminate| |tauto].
    destruct (extract i [f]) as [[y rest]|] eqn:Ex; [|discriminate].
    apply extract_one in Ex. destruct Ex as (-> & -> & ->).
    destruct f as [cl [|url]]; [|discriminate].
    inversion Hstep; subst; clear Hstep.
    unfold loadNewImage_resumed.
    destruct imageUrl as [[|c url]|]; finish.
  - unfold session_invariant, index_in_range in *.
    open_app a. destruct fl as [|f [|g fl]]; [discriminate| |tauto].
    destruct (extract i [f]) as [[y rest]|] eqn:Ex; [|discriminate].
    apply extract_one in Ex. destruct Ex as (-> & -> & ->).
    destruct f as [cl [|url]]; [discriminate|].
    inversion Hstep; subst; clear Hstep.
    unfold img_onload. cbn in *.
    destruct cur as [[|c p]|]; cbn; try solve [finish].
    rewrite length_app, slice_prefix_length by lia. cbn. finish.
  - unfold session_invariant, index_in_range in *.
    open_app a. destruct fl as [|f [|g fl]]; [discriminate| |tauto].
    destruct (extract i [f]) as [[y rest]|] eqn:Ex; [|discriminate].
    apply extract_one in Ex. destruct Ex as (-> & -> & ->).
    destruct f as [cl [|url]]; [discriminate|].
    inversion Hstep; subst; clear Hstep. finish.
  - inversion Hstep; subst. now apply session_invariant_handleInteraction.
  - destruct (extract_timer id (timers (loop a))) as [[t rest]|] eqn:Ex; [|discriminate].
    inversion Hstep; subst; clear Hstep.
    assert (Hin : In t (timers (loop a))) by (eapply extract_timer_hd; eassumption).
    assert (Hnd : is_delayed_load t = false) by (now apply Hinv).
    set (b := with_loop _ a).
    assert (Hb : session_invariant b).
    { eapply session_invariant_same; [|exact Hinv].
      subst b. unfold same_session. cbn. intuition.
      eapply extract_timer_In; eassumption. }
    unfold is_delayed_load in Hnd.
    destruct (timer_callback t); cbn [run_callback]; [| |discriminate].
    + eapply session_invariant_same; [apply same_session_single_tap_action|assumption].
    + eapply session_invariant_same; [apply same_session_setShowControls|assumption].
  - inversion Hstep; subst.
    eapply session_invariant_same; [apply same_session_handleTouchStart | assumption].
  - inversion Hstep; subst.
    eapply session_invariant_same; [apply same_session_handleTouchMove | assumption].
  - inversion Hstep; subst.
    eapply session_invariant_same; [apply same_session_handleTouchEnd | assumption].
Qed.

Lemma run_app (l1 l2 : list Event) (a : App) :
  run (l1 ++ l2) a
  = match run l1 a with Some b => run l2 b | None => None end.
Proof.
  revert a. induction l1 as [|e l1 IH]; intros a; cbn; [reflexivity|].
  destruct (step e a); [apply IH | reflexivity].
Qed.

Lemma run_session_invariant (events : list Event) (a a' : App) :
  forallb session_event events = true -> session_invariant a ->
  run events a = Some a' -> session_invariant a'.
Proof.
  revert a. induction events as [|e events IH]; cbn; intros a Hev Hinv Hrun.
  - inversion Hrun; subst. exact Hinv.
  - apply andb_prop in Hev. destruct Hev as [He Hev].
    destruct (step e a) as [b|] eqn:Hs; [|discriminate].
    eapply IH; [exact Hev | | exact Hrun].
    eapply step_session_invariant; eassumption.
Qed.

Lemma session_invariant_initial : session_invariant initial.
Proof.
  unfold session_invariant, index_in_range. cbn.
  repeat split; try lia.
Qed.

Lemma trace_of_session (ops : list Operation) :
  forallb session_event (trace_of ops) = true.
Proof.
  unfold trace_of.
  induction ops as [|op ops IH]; cbn [flat_map]; [reflexivity|].
  rewrite forallb_app, IH, andb_true_r.
  destruct op as [answer [|]|]; cbn; try destruct (JS.truthy answer); reflexivity.
Qed.

(** A load that succeeds, seen as one transition of an idle session. *)
Lemma run_load_succeeds (url : string) (a : App) :
  idle a -> JS.truthy (Some url) = true ->
  run (events_of (LoadSucceeds url)) a
  = Some (img_onload (rendered_loadNewImage a) url a).
Proof.
  intros [Hg Hf] Hu. open_app a. subst.
  destruct url as [|c url]; [discriminate|].
  destruct cur as [[|c' prev]|]; reflexivity.
Qed.

(** A load that fails, seen as one transition of an idle session. *)
Lemma run_load_fails (answer : option string) (decodes : bool) (a : App) :
  idle a -> JS.truthy answer && decodes = false ->
  run (events_of (Load answer decodes)) a = Some (setLoading false a).
Proof.
  intros [Hg Hf] Hu. open_app a. subst.
  destruct answer as [[|c url]|]; cbn in *; try reflexivity.
  destruct decodes; [discriminate | reflexivity].
Qed.

Lemma idle_img_onload cl url a : idle a -> idle (img_onload cl url a).
Proof.
  unfold idle, img_onload. open_app a.
  destruct cur as [[|c p]|]; cbn; tauto.
Qed.

Lemma idle_setLoading v a : idle a -> idle (setLoading v a).
Proof. unfold idle. open_app a. tauto. Qed.

Lemma idle_loadPreviousImage a : idle a -> idle (loadPreviousImage a).
Proof.
  unfold idle, loadPreviousImage. open_app a.
  destruct (idx >=? 0), (0 <? Z.of_nat (length hist)); cbn; tauto.
Qed.

(** From an idle session every operation runs to its end and leaves
    the session idle. *)
Lemma run_operation (op : Operation) (a : App) :
  idle a -> exists a', run (events_of op) a = Some a' /\ idle a'.
Proof.
  intros Hi. destruct op as [answer decodes|].
  - destruct (JS.truthy answer && decodes) eqn:E.
    + apply andb_prop in E. destruct E as [Ht ->].
      destruct answer as [url|]; [|discriminate].
      exists (img_onload (rendered_loadNewImage a) url a).
      split; [now apply run_load_succeeds | now apply idle_img_onload].
    + exists (setLoading false a).
      split; [now apply run_load_fails | now apply idle_setLoading].
  - exists (loadPreviousImage a). split; [reflexivity | now apply idle_loadPreviousImage].
Qed.

Lemma run_operations (ops : list Operation) (a : App) :
  idle a -> exists a', run (trace_of ops) a = Some a' /\ idle a'.
Proof.
  revert a. induction ops as [|op ops IH]; intros a Hi; cbn.
  - now exists a.
  - destruct (run_operation op a Hi) as (b & Hb & Hib).
    destruct (IH b Hib) as (c & Hc & Hic).
    exists c. rewrite run_app, Hb. auto.
Qed.

Lemma idle_initial : idle initial.
Proof. split; reflexivity. Qed.

(** Operations issued through the [loadNewImage] of the latest render
    (loads that succeed or fail, [loadPreviousImage]): from the initial
    state, and after each operation of the sequence (every prefix
    [firstn k ops]), the sequence runs to a state in which
    [-1 <= historyIndex <= history.length - 1]. *)
Theorem historyIndex_in_range (ops : list Operation) (k : nat) :
  exists a : App,
    run (trace_of (firstn k ops)) initial = Some a /\ index_in_range a.
Proof.
  destruct (run_operations (firstn k ops) initial idle_initial) as (a & Hrun & _).
  exists a. split; [exact Hrun|].
  apply (run_session_invariant (trace_of (firstn k ops)) initial a).
  - apply trace_of_session.
  - apply session_invariant_initial.
  - exact Hrun.
Qed.

(** The same range when the events interleave freely (a
    [loadPreviousImage] or a tap while a load is in flight, timers,
    touches), as long as no configuration update occurs. *)
Theorem historyIndex_in_range_interleaved (events : list Event) (a : App) :
  forallb session_event events = true ->
  run events initial = Some a ->
  index_in_range a.
Proof.
  intros Hev Hrun.
  apply (run_session_invariant events initial a Hev session_invariant_initial Hrun).
Qed.

Lemma historyIndex_in_range_interleaved_witness : index_in_range after_three_loads.
Proof.
  apply (historyIndex_in_range_interleaved
           (trace_of (map LoadSucceeds ["a"; "b"; "c"]%string))).
  - vm_compute. reflexivity.
  - vm_compute. reflexivity.
Defined.


(** C1. [historyIndex] does not stay within
    [-1, history.length - 1] under every sequence of [loadNewImage]
    calls.  [updateConfig] calls, through its timer, the [loadNewImage]
    of the render in which the update ran.  When a load that was in
    flight finishes before the timer fires, that instance cuts the
    history at the index it captured, while the index is advanced from
    its current value: after three successful loads the history is
    ["b"] and [historyIndex] is 1, one past the last position. *)
Theorem stale_closure_leaves_range :
  exists a : App,
    run stale_trace initial = Some a
    /\ imageHistory (state a) = ["b"%string]
    /\ historyIndex (state a) = 1
    /\ currentImage (state a) = Some "c"%string
    /\ ~ index_in_range a.
Proof.
  destruct (run stale_trace initial) as [a|] eqn:E; [|vm_compute in E; discriminate].
  exists a. split; [reflexivity|].
  vm_compute in E. inversion E; subst.
  repeat (split; [reflexivity|]).
  unfold index_in_range. cbn. lia.
Qed.

(** C3. Three successful [loadNewImage] calls from the initial state,
    with no [loadPreviousImage] among them, do not always leave
    [history.length = 2]: when the third call is the delayed one of
    [updateConfig] and the second load finished after the update, the
    instance that runs cuts the history at the index captured before
    the second load, and the image archived by the second load is
    dropped.  [history.length] is 1; [historyIndex] is 1 all the same. *)
Theorem stale_closure_shortens_history :
  exists a : App,
    run stale_trace initial = Some a
    /\ images_loaded stale_trace = 3%nat
    /\ ~ In CallLoadPreviousImage stale_trace
    /\ Z.of_nat (length (imageHistory (state a))) = 1
    /\ Z.of_nat (length (imageHistory (state a))) <> 3 - 1
    /\ historyIndex (state a) = 3 - 2.
Proof.
  destruct (run stale_trace initial) as [a|] eqn:E; [|vm_compute in E; discriminate].
  exists a. split; [reflexivity|].
  vm_compute in E. inversion E; subst.
  split; [reflexivity|]. split.
  - intros H. cbn in H. intuition discriminate.
  - cbn. repeat split. discriminate.
Qed.

Lemma guard_matches_frame (a b : App) :
  isGeneratingRef (refs b) = isGeneratingRef (refs a) ->
  inflight (loop b) = inflight (loop a) ->
  guard_matches a -> guard_matches b.
Proof. unfold guard_matches. intros -> ->. tauto. Qed.

Lemma guard_matches_same (a b : App) :
  same_session a b -> guard_matches a -> guard_matches b.
Proof.
  intros (_ & _ & _ & _ & Hg & Hf & _). now apply guard_matches_frame.
Qed.

Lemma loadNewImage_guarded (cl : LoadClosure) (a : App) :
  isGeneratingRef (refs a) = true -> loadNewImage cl a = a.
Proof. intros H. unfold loadNewImage. now rewrite H. Qed.

Lemma guard_matches_loadNewImage (cl : LoadClosure) (a : App) :
  guard_matches a -> guard_matches (loadNewImage cl a).
Proof.
  unfold guard_matches, loadNewImage. open_app a.
  destruct gen; cbn; [tauto|].
  destruct fl as [|f [|g fl]]; finish.
Qed.

Lemma guard_matches_loadPreviousImage (a : App) :
  guard_matches a -> guard_matches (loadPreviousImage a).
Proof.
  apply guard_matches_frame; unfold loadPreviousImage; open_app a;
    destruct (idx >=? 0), (0 <? Z.of_nat (length hist)); reflexivity.
Qed.

Lemma guard_matches_handleInteraction (x w : float) (t : Z) (a : App) :
  guard_matches a -> guard_matches (handleInteraction x w t a).
Proof.
  intros Hinv. unfold handleInteraction.
  destruct (is_double_tap _ _ _).
  - eapply guard_matches_same; [apply same_session_set_lastTap|].
    set (b := match singleTapTimerRef (refs a) with Some id => _ | None => a end).
    assert (Hb : guard_matches b).
    { subst b. destruct (singleTapTimerRef (refs a)); [|assumption].
      eapply guard_matches_same; [|eassumption].
      eapply same_session_trans;
        [apply same_session_clearTimeout | apply same_session_set_singleTapTimerRef]. }
    destruct (side_of x w).
    + now apply guard_matches_loadPreviousImage.
    + now apply guard_matches_loadNewImage.
    + assumption.
  - eapply guard_matches_same; [apply same_session_single_tap | assumption].
Qed.

Lemma guard_matches_updateConfig (p : PartialConfig) (a : App) :
  guard_matches a -> guard_matches (updateConfig p a).
Proof.
  apply guard_matches_frame; unfold updateConfig; open_app a;
    destruct (p_genre p) as [g|]; try destruct (negb (Genre_eqb g (genre cfg)));
    destruct ctr; reflexivity.
Qed.

Lemma step_guard_matches (e : Event) (a a' : App) :
  guard_matches a -> step e a = Some a' -> guard_matches a'.
Proof.
  intros Hinv Hstep.
  destruct e; cbn [step] in Hstep.
  - inversion Hstep; subst. now apply guard_matches_loadNewImage.
  - inversion Hstep; subst. now apply guard_matches_loadPreviousImage.
  - unfold guard_matches in *.
    open_app a. destruct fl as [|f [|g fl]]; [discriminate| |tauto].
    destruct (extract i [f]) as [[y rest]|] eqn:Ex; [|discriminate].
    apply extract_one in Ex. destruct Ex as (-> & -> & ->).
    destruct f as [cl [|url]]; [|discriminate].
    inversion Hstep; subst; clear Hstep.
    unfold loadNewImage_resumed.
    destruct imageUrl as [[|c url]|]; finish.
  - unfold guard_matches in *.
    open_app a. destruct fl as [|f [|g fl]]; [discriminate| |tauto].
    destruct (extract i [f]) as [[y rest]|] eqn:Ex; [|discriminate].
    apply extract_one in Ex. destruct Ex as (-> & -> & ->).
    destruct f as [cl [|url]]; [discriminate|].
    inversion Hstep; subst; clear Hstep.
    unfold img_onload. cbn in *.
    destruct cur as [[|c p]|]; reflexivity.
  - unfold guard_matches in *.
    open_app a. destruct fl as [|f [|g fl]]; [discriminate| |tauto].
    destruct (extract i [f]) as [[y rest]|] eqn:Ex; [|discriminate].
    apply extract_one in Ex. destruct Ex as (-> & -> & ->).
    destruct f as [cl [|url]]; [discriminate|].
    inversion Hstep; subst; clear Hstep. reflexivity.
  - inversion Hstep; subst. now apply guard_matches_handleInteraction.
  - destruct (extract_timer id (timers (loop a))) as [[t rest]|] eqn:Ex; [|discriminate].
    inversion Hstep; subst; clear Hstep.
    set (b := with_loop _ a).
    assert (Hb : guard_matches b) by (revert Hinv; now apply guard_matches_frame).
    destruct (timer_callback t); cbn [run_callback].
    + eapply guard_matches_same; [apply same_session_single_tap_action|assumption].
    + eapply guard_matches_same; [apply same_session_setShowControls|assumption].
    + now apply guard_matches_loadNewImage.
  - inversion Hstep; subst.
    eapply guard_matches_same; [apply same_session_handleTouchStart | assumption].
  - inversion Hstep; subst.
    eapply guard_matches_same; [apply same_session_handleTouchMove | assumption].
  - inversion Hstep; subst.
    eapply guard_matches_same; [apply same_session_handleTouchEnd | assumption].
  - inversion Hstep; subst. now apply guard_matches_updateConfig.
Qed.

Lemma run_guard_matches (events : list Event) (a a' : App) :
  guard_matches a -> run events a = Some a' -> guard_matches a'.
Proof.
  revert a. induction events as [|e events IH]; cbn; intros a Hinv Hrun.
  - inversion Hrun; subst. exact Hinv.
  - destruct (step e a) as [b|] eqn:Hs; [|discriminate].
    eapply IH; [|exact Hrun]. eapply step_guard_matches; eassumption.
Qed.

(** C5. In every reachable state at most one load is in flight, the
    flag [isGeneratingRef] is set exactly when one is, and while one is
    in flight a call of [loadNewImage] leaves the whole state unchanged
    (so no second request goes to the provider). *)
Theorem one_load_in_flight (events : list Event) (a : App) :
  run events initial = Some a ->
  (length (inflight (loop a)) <= 1)%nat
  /\ (isGeneratingRef (refs a) = true <-> inflight (loop a) <> [])
  /\ (inflight (loop a) <> [] -> forall cl, loadNewImage cl a = a).
Proof.
  intros Hrun.
  assert (Hg : guard_matches a).
  { eapply run_guard_matches; [|exact Hrun]. reflexivity. }
  unfold guard_matches in Hg.
  assert (Hiff : isGeneratingRef (refs a) = true <-> inflight (loop a) <> []).
  { destruct (inflight (loop a)) as [|f [|g fl]]; [| |contradiction].
    - rewrite Hg. split; [discriminate | congruence].
    - rewrite Hg. split; [discriminate | reflexivity]. }
  split; [|split].
  - destruct (inflight (loop a)) as [|f [|g fl]]; cbn; [lia | lia | contradiction].
  - exact Hiff.
  - intros Hne cl. apply loadNewImage_guarded. now apply Hiff.
Qed.

Lemma one_load_in_flight_witness :
  let a := loadNewImage (rendered_loadNewImage initial) initial in
  (length (inflight (loop a)) <= 1)%nat
  /\ (isGeneratingRef (refs a) = true <-> inflight (loop a) <> [])
  /\ (inflight (loop a) <> [] -> forall cl, loadNewImage cl a = a).
Proof.
  apply (one_load_in_flight [CallLoadNewImage]). reflexivity.
Defined.

(** C6. A call of [loadNewImage] that fails (the provider answers null
    or an empty string, or the image does not decode) ends with
    [loading] cleared and [isGeneratingRef] released, nothing in
    flight, and the current image, the history and [historyIndex] as
    they were before the call: only [loading] has changed. *)
Theorem failed_load_keeps_session (a : App) (answer : option string) (decodes : bool) :
  idle a ->
  JS.truthy answer && decodes = false ->
  exists a' : App,
    run (events_of (Load answer decodes)) a = Some a'
    /\ loading (state a') = false
    /\ isGeneratingRef (refs a') = false
    /\ inflight (loop a') = []
    /\ currentImage (state a') = currentImage (state a)
    /\ imageHistory (state a') = imageHistory (state a)
    /\ historyIndex (state a') = historyIndex (state a)
    /\ a' = setLoading false a.
Proof.
  intros Hi Hf. exists (setLoading false a).
  split; [now apply run_load_fails|].
  destruct Hi as [Hg Hfl]. open_app a. subst. repeat split.
Qed.

Lemma failed_load_keeps_session_witness :
  exists a' : App,
    run (events_of (Load None false)) initial = Some a'
    /\ loading (state a') = false
    /\ isGeneratingRef (refs a') = false
    /\ inflight (loop a') = []
    /\ currentImage (state a') = currentImage (state initial)
    /\ imageHistory (state a') = imageHistory (state initial)
    /\ historyIndex (state a') = historyIndex (state initial)
    /\ a' = setLoading false initial.
Proof.
  apply (failed_load_keeps_session initial None false).
  - split; reflexivity.
  - reflexivity.
Defined.

(** C4. In a state of the data model ([historyIndex >= -1]),
    [loadPreviousImage] leaves the whole state unchanged when the
    history is empty or [historyIndex] is -1; otherwise it sets the
    current image to [history[historyIndex]], decrements
    [historyIndex] and changes nothing else. *)
Theorem loadPreviousImage_behaviour (a : App) :
  -1 <= historyIndex (state a) ->
  ((imageHistory (state a) = [] \/ historyIndex (state a) = -1) ->
     loadPreviousImage a = a)
  /\ (~ (imageHistory (state a) = [] \/ historyIndex (state a) = -1) ->
      let a' := loadPreviousImage a in
      currentImage (state a')
        = JS.Array_get (imageHistory (state a)) (historyIndex (state a))
      /\ historyIndex (state a') = historyIndex (state a) - 1
      /\ imageHistory (state a') = imageHistory (state a)
      /\ loading (state a') = loading (state a)
      /\ showControls (state a') = showControls (state a)
      /\ config (state a') = config (state a)
      /\ refs a' = refs a
      /\ loop a' = loop a).
Proof.
  intros Hlow. unfold loadPreviousImage. open_app a. split.
  - intros [-> | ->]; cbn.
    + now rewrite andb_false_r.
    + reflexivity.
  - intros Hno.
    destruct (Z.geb_spec idx 0); [|exfalso; apply Hno; right; lia].
    destruct hist as [|h hist]; [exfalso; apply Hno; now left|].
    cbn. repeat split.
Qed.

Lemma loadPreviousImage_behaviour_witness :
  currentImage (state (loadPreviousImage after_three_loads)) = Some "b"%string
  /\ historyIndex (state (loadPreviousImage after_three_loads)) = 0.
Proof.
  destruct (loadPreviousImage_behaviour after_three_loads) as [_ H].
  - cbn. lia.
  - destruct H as (Hc & Hi & _).
    + intros [E | E]; discriminate.
    + split; [exact Hc | exact Hi].
Defined.


Lemma slice_whole {A : Type} (l : list A) :
  JS.Array_slice l 0 (Z.of_nat (length l) - 1 + 1) = l.
Proof.
  rewrite slice_prefix by lia.
  replace (Z.to_nat (Z.of_nat (length l) - 1 + 1)) with (length l) by lia.
  apply firstn_all.
Qed.

Lemma last_cons {A : Type} (l : list A) (x d : A) : last (x :: l) d = last l x.
Proof.
  revert x d. induction l as [|y l IH]; intros x d; [reflexivity|].
  change (last (x :: y :: l) d) with (last (y :: l) d).
  now rewrite !IH.
Qed.

(** Loading on from a session whose index is the last position. *)
Lemma run_loads_from (urls : list string) (a : App) (shown : string) :
  idle a -> truthy_url shown -> Forall truthy_url urls ->
  currentImage (state a) = Some shown ->
  historyIndex (state a) = Z.of_nat (length (imageHistory (state a))) - 1 ->
  exists a',
    run (trace_of (map LoadSucceeds urls)) a = Some a'
    /\ idle a'
    /\ imageHistory (state a') = imageHistory (state a) ++ removelast (shown :: urls)
    /\ historyIndex (state a') = historyIndex (state a) + Z.of_nat (length urls)
    /\ currentImage (state a') = Some (last urls shown).
Proof.
  revert a shown.
  induction urls as [|u urls IH]; intros a shown Hi Hs Hall Hc Hidx.
  - exists a. cbn. rewrite app_nil_r. repeat split; try apply Hi; try assumption; lia.
  - inversion Hall as [|? ? Hu Hall']; subst.
    set (b := img_onload (rendered_loadNewImage a) u a).
    assert (Hb : imageHistory (state b) = imageHistory (state a) ++ [shown]
                 /\ historyIndex (state b) = historyIndex (state a) + 1
                 /\ currentImage (state b) = Some u).
    { subst b. unfold img_onload, rendered_loadNewImage. rewrite Hc.
      destruct shown as [|c shown]; [discriminate|].
      destruct a as [[cfg cur ld sc hist idx] r l]. cbn in *. subst idx.
      now rewrite slice_whole. }
    destruct Hb as (Hbh & Hbi & Hbc).
    destruct (IH b u) as (a' & Hrun & Hi' & Hh' & Hx' & Hc'); try assumption.
    + now apply idle_img_onload.
    + rewrite Hbh, Hbi, length_app. cbn. lia.
    + exists a'. split; [|split; [exact Hi'|split; [|split]]].
      * change (trace_of (map LoadSucceeds (u :: urls)))
          with (events_of (LoadSucceeds u) ++ trace_of (map LoadSucceeds urls)).
        rewrite run_app, run_load_succeeds by assumption. exact Hrun.
      * rewrite Hh', Hbh, <- app_assoc. reflexivity.
      * rewrite Hx', Hbi. cbn [length]. lia.
      * rewrite Hc'. now rewrite last_cons.
Qed.

(** Loads issued one after the other through the [loadNewImage] of the
    latest render: after N >= 1 of them from the initial state,
    [history.length = N - 1] and [historyIndex = N - 2]; the history
    holds all addresses but the last, which is on display. *)
Theorem history_after_loads (urls : list string) :
  urls <> [] -> Forall truthy_url urls ->
  exists a : App,
    run (trace_of (map LoadSucceeds urls)) initial = Some a
    /\ Z.of_nat (length (imageHistory (state a))) = Z.of_nat (length urls) - 1
    /\ historyIndex (state a) = Z.of_nat (length urls) - 2
    /\ imageHistory (state a) = removelast urls
    /\ currentImage (state a) = Some (last urls ""%string).
Proof.
  intros Hne Hall. destruct urls as [|u urls]; [contradiction|].
  inversion Hall as [|? ? Hu Hall']; subst.
  set (b := img_onload (rendered_loadNewImage initial) u initial).
  destruct (run_loads_from urls b u) as (a & Hrun & _ & Hh & Hx & Hc);
    try assumption; try reflexivity.
  - apply idle_img_onload, idle_initial.
  - exists a.
    assert (Hrun' : run (trace_of (map LoadSucceeds (u :: urls))) initial = Some a).
    { change (trace_of (map LoadSucceeds (u :: urls)))
        with (events_of (LoadSucceeds u) ++ trace_of (map LoadSucceeds urls)).
      rewrite run_app, run_load_succeeds; [exact Hrun | apply idle_initial | exact Hu]. }
    assert (Hh' : imageHistory (state a) = removelast (u :: urls)) by exact Hh.
    split; [exact Hrun'|]. split; [|split; [|split]].
    + rewrite Hh'. clear. revert u. induction urls as [|v urls IH]; intros u; [reflexivity|].
      change (removelast (u :: v :: urls)) with (u :: removelast (v :: urls)).
      cbn [length]. rewrite Nat2Z.inj_succ, IH. cbn [length]. lia.
    + rewrite Hx. change (historyIndex (state b)) with (-1). cbn [length]. lia.
    + exact Hh'.
    + rewrite Hc. now rewrite last_cons.
Qed.

Lemma history_after_loads_witness :
  exists a : App,
    run (trace_of (map LoadSucceeds ["a"; "b"; "c"]%string)) initial = Some a
    /\ Z.of_nat (length (imageHistory (state a))) = 3 - 1
    /\ historyIndex (state a) = 3 - 2
    /\ imageHistory (state a) = ["a"; "b"]%string
    /\ currentImage (state a) = Some "c"%string.
Proof.
  apply (history_after_loads ["a"; "b"; "c"]%string).
  - discriminate.
  - repeat constructor.
Defined.

Lemma after_three_loads_reached :
  run (trace_of (map LoadSucceeds ["a"; "b"; "c"]%string)) initial
  = Some after_three_loads
  /\ currentImage (state after_three_loads) = Some "c"%string
  /\ imageHistory (state after_three_loads) = ["a"; "b"]%string
  /\ historyIndex (state after_three_loads) = 1
  /\ idle after_three_loads.
Proof. split; [vm_compute; reflexivity | repeat split]. Qed.

(** C2, as stated, fails: with "a", "b" in the history and "c" on
    display, going back and loading "d" leaves "a", "b" in the history
    and "d" on display; "c" is gone. *)
Lemma shown_image_lost : ~ shown_image_survives.
Proof.
  intros H.
  destruct (H after_three_loads "c"%string "d"%string) as (a' & Hrun & Hs).
  - split; reflexivity.
  - discriminate.
  - cbn. lia.
  - reflexivity.
  - reflexivity.
  - reflexivity.
  - vm_compute in Hrun. inversion Hrun; subst; clear Hrun. cbn in Hs.
    destruct Hs as [Hs | [Hs | [Hs | []]]]; discriminate.
Qed.

Lemma firstn_snoc_nth {A : Type} (l : list A) (n : nat) (x : A) :
  nth_error l n = Some x -> firstn n l ++ [x] = firstn (S n) l.
Proof.
  revert n. induction l as [|y l IH]; intros [|n] H; cbn in *; try discriminate.
  - now inversion H.
  - now rewrite IH.
Qed.

(** C2, amended.  From an idle state with [historyIndex] at a
    non-empty entry [restored] of the history, [loadPreviousImage]
    followed by a successful load of [url] displays [url], brings
    [historyIndex] back to its value, and keeps the first
    [historyIndex + 1] entries of the history, [restored] among them at
    position [historyIndex].  The image on display before is not
    archived: an image is present afterwards exactly when it is [url]
    or one of those entries. *)
Theorem back_then_load (a : App) (restored url : string) :
  idle a ->
  0 <= historyIndex (state a) ->
  JS.Array_get (imageHistory (state a)) (historyIndex (state a)) = Some restored ->
  truthy_url restored -> truthy_url url ->
  exists a' : App,
    run (CallLoadPreviousImage :: events_of (LoadSucceeds url)) a = Some a'
    /\ currentImage (state a') = Some url
    /\ historyIndex (state a') = historyIndex (state a)
    /\ imageHistory (state a')
       = firstn (Z.to_nat (historyIndex (state a) + 1)) (imageHistory (state a))
    /\ JS.Array_get (imageHistory (state a')) (historyIndex (state a')) = Some restored
    /\ forall shown : string,
         (currentImage (state a') = Some shown \/ In shown (imageHistory (state a')))
         <-> (shown = url
              \/ In shown (firstn (Z.to_nat (historyIndex (state a) + 1))
                                  (imageHistory (state a)))).
Proof.
  intros Hi Hidx Hget Hr Hu.
  set (b := loadPreviousImage a).
  assert (Hb : b = setHistoryIndex (fun i => i - 1) (setCurrentImage (Some restored) a)).
  { subst b. unfold loadPreviousImage. rewrite Hget.
    destruct (Z.geb_spec (historyIndex (state a)) 0); [|lia].
    destruct (imageHistory (state a)) as [|h hist] eqn:Eh.
    - unfold JS.Array_get in Hget. destruct (_ <? 0); [discriminate|].
      now destruct (Z.to_nat _).
    - reflexivity. }
  set (a' := img_onload (rendered_loadNewImage b) url b).
  assert (Hrun : run (CallLoadPreviousImage :: events_of (LoadSucceeds url)) a = Some a').
  { change (run (CallLoadPreviousImage :: events_of (LoadSucceeds url)) a)
      with (run (events_of (LoadSucceeds url)) b).
    apply run_load_succeeds; [|exact Hu]. now apply idle_loadPreviousImage. }
  assert (Hfields :
    currentImage (state a') = Some url
    /\ historyIndex (state a') = historyIndex (state a)
    /\ imageHistory (state a')
       = firstn (Z.to_nat (historyIndex (state a) + 1)) (imageHistory (state a))).
  { subst a'. rewrite Hb. unfold JS.Array_get in Hget.
    destruct (Z.ltb_spec (historyIndex (state a)) 0); [lia|].
    destruct restored as [|c restored]; [discriminate|].
    destruct a as [[cfg cur ld sc hist idx] r l]. cbn in *.
    split; [reflexivity|]. split; [lia|].
    replace (idx - 1 + 1) with idx by lia.
    rewrite slice_prefix by lia.
    replace (Z.to_nat (idx + 1)) with (S (Z.to_nat idx)) by lia.
    now apply firstn_snoc_nth. }
  destruct Hfields as (Hc & Hx & Hh).
  exists a'. split; [exact Hrun|]. split; [exact Hc|]. split; [exact Hx|].
  split; [exact Hh|]. split.
  - rewrite Hh, Hx. unfold JS.Array_get in *.
    destruct (Z.ltb_spec (historyIndex (state a)) 0); [lia|].
    rewrite nth_error_firstn.
    destruct (Nat.ltb_spec (Z.to_nat (historyIndex (state a)))
                (Z.to_nat (historyIndex (state a) + 1))); [exact Hget | lia].
  - intros shown. rewrite Hc, Hh. split.
    + intros [E | Hin]; [left; congruence | now right].
    + intros [-> | Hin]; [now left | now right].
Qed.

Lemma back_then_load_witness :
  exists a' : App,
    run (CallLoadPreviousImage :: events_of (LoadSucceeds "d")) after_three_loads
      = Some a'
    /\ currentImage (state a') = Some "d"%string
    /\ historyIndex (state a') = historyIndex (state after_three_loads)
    /\ imageHistory (state a')
       = firstn (Z.to_nat (historyIndex (state after_three_loads) + 1))
                (imageHistory (state after_three_loads))
    /\ JS.Array_get (imageHistory (state a')) (historyIndex (state a')) = Some "b"%string
    /\ forall shown : string,
         (currentImage (state a') = Some shown \/ In shown (imageHistory (state a')))
         <-> (shown = "d"%string
              \/ In shown (firstn (Z.to_nat (historyIndex (state after_three_loads) + 1))
                                  (imageHistory (state after_three_loads)))).
Proof.
  apply (back_then_load after_three_loads "b"%string "d"%string).
  - split; reflexivity.
  - cbn. lia.
  - reflexivity.
  - reflexivity.
  - reflexivity.
Defined.

(** C7, as stated, fails in the centre zone: two taps at x = 500 of
    1000, 100 ms apart, are not a double tap. *)
Lemma same_zone_center_fails : ~ same_zone_is_double_tap.
Proof.
  intros H.
  destruct (H initial 500%float 500%float 1000%float 1000 1100) as [Hd _].
  - reflexivity.
  - reflexivity.
  - lia.
  - vm_compute in Hd. discriminate.
Qed.

Lemma handleInteraction_single (x w : float) (t : Z) (a : App) :
  is_double_tap (side_of x w) t a = false ->
  handleInteraction x w t a
  = set_singleTapTimerRef (Some (nextTimerId (loop a)))
      (snd (setTimeout (SingleTapAction (showControls (state a))) 300
              (clear_if_set (singleTapTimerRef (refs a))
                 (set_lastTap t (Some (side_of x w)) a)))).
Proof.
  intros H. unfold handleInteraction. rewrite H.
  open_app a. destruct stt; reflexivity.
Qed.

Lemma handleInteraction_double (x w : float) (t : Z) (id : TimerId) (a : App) :
  is_double_tap (side_of x w) t a = true ->
  singleTapTimerRef (refs a) = Some id ->
  handleInteraction x w t a
  = set_lastTap 0 None
      (navigate (side_of x w) (set_singleTapTimerRef None (clearTimeout id a))).
Proof.
  intros H Hid. unfold handleInteraction. rewrite H, Hid. reflexivity.
Qed.

Lemma Side_eqb_eq (s s' : Side) : Side_eqb s s' = true <-> s = s'.
Proof. destruct s, s'; cbn; split; congruence. Qed.

(** After a first tap, the test on the second tap. *)
Lemma is_double_tap_after_single (x w : float) (t t' : Z) (side : Side) (a : App) :
  is_double_tap (side_of x w) t a = false ->
  is_double_tap side t' (handleInteraction x w t a)
  = (t' - t <? 300) && (t' - t >? 0) && Side_eqb (side_of x w) side
    && negb (Side_eqb side SideCenter).
Proof.
  intros H. rewrite handleInteraction_single by assumption.
  unfold is_double_tap. open_app a. destruct stt; reflexivity.
Qed.

Lemma timers_navigate (side : Side) (a : App) :
  timers (loop (navigate side a)) = timers (loop a)
  /\ showControls (state (navigate side a)) = showControls (state a)
  /\ singleTapTimerRef (refs (navigate side a)) = singleTapTimerRef (refs a).
Proof.
  destruct side; cbn [navigate].
  - unfold loadPreviousImage. open_app a.
    destruct (idx >=? 0), (0 <? Z.of_nat (length hist)); cbn; auto.
  - unfold loadNewImage. open_app a. destruct gen; cbn; auto.
  - auto.
Qed.

(** C7, amended.  Let a first tap (one that is not itself a double
    tap) be followed by a second tap more than 0 and less than 300 ms
    later.  The first tap schedules the single-tap timer and leaves the
    session alone.  If both taps are in the same zone and that zone is
    left or right, the second is a double tap: the timer of the first
    is cancelled, [loadNewImage] (right) or [loadPreviousImage] (left)
    is called, and the controls stay as they were.  If the zones differ
    or the zone is the centre, the second tap is not a double tap: no
    navigation takes place and a single-tap timer is pending. *)
Theorem double_tap_navigates (a : App) (x1 w1 x2 w2 : float) (t1 t2 : Z) :
  is_double_tap (side_of x1 w1) t1 a = false ->
  0 < t2 - t1 < 300 ->
  let a1 := handleInteraction x1 w1 t1 a in
  let a2 := handleInteraction x2 w2 t2 a1 in
  let id := nextTimerId (loop a) in
  (singleTapTimerRef (refs a1) = Some id /\ same_session a a1)
  /\ (side_of x2 w2 = side_of x1 w1 -> side_of x1 w1 <> SideCenter ->
      is_double_tap (side_of x2 w2) t2 a1 = true
      /\ a2 = set_lastTap 0 None
                (navigate (side_of x1 w1)
                   (set_singleTapTimerRef None (clearTimeout id a1)))
      /\ singleTapTimerRef (refs a2) = None
      /\ (forall t, In t (timers (loop a2)) -> timer_id t <> id)
      /\ showControls (state a2) = showControls (state a))
  /\ (side_of x2 w2 <> side_of x1 w1 \/ side_of x1 w1 = SideCenter ->
      is_double_tap (side_of x2 w2) t2 a1 = false
      /\ same_session a1 a2
      /\ exists id2 : TimerId,
           singleTapTimerRef (refs a2) = Some id2
           /\ In {| timer_id := id2; timer_delay := 300;
                    timer_callback := SingleTapAction (showControls (state a)) |}
                 (timers (loop a2))).
Proof.
  intros Hfirst Ht a1 a2 id.
  assert (Href : singleTapTimerRef (refs a1) = Some id).
  { subst a1 id. rewrite handleInteraction_single by assumption.
    open_app a. destruct stt; reflexivity. }
  assert (Hsame : same_session a a1).
  { subst a1. unfold handleInteraction. rewrite Hfirst. apply same_session_single_tap. }
  assert (Hsc : showControls (state a1) = showControls (state a)).
  { subst a1. rewrite handleInteraction_single by assumption.
    open_app a. destruct stt; reflexivity. }
  assert (Htest : forall side,
            is_double_tap side t2 a1
            = Side_eqb (side_of x1 w1) side && negb (Side_eqb side SideCenter)).
  { intros side. subst a1. rewrite is_double_tap_after_single by assumption.
    destruct (Z.ltb_spec (t2 - t1) 300); [|lia].
    destruct (Z.gtb_spec (t2 - t1) 0); [|lia]. reflexivity. }
  split; [split; assumption|]. split.
  - intros Hside Hnc.
    assert (Hd : is_double_tap (side_of x2 w2) t2 a1 = true).
    { rewrite Htest, Hside.
      replace (Side_eqb (side_of x1 w1) (side_of x1 w1)) with true
        by (symmetry; now apply Side_eqb_eq).
      destruct (side_of x1 w1); try reflexivity. now destruct Hnc. }
    assert (Ha2 : a2 = set_lastTap 0 None
                         (navigate (side_of x1 w1)
                            (set_singleTapTimerRef None (clearTimeout id a1)))).
    { subst a2. rewrite (handleInteraction_double x2 w2 t2 id) by assumption.
      now rewrite Hside. }
    split; [exact Hd|]. split; [exact Ha2|].
    set (b := set_singleTapTimerRef None (clearTimeout id a1)) in *.
    destruct (timers_navigate (side_of x1 w1) b) as (Htm & Hshow & Hst).
    rewrite Ha2. cbn [set_lastTap with_refs refs loop state singleTapTimerRef].
    split; [|split].
    + rewrite Hst. reflexivity.
    + intros t Hin. rewrite Htm in Hin. subst b. cbn in Hin.
      apply filter_In in Hin. destruct Hin as [_ Hneq].
      intros E. rewrite E, Pos.eqb_refl in Hneq. discriminate.
    + rewrite Hshow. subst b. cbn. exact Hsc.
  - intros Hdiff.
    assert (Hd : is_double_tap (side_of x2 w2) t2 a1 = false).
    { rewrite Htest. destruct Hdiff as [Hne | Hc].
      - destruct (Side_eqb (side_of x1 w1) (side_of x2 w2)) eqn:E; [|reflexivity].
        apply Side_eqb_eq in E. congruence.
      - rewrite Hc. destruct (side_of x2 w2); reflexivity. }
    split; [exact Hd|]. split.
    + subst a2. unfold handleInteraction. rewrite Hd. apply same_session_single_tap.
    + subst a2. rewrite handleInteraction_single by assumption.
      exists (nextTimerId (loop a1)). split.
      * destruct a1 as [s r [fl tm nid]]. reflexivity.
      * rewrite Hsc. destruct a1 as [s [ctr gen ltt lts stt ts ib] [fl tm nid]].
        cbn. destruct stt; cbn; apply in_or_app; right; now left.
Qed.

Lemma double_tap_navigates_witness :
  let a1 := handleInteraction 900 1000 1000 initial in
  let a2 := handleInteraction 900 1000 1100 a1 in
  is_double_tap (side_of 900 1000) 1100 a1 = true
  /\ singleTapTimerRef (refs a2) = None
  /\ inflight (loop a2)
     = [{| if_closure := rendered_loadNewImage initial; if_stage := AwaitingProvider |}].
Proof.
  destruct (double_tap_navigates initial 900 1000 900 1000 1000 1100) as (_ & H & _).
  - reflexivity.
  - lia.
  - destruct H as (Hd & Ha2 & Hnone & _).
    + reflexivity.
    + vm_compute. discriminate.
    + split; [exact Hd|]. split; [exact Hnone|]. rewrite Ha2. vm_compute. reflexivity.
Defined.

Lemma refs_touch_move (a : App) (m : Move) : refs (touch_move a m) = refs a.
Proof.
  unfold touch_move, handleTouchMove.
  destruct (touchStartRef (refs a)) as [[sx sy]|]; [|reflexivity].
  destruct (is_brightness_swipe _ _ _ _); reflexivity.
Qed.

Lemma refs_touch_moves (moves : list Move) (a : App) :
  refs (fold_left touch_move moves a) = refs a.
Proof.
  revert a. induction moves as [|m moves IH]; intros a; cbn; [reflexivity|].
  now rewrite IH, refs_touch_move.
Qed.

Lemma refs_touch_sequence (startX startY : float) (moves : list Move) (a : App) :
  touchStartRef (refs (touch_sequence startX startY moves a)) = Some (startX, startY)
  /\ initialBrightnessRef (refs (touch_sequence startX startY moves a))
     = brightness (config (state a)).
Proof.
  unfold touch_sequence. rewrite refs_touch_moves. split; reflexivity.
Qed.

(** One move, with the start of the touch known. *)
Lemma touch_move_started (a : App) (m : Move) (startX startY : float) :
  touchStartRef (refs a) = Some (startX, startY) ->
  touch_move a m
  = if is_brightness_swipe startX (move_width m)
         (move_x m - startX)%float (startY - move_y m)%float
    then setConfig
           (set_brightness
              (JS.Math_max 0.1
                 (JS.Math_min 2.0
                    (initialBrightnessRef (refs a)
                     + (startY - move_y m) / 300)%float))) a
    else a.
Proof. intros H. unfold touch_move, handleTouchMove. now rewrite H. Qed.


Lemma no_swipe_guard (startX startY : float) (m : Move) :
  no_swipe startX startY m ->
  is_brightness_swipe startX (move_width m)
    (move_x m - startX)%float (startY - move_y m)%float = false.
Proof.
  unfold is_brightness_swipe. intros [-> | ->]; [reflexivity|].
  now rewrite andb_false_r.
Qed.

Lemma touch_moves_no_swipe (startX startY : float) (moves : list Move) (a : App) :
  touchStartRef (refs a) = Some (startX, startY) ->
  (forall m, In m moves -> no_swipe startX startY m) ->
  fold_left touch_move moves a = a.
Proof.
  intros Hs. induction moves as [|m moves IH]; intros Hall; cbn; [reflexivity|].
  rewrite (touch_move_started a m startX startY Hs).
  rewrite no_swipe_guard by (apply Hall; now left).
  apply IH. intros m' Hin. apply Hall. now right.
Qed.

(** C8. For a touch that starts at [startX] and whose latest move [m]
    is on the right side ([startX > innerWidth * 0.6]), beyond the
    dead zone and more vertical than horizontal, the brightness is
    [max(0.1, min(2.0, initialBrightness + deltaY / 300))], where
    [initialBrightness] is the brightness at [touchstart]; from 1.0 and
    [deltaY = 150] this is 1.5.  A move that starts on the left or is
    not more vertical than horizontal changes nothing, and a sequence
    of such moves leaves the brightness as it was. *)
Theorem swipe_sets_brightness (a : App) (startX startY : float)
    (moves : list Move) (m : Move) :
  let a1 := touch_sequence startX startY moves a in
  let a2 := touch_sequence startX startY (moves ++ [m]) a in
  let deltaY := (startY - move_y m)%float in
  let deltaX := (move_x m - startX)%float in
  let swiped :=
    JS.Math_max 0.1 (JS.Math_min 2.0 (brightness (config (state a)) + deltaY / 300)%float) in
  (JS.gt startX (move_width m * 0.6)%float = true ->
   JS.gt (JS.Math_abs deltaY) 10%float = true ->
   JS.gt (JS.Math_abs deltaY) (JS.Math_abs deltaX) = true ->
   brightness (config (state a2)) = swiped
   /\ (brightness (config (state a)) = 1.0%float -> deltaY = 150%float ->
       brightness (config (state a2)) = 1.5%float))
  /\ (no_swipe startX startY m -> a2 = a1)
  /\ ((forall m', In m' (moves ++ [m]) -> no_swipe startX startY m') ->
      brightness (config (state a2)) = brightness (config (state a))).
Proof.
  intros a1 a2 deltaY deltaX swiped.
  assert (Ha2 : a2 = touch_move a1 m).
  { subst a1 a2. unfold touch_sequence. now rewrite fold_left_app. }
  destruct (refs_touch_sequence startX startY moves a) as [Hs Hb].
  fold a1 in Hs, Hb.
  split; [|split].
  - intros Hr Hd Hv.
    assert (E : brightness (config (state a2)) = swiped).
    { rewrite Ha2, (touch_move_started a1 m startX startY Hs).
      unfold is_brightness_swipe. fold deltaX deltaY. rewrite Hr, Hd, Hv, Hb.
      reflexivity. }
    split; [exact E|].
    intros H1 H150. rewrite E. subst swiped. rewrite H1, H150. reflexivity.
  - intros Hno. rewrite Ha2, (touch_move_started a1 m startX startY Hs).
    now rewrite no_swipe_guard.
  - intros Hall. subst a2. unfold touch_sequence.
    rewrite (touch_moves_no_swipe startX startY); [reflexivity|reflexivity|exact Hall].
Qed.

Lemma swipe_sets_brightness_witness :
  brightness (config (state
    (touch_sequence 800 500 [{| move_x := 800; move_y := 350; move_width := 1000 |}]
       initial))) = 1.5%float.
Proof.
  exact (proj2 (proj1 (swipe_sets_brightness initial 800 500 []
                         {| move_x := 800; move_y := 350; move_width := 1000 |})
                  eq_refl eq_refl eq_refl) eq_refl eq_refl).
Defined.

(** ** Further properties of the controller and the provider *)

Lemma spinner_same (a b : App) :
  same_session a b -> spinner_matches a -> spinner_matches b.
Proof.
  unfold spinner_matches. intros (_ & Hl & _ & _ & Hg & _) H. rewrite Hl, Hg. exact H.
Qed.

Lemma spinner_loadNewImage cl a : spinner_matches a -> spinner_matches (loadNewImage cl a).
Proof.
  unfold spinner_matches, loadNewImage. open_app a. destruct gen; cbn; auto.
Qed.

Lemma spinner_loadPreviousImage a : spinner_matches a -> spinner_matches (loadPreviousImage a).
Proof.
  unfold spinner_matches, loadPreviousImage. open_app a.
  destruct (idx >=? 0), (0 <? Z.of_nat (length hist)); cbn; auto.
Qed.

Lemma spinner_handleInteraction x w t a :
  spinner_matches a -> spinner_matches (handleInteraction x w t a).
Proof.
  intros Hinv. unfold handleInteraction.
  destruct (is_double_tap _ _ _).
  - eapply spinner_same; [apply same_session_set_lastTap|].
    set (b := match singleTapTimerRef (refs a) with Some id => _ | None => a end).
    assert (Hb : spinner_matches b).
    { subst b. destruct (singleTapTimerRef (refs a)); [|assumption].
      eapply spinner_same; [|eassumption].
      eapply same_session_trans;
        [apply same_session_clearTimeout | apply same_session_set_singleTapTimerRef]. }
    destruct (side_of x w).
    + now apply spinner_loadPreviousImage.
    + now apply spinner_loadNewImage.
    + assumption.
  - eapply spinner_same; [apply same_session_single_tap | assumption].
Qed.

Lemma spinner_updateConfig p a : spinner_matches a -> spinner_matches (updateConfig p a).
Proof.
  unfold spinner_matches, updateConfig. open_app a.
  destruct (p_genre p) as [g|]; try destruct (negb (Genre_eqb g (genre cfg)));
    destruct ctr; cbn; auto.
Qed.

Lemma step_spinner (e : Event) (a a' : App) :
  spinner_matches a -> step e a = Some a' -> spinner_matches a'.
Proof.
  intros Hinv Hstep.
  destruct e; cbn [step] in Hstep.
  - inversion Hstep; subst. now apply spinner_loadNewImage.
  - inversion Hstep; subst. now apply spinner_loadPreviousImage.
  - destruct (extract i (inflight (loop a))) as [[[cl [|url]] rest]|]; try discriminate.
    inversion Hstep; subst; clear Hstep.
    unfold spinner_matches, loadNewImage_resumed in *. open_app a.
    destruct imageUrl as [[|c url]|]; cbn; auto; discriminate.
  - destruct (extract i (inflight (loop a))) as [[[cl [|url]] rest]|]; try discriminate.
    inversion Hstep; subst; clear Hstep.
    unfold spinner_matches, img_onload in *. open_app a.
    destruct cur as [[|c p]|]; cbn; discriminate.
  - destruct (extract i (inflight (loop a))) as [[[cl [|url]] rest]|]; try discriminate.
    inversion Hstep; subst; clear Hstep.
    unfold spinner_matches. cbn. discriminate.
  - inversion Hstep; subst. now apply spinner_handleInteraction.
  - destruct (extract_timer id (timers (loop a))) as [[t rest]|] eqn:Ex; [|discriminate].
    inversion Hstep; subst; clear Hstep.
    set (b := with_loop _ a).
    assert (Hb : spinner_matches b) by exact Hinv.
    destruct (timer_callback t); cbn [run_callback].
    + eapply spinner_same; [apply same_session_single_tap_action|assumption].
    + eapply spinner_same; [apply same_session_setShowControls|assumption].
    + now apply spinner_loadNewImage.
  - inversion Hstep; subst.
    eapply spinner_same; [apply same_session_handleTouchStart | assumption].
  - inversion Hstep; subst.
    eapply spinner_same; [apply same_session_handleTouchMove | assumption].
  - inversion Hstep; subst.
    eapply spinner_same; [apply same_session_handleTouchEnd | assumption].
  - inversion Hstep; subst. now apply spinner_updateConfig.
Qed.

Lemma run_invariant (P : App -> Prop) :
  (forall e a a', P a -> step e a = Some a' -> P a') ->
  forall events a a', P a -> run events a = Some a' -> P a'.
Proof.
  intros Hstep. induction events as [|e events IH]; cbn; intros a a' Ha Hrun.
  - now inversion Hrun; subst.
  - destruct (step e a) as [b|] eqn:E; [|discriminate].
    eapply IH; [|exact Hrun]. eapply Hstep; eassumption.
Qed.

(** In every reachable state, while a load is in flight [loading] is
    set, so the frame shows the (dimmed) image or the placeholder,
    never an empty screen. *)
Theorem loading_while_in_flight (events : list Event) (a : App) :
  run events initial = Some a ->
  inflight (loop a) <> [] ->
  loading (state a) = true
  /\ shows_image (currentImage (state a))
     || shows_placeholder (loading (state a)) (currentImage (state a)) = true.
Proof.
  intros Hrun Hne.
  assert (Hs : spinner_matches a).
  { apply (run_invariant spinner_matches step_spinner events initial a); [|exact Hrun].
    unfold spinner_matches. cbn. discriminate. }
  assert (Hg : guard_matches a).
  { eapply run_guard_matches; [|exact Hrun]. reflexivity. }
  assert (Hl : loading (state a) = true).
  { apply Hs. unfold guard_matches in Hg.
    destruct (inflight (loop a)) as [|f [|g fl]]; [contradiction | exact Hg | contradiction]. }
  split; [exact Hl|].
  unfold shows_image, shows_placeholder. rewrite Hl.
  now destruct (JS.truthy (currentImage (state a))).
Qed.

Lemma loading_while_in_flight_witness :
  let a := loadNewImage (rendered_loadNewImage initial) initial in
  loading (state a) = true
  /\ shows_image (currentImage (state a))
     || shows_placeholder (loading (state a)) (currentImage (state a)) = true.
Proof.
  apply (loading_while_in_flight [CallLoadNewImage]).
  - reflexivity.
  - discriminate.
Defined.

Lemma Forall_firstn_keeps {A : Type} (P : A -> Prop) (n : nat) (l : list A) :
  Forall P l -> Forall P (firstn n l).
Proof.
  revert n. induction l as [|x l IH]; intros [|n] H; cbn; try constructor.
  - now inversion H.
  - apply IH. now inversion H.
Qed.

Lemma Forall_skipn_keeps {A : Type} (P : A -> Prop) (n : nat) (l : list A) :
  Forall P l -> Forall P (skipn n l).
Proof.
  revert n. induction l as [|x l IH]; intros [|n] H; cbn; try assumption.
  apply IH. now inversion H.
Qed.

Lemma Forall_slice {A : Type} (P : A -> Prop) (l : list A) (s e : Z) :
  Forall P l -> Forall P (JS.Array_slice l s e).
Proof.
  intros H. unfold JS.Array_slice.
  now apply Forall_firstn_keeps, Forall_skipn_keeps.
Qed.

Lemma addresses_same (a b : App) :
  same_session a b -> addresses_truthy a -> addresses_truthy b.
Proof.
  unfold addresses_truthy. intros (_ & _ & Hh & _ & _ & Hf & _). now rewrite Hh, Hf.
Qed.

Lemma addresses_loadNewImage cl a :
  addresses_truthy a -> addresses_truthy (loadNewImage cl a).
Proof.
  unfold addresses_truthy, loadNewImage. open_app a. destruct gen; cbn; [tauto|].
  intros [Hh Hf]. split; [exact Hh|].
  apply Forall_app. split; [exact Hf|]. repeat constructor.
Qed.

Lemma addresses_loadPreviousImage a :
  addresses_truthy a -> addresses_truthy (loadPreviousImage a).
Proof.
  unfold addresses_truthy, loadPreviousImage. open_app a.
  destruct (idx >=? 0), (0 <? Z.of_nat (length hist)); cbn; tauto.
Qed.

Lemma addresses_img_onload cl url a :
  addresses_truthy a -> addresses_truthy (img_onload cl url a).
Proof.
  unfold addresses_truthy, img_onload. open_app a.
  intros [Hh Hf].
  destruct cur as [[|c p]|]; cbn; split; try assumption.
  apply Forall_app. split; [now apply Forall_slice|]. repeat constructor.
Qed.

Lemma addresses_handleInteraction x w t a :
  addresses_truthy a -> addresses_truthy (handleInteraction x w t a).
Proof.
  intros Hinv. unfold handleInteraction.
  destruct (is_double_tap _ _ _).
  - eapply addresses_same; [apply same_session_set_lastTap|].
    set (b := match singleTapTimerRef (refs a) with Some id => _ | None => a end).
    assert (Hb : addresses_truthy b).
    { subst b. destruct (singleTapTimerRef (refs a)); [|assumption].
      eapply addresses_same; [|eassumption].
      eapply same_session_trans;
        [apply same_session_clearTimeout | apply same_session_set_singleTapTimerRef]. }
    destruct (side_of x w).
    + now apply addresses_loadPreviousImage.
    + now apply addresses_loadNewImage.
    + assumption.
  - eapply addresses_same; [apply same_session_single_tap | assumption].
Qed.

Lemma extract_Forall {A : Type} (P : A -> Prop) (i : nat) (l rest : list A) (x : A) :
  extract i l = Some (x, rest) -> Forall P l -> P x /\ Forall P rest.
Proof.
  revert i rest. induction l as [|y l IH]; intros i rest H HP; cbn in H; [discriminate|].
  inversion HP as [|? ? Hy Hl]; subst.
  destruct i as [|i].
  - inversion H; subst. auto.
  - destruct (extract i l) as [[z r]|] eqn:E; [|discriminate].
    inversion H; subst. destruct (IH i r E Hl). auto.
Qed.

Lemma addresses_updateConfig p a :
  addresses_truthy a -> addresses_truthy (updateConfig p a).
Proof.
  unfold addresses_truthy, updateConfig. open_app a.
  destruct (p_genre p) as [g|]; try destruct (negb (Genre_eqb g (genre cfg)));
    destruct ctr; cbn; auto.
Qed.

Lemma step_addresses (e : Event) (a a' : App) :
  addresses_truthy a -> step e a = Some a' -> addresses_truthy a'.
Proof.
  intros Hinv Hstep.
  destruct e; cbn [step] in Hstep.
  - inversion Hstep; subst. now apply addresses_loadNewImage.
  - inversion Hstep; subst. now apply addresses_loadPreviousImage.
  - destruct (extract i (inflight (loop a))) as [[[cl [|url]] rest]|] eqn:Ex;
      try discriminate.
    inversion Hstep; subst; clear Hstep.
    destruct Hinv as [Hh Hf].
    destruct (extract_Forall _ _ _ _ _ Ex Hf) as [_ Hrest].
    unfold addresses_truthy, loadNewImage_resumed. open_app a.
    destruct imageUrl as [[|c url]|]; cbn; split; try assumption.
    apply Forall_app. split; [assumption|]. repeat constructor.
  - destruct (extract i (inflight (loop a))) as [[[cl [|url]] rest]|] eqn:Ex;
      try discriminate.
    inversion Hstep; subst; clear Hstep.
    destruct Hinv as [Hh Hf].
    destruct (extract_Forall _ _ _ _ _ Ex Hf) as [_ Hrest].
    apply addresses_img_onload. split; [exact Hh | exact Hrest].
  - destruct (extract i (inflight (loop a))) as [[[cl [|url]] rest]|] eqn:Ex;
      try discriminate.
    inversion Hstep; subst; clear Hstep.
    destruct Hinv as [Hh Hf].
    destruct (extract_Forall _ _ _ _ _ Ex Hf) as [_ Hrest].
    split; [exact Hh | exact Hrest].
  - inversion Hstep; subst. now apply addresses_handleInteraction.
  - destruct (extract_timer id (timers (loop a))) as [[t rest]|] eqn:Ex; [|discriminate].
    inversion Hstep; subst; clear Hstep.
    set (b := with_loop _ a).
    assert (Hb : addresses_truthy b) by exact Hinv.
    destruct (timer_callback t); cbn [run_callback].
    + eapply addresses_same; [apply same_session_single_tap_action|assumption].
    + eapply addresses_same; [apply same_session_setShowControls|assumption].
    + now apply addresses_loadNewImage.
  - inversion Hstep; subst.
    eapply addresses_same; [apply same_session_handleTouchStart | assumption].
  - inversion Hstep; subst.
    eapply addresses_same; [apply same_session_handleTouchMove | assumption].
  - inversion Hstep; subst.
    eapply addresses_same; [apply same_session_handleTouchEnd | assumption].
  - inversion Hstep; subst. now apply addresses_updateConfig.
Qed.

Lemma addresses_initial : addresses_truthy initial.
Proof. split; constructor. Qed.

(** Whatever the events, the history never holds an empty address:
    only a truthy current image is archived. *)
Theorem history_entries_nonempty (events : list Event) (a : App) (entry : string) :
  run events initial = Some a ->
  In entry (imageHistory (state a)) ->
  entry <> ""%string.
Proof.
  intros Hrun Hin.
  assert (H : addresses_truthy a)
    by (apply (run_invariant _ step_addresses events initial a addresses_initial Hrun)).
  destruct H as [Hh _]. rewrite Forall_forall in Hh.
  specialize (Hh entry Hin). intros ->. discriminate.
Qed.

Lemma history_entries_nonempty_witness : "a"%string <> ""%string.
Proof.
  apply (history_entries_nonempty
           (trace_of (map LoadSucceeds ["a"; "b"; "c"]%string)) after_three_loads).
  - vm_compute. reflexivity.
  - left. reflexivity.
Defined.

Lemma displayed_same a b : same_session a b -> displayed a -> displayed b.
Proof. unfold displayed. intros (Hc & _). now rewrite Hc. Qed.

Lemma displayed_loadNewImage cl a : displayed a -> displayed (loadNewImage cl a).
Proof. unfold displayed, loadNewImage. open_app a. destruct gen; cbn; auto. Qed.

Lemma displayed_loadPreviousImage a :
  index_in_range a -> addresses_truthy a ->
  displayed a -> displayed (loadPreviousImage a).
Proof.
  unfold displayed, index_in_range, addresses_truthy, loadPreviousImage. open_app a.
  intros Hr [Hh _] Hd.
  destruct (Z.geb_spec idx 0); [|exact Hd].
  destruct (Z.ltb_spec 0 (Z.of_nat (length hist))); [|exact Hd].
  cbn. unfold JS.Array_get. destruct (Z.ltb_spec idx 0); [lia|].
  destruct (nth_error hist (Z.to_nat idx)) as [h|] eqn:E.
  - rewrite Forall_forall in Hh. apply Hh. eapply nth_error_In; eassumption.
  - apply nth_error_None in E. lia.
Qed.

Lemma displayed_handleInteraction x w t a :
  index_in_range a -> addresses_truthy a ->
  displayed a -> displayed (handleInteraction x w t a).
Proof.
  intros Hr Ha Hinv. unfold handleInteraction.
  destruct (is_double_tap _ _ _).
  - eapply displayed_same; [apply same_session_set_lastTap|].
    set (b := match singleTapTimerRef (refs a) with Some id => _ | None => a end).
    assert (Hab : same_session a b).
    { subst b. destruct (singleTapTimerRef (refs a)); [|apply same_session_refl].
      eapply same_session_trans;
        [apply same_session_clearTimeout | apply same_session_set_singleTapTimerRef]. }
    assert (Hb : displayed b) by (eapply displayed_same; eassumption).
    destruct (side_of x w).
    + apply displayed_loadPreviousImage; try assumption.
      * unfold index_in_range in *. destruct Hab as (_ & _ & Hh & Hi & _).
        now rewrite Hh, Hi.
      * eapply addresses_same; eassumption.
    + now apply displayed_loadNewImage.
    + assumption.
  - eapply displayed_same; [apply same_session_single_tap | assumption].
Qed.

Lemma step_displayed (e : Event) (a a' : App) :
  session_event e = true ->
  session_invariant a -> addresses_truthy a ->
  step e a = Some a' -> displayed a -> displayed a'.
Proof.
  intros He Hs Ha Hstep Hd.
  assert (Hr : index_in_range a) by apply Hs.
  destruct e; try discriminate; cbn [step] in Hstep.
  - inversion Hstep; subst. now apply displayed_loadNewImage.
  - inversion Hstep; subst. now apply displayed_loadPreviousImage.
  - destruct (extract i (inflight (loop a))) as [[[cl [|url]] rest]|] eqn:Ex;
      try discriminate.
    inversion Hstep; subst; clear Hstep.
    unfold displayed, loadNewImage_resumed in *. open_app a.
    destruct imageUrl as [[|c url]|]; cbn; auto.
  - destruct (extract i (inflight (loop a))) as [[[cl [|url]] rest]|] eqn:Ex;
      try discriminate.
    inversion Hstep; subst; clear Hstep.
    destruct Ha as [_ Hf].
    destruct (extract_Forall _ _ _ _ _ Ex Hf) as [Hu _].
    unfold decoding_truthy in Hu. cbn in Hu.
    unfold displayed, img_onload. open_app a.
    destruct cur as [[|c p]|]; cbn; exact Hu.
  - destruct (extract i (inflight (loop a))) as [[[cl [|url]] rest]|] eqn:Ex;
      try discriminate.
    inversion Hstep; subst; clear Hstep. exact Hd.
  - inversion Hstep; subst. now apply displayed_handleInteraction.
  - destruct (extract_timer id (timers (loop a))) as [[t rest]|] eqn:Ex; [|discriminate].
    inversion Hstep; subst; clear Hstep.
    assert (Hin : In t (timers (loop a))) by (eapply extract_timer_hd; eassumption).
    assert (Hnd : is_delayed_load t = false) by (now apply Hs).
    set (b := with_loop _ a).
    assert (Hb : displayed b) by exact Hd.
    unfold is_delayed_load in Hnd.
    destruct (timer_callback t); cbn [run_callback]; [| |discriminate].
    + eapply displayed_same; [apply same_session_single_tap_action|assumption].
    + eapply displayed_same; [apply same_session_setShowControls|assumption].
  - inversion Hstep; subst.
    eapply displayed_same; [apply same_session_handleTouchStart | assumption].
  - inversion Hstep; subst.
    eapply displayed_same; [apply same_session_handleTouchMove | assumption].
  - inversion Hstep; subst.
    eapply displayed_same; [apply same_session_handleTouchEnd | assumption].
Qed.

(** Under session events, once an image is on display an image stays
    on display: [loadPreviousImage] finds a non-empty entry at
    [historyIndex], and failed loads keep the current image. *)
Theorem image_stays_displayed (before after : list Event) (a a' : App) :
  forallb session_event (before ++ after) = true ->
  run before initial = Some a ->
  run after a = Some a' ->
  shows_image (currentImage (state a)) = true ->
  shows_image (currentImage (state a')) = true
  /\ shows_placeholder (loading (state a')) (currentImage (state a')) = false.
Proof.
  intros Hev Hb Ha Hd.
  rewrite forallb_app in Hev. apply andb_prop in Hev. destruct Hev as [Hev1 Hev2].
  assert (Hs : session_invariant a)
    by (eapply run_session_invariant; [exact Hev1 | apply session_invariant_initial | exact Hb]).
  assert (Hadr : addresses_truthy a)
    by (apply (run_invariant _ step_addresses before initial a addresses_initial Hb)).
  assert (G : displayed a').
  { clear Hb Hev1. revert a Ha Hd Hs Hadr Hev2.
    induction after as [|e after IH]; cbn; intros a Ha Hd Hs Hadr Hev2.
    - now inversion Ha; subst.
    - apply andb_prop in Hev2. destruct Hev2 as [He Hev2].
      destruct (step e a) as [b|] eqn:E; [|discriminate].
      apply (IH b); try assumption.
      + eapply step_displayed; eassumption.
      + eapply step_session_invariant; eassumption.
      + eapply step_addresses; eassumption. }
  split; [exact G|].
  unfold shows_placeholder. unfold displayed, shows_image in G. rewrite G.
  apply andb_false_r.
Qed.

Lemma image_stays_displayed_witness :
  let a' := loadPreviousImage after_three_loads in
  shows_image (currentImage (state a')) = true
  /\ shows_placeholder (loading (state a')) (currentImage (state a')) = false.
Proof.
  apply (image_stays_displayed
           (trace_of (map LoadSucceeds ["a"; "b"; "c"]%string))
           [CallLoadPreviousImage] after_three_loads).
  - vm_compute. reflexivity.
  - vm_compute. reflexivity.
  - reflexivity.
  - reflexivity.
Defined.









(** A double tap uses up both taps: the tap that follows it is never a
    double tap, whatever its time and zone, and does not navigate. *)
Theorem tap_after_double_tap_is_single (a : App) (x w x' w' : float) (t t' : Z) :
  is_double_tap (side_of x w) t a = true ->
  let a1 := handleInteraction x w t a in
  is_double_tap (side_of x' w') t' a1 = false
  /\ same_session a1 (handleInteraction x' w' t' a1).
Proof.
  intros Hd a1.
  assert (Hside : lastTapSideRef (refs a1) = None).
  { subst a1. unfold handleInteraction. rewrite Hd. reflexivity. }
  assert (Hnot : is_double_tap (side_of x' w') t' a1 = false).
  { unfold is_double_tap. rewrite Hside. cbn. now rewrite andb_false_r. }
  split; [exact Hnot|].
  unfold handleInteraction at 1. rewrite Hnot. apply same_session_single_tap.
Qed.

Lemma tap_after_double_tap_is_single_witness :
  let a1 := handleInteraction 900 1000 1100 (handleInteraction 900 1000 1000 initial) in
  is_double_tap (side_of 900 1000) 1200 a1 = false
  /\ same_session a1 (handleInteraction 900 1000 1200 a1).
Proof.
  apply (tap_after_double_tap_is_single
           (handleInteraction 900 1000 1000 initial) 900 1000 900 1000 1100 1200).
  vm_compute. reflexivity.
Defined.

(** A tap in the centre zone, in another zone than the tap before, or
    not within the 300 ms window (0 excluded) leaves the image, the
    history and the loading guard alone. *)
Theorem only_double_taps_navigate (a : App) (x w : float) (t : Z) :
  side_of x w = SideCenter
  \/ lastTapSideRef (refs a) <> Some (side_of x w)
  \/ t - lastTapTimeRef (refs a) <= 0
  \/ 300 <= t - lastTapTimeRef (refs a) ->
  same_session a (handleInteraction x w t a).
Proof.
  intros H.
  assert (Hnot : is_double_tap (side_of x w) t a = false).
  { unfold is_double_tap. destruct H as [H | [H | [H | H]]].
    - rewrite H. cbn. apply andb_false_r.
    - assert (E : ref_is_side (lastTapSideRef (refs a)) (side_of x w) = false).
      { destruct (lastTapSideRef (refs a)) as [s|]; [|reflexivity]. cbn.
        destruct (Side_eqb s (side_of x w)) eqn:E; [|reflexivity].
        apply Side_eqb_eq in E. subst. now destruct H. }
      rewrite E. now rewrite andb_false_r.
    - destruct (Z.gtb_spec (t - lastTapTimeRef (refs a)) 0); [lia|].
      now rewrite andb_false_r.
    - destruct (Z.ltb_spec (t - lastTapTimeRef (refs a)) 300); [lia|]. reflexivity. }
  unfold handleInteraction. rewrite Hnot. apply same_session_single_tap.
Qed.

Lemma only_double_taps_navigate_witness :
  same_session initial (handleInteraction 500 1000 1000 initial).
Proof.
  apply (only_double_taps_navigate initial 500 1000 1000).
  left. reflexivity.
Defined.

Lemma Genre_eqb_neq (g h : Genre) : g <> h -> Genre_eqb g h = false.
Proof. destruct g, h; intros H; try reflexivity; now destruct H. Qed.

Lemma extract_timer_last (id : TimerId) (tm : list Timer) (t : Timer) :
  Forall (fun u => timer_id u <> id) tm -> timer_id t = id ->
  extract_timer id (tm ++ [t]) = Some (t, tm).
Proof.
  intros Hf Ht. induction tm as [|u tm IH]; cbn.
  - now rewrite Ht, Pos.eqb_refl.
  - inversion Hf as [|? ? Hu Hf']; subst.
    destruct (Pos.eqb_spec (timer_id u) (timer_id t)); [contradiction|].
    now rewrite IH.
Qed.

Lemma Forall_filter {A : Type} (P : A -> Prop) (f : A -> bool) (l : list A) :
  Forall P l -> Forall P (filter f l).
Proof.
  induction 1 as [|x l Hx Hl IH]; cbn; [constructor|].
  destruct (f x); [constructor|]; assumption.
Qed.

Lemma cleared_fresh (r : option TimerId) (tm : list Timer) (id : TimerId) :
  Forall (fun t => timer_id t <> id) tm ->
  Forall (fun t => timer_id t <> id) (cleared r tm).
Proof. destruct r; cbn; [apply Forall_filter | trivial]. Qed.

(** When the genre changes while a load is in flight and the load is
    still in flight 100 ms later, the reload that [updateConfig]
    scheduled does nothing: the genre is updated, but the request in
    flight stays the only one. *)
Theorem reload_after_genre_change_is_swallowed (a : App) (p : PartialConfig) (g : Genre) :
  isGeneratingRef (refs a) = true ->
  fresh_id a ->
  p_genre p = Some g -> g <> genre (config (state a)) ->
  exists a' : App,
    run [ConfigUpdate p; TimerFires (nextTimerId (loop a))] a = Some a'
    /\ genre (config (state a')) = g
    /\ inflight (loop a') = inflight (loop a)
    /\ same_session a a'.
Proof.
  intros Hg Hfresh Hp Hne. unfold fresh_id in Hfresh.
  destruct a as [[cfg cur ld sc hist idx] [ctr gen ltt lts stt ts ib] [fl tm nid]].
  cbn in *. subst gen.
  cbn [run step]. unfold updateConfig. cbn. rewrite Hp.
  rewrite (Genre_eqb_neq g (genre cfg) Hne). cbn.
  destruct ctr as [c|]; cbn.
  - rewrite extract_timer_last;
      [|apply (cleared_fresh (Some c)); assumption | reflexivity].
    eexists. split; [reflexivity|]. cbn. rewrite Hp. cbn.
    split; [reflexivity|]. split; [reflexivity|].
    unfold same_session. cbn. repeat split.
    intros t Hin _. apply filter_In in Hin. tauto.
  - rewrite extract_timer_last; [|assumption | reflexivity].
    eexists. split; [reflexivity|]. cbn. rewrite Hp. cbn.
    split; [reflexivity|]. split; [reflexivity|].
    unfold same_session. cbn. repeat split. tauto.
Qed.

Lemma reload_after_genre_change_is_swallowed_witness :
  let a := loadNewImage (rendered_loadNewImage initial) initial in
  exists a' : App,
    run [ConfigUpdate (genre_update Urban); TimerFires (nextTimerId (loop a))] a
      = Some a'
    /\ genre (config (state a')) = Urban
    /\ inflight (loop a') = inflight (loop a)
    /\ same_session a a'.
Proof.
  apply (reload_after_genre_change_is_swallowed
           (loadNewImage (rendered_loadNewImage initial) initial)
           (genre_update Urban) Urban).
  - reflexivity.
  - constructor.
  - reflexivity.
  - discriminate.
Defined.




Lemma no_white_append (s t : string) :
  no_white (s ++ t) = no_white s && no_white t.
Proof.
  induction s as [|c s IH]; cbn; [reflexivity|].
  now rewrite IH, andb_assoc.
Qed.

Lemma no_white_replaceRuns (inRun : bool) (s : string) :
  no_white (JS.replaceRuns inRun s) = true.
Proof.
  revert inRun. induction s as [|c s IH]; intros inRun; cbn; [reflexivity|].
  destruct (JS.isWhiteSpace c) eqn:E.
  - destruct inRun; cbn; rewrite ?IH; reflexivity.
  - cbn. now rewrite E, IH.
Qed.

Lemma replaceRuns_fixed (inRun : bool) (s : string) :
  no_white s = true -> JS.replaceRuns inRun s = s.
Proof.
  revert inRun. induction s as [|c s IH]; intros inRun H; cbn in *; [reflexivity|].
  apply andb_prop in H. destruct H as [Hc Hs].
  destruct (JS.isWhiteSpace c); [discriminate|]. now rewrite IH.
Qed.

Lemma no_white_uint (d : Decimal.uint) : no_white (NilEmpty.string_of_uint d) = true.
Proof. induction d; cbn; try rewrite IHd; reflexivity. Qed.

Lemma no_white_Number_toString (n : Z) : no_white (JS.Number_toString n) = true.
Proof.
  unfold JS.Number_toString. destruct (Z.to_int n) as [d|d]; cbn.
  - apply no_white_uint.
  - apply no_white_uint.
Qed.

Lemma no_white_Integral_toString (x : JS.Integral) :
  no_white (JS.Integral_toString x) = true.
Proof.
  destruct x as [n| |[|]]; cbn [JS.Integral_toString];
    [apply no_white_Number_toString | reflexivity | reflexivity | reflexivity].
Qed.

(** For a string genre the address returned holds no white space, and
    the slug replacement leaves a slug as it is. *)
Theorem address_has_no_white_space (name : string) (random : float) :
  exists url : string,
    generateArtImage (JS.Str name) random = JS.Normal (Some url)
    /\ no_white url = true
    /\ JS.replaceRuns false (JS.replaceRuns false name) = JS.replaceRuns false name.
Proof.
  eexists. split; [apply generateArtImage_string|]. split.
  - unfold stock_url. rewrite !no_white_append.
    rewrite no_white_replaceRuns, no_white_Integral_toString. reflexivity.
  - apply replaceRuns_fixed, no_white_replaceRuns.
Qed.

Lemma SFcompare_antisym (f1 f2 : SpecFloat.spec_float) :
  SpecFloat.SFcompare f2 f1 = option_map CompOpp (SpecFloat.SFcompare f1 f2).
Proof.
  destruct f1 as [s1|s1| |s1 m1 e1], f2 as [s2|s2| |s2 m2 e2]; cbn;
    try reflexivity; try (destruct s1; reflexivity); try (destruct s2; reflexivity);
    try (destruct s1, s2; reflexivity).
  destruct s1, s2; cbn; try reflexivity.
  - rewrite (Z.compare_antisym e1 e2).
    destruct (e1 ?= e2)%Z; cbn; try reflexivity.
    rewrite (Pos.compare_cont_antisym m1 m2 Eq). reflexivity.
  - rewrite (Z.compare_antisym e1 e2).
    destruct (e1 ?= e2)%Z; cbn; try reflexivity.
    rewrite (Pos.compare_cont_antisym m1 m2 Eq). reflexivity.
Qed.

Lemma not_nan_spec (x : float) :
  PrimFloat.is_nan x = false -> Prim2SF x <> SpecFloat.S754_nan.
Proof.
  unfold PrimFloat.is_nan. rewrite FloatAxioms.eqb_spec. intros H E.
  rewrite E in H. discriminate.
Qed.

Lemma SFcompare_total (f1 f2 : SpecFloat.spec_float) :
  f1 <> SpecFloat.S754_nan -> f2 <> SpecFloat.S754_nan ->
  exists c, SpecFloat.SFcompare f1 f2 = Some c.
Proof.
  intros H1 H2.
  destruct f1 as [s1|s1| |s1 m1 e1], f2 as [s2|s2| |s2 m2 e2];
    try contradiction; cbn; eexists; reflexivity.
Qed.

(** On Numbers that are not NaN, [<] and [<=] are total. *)
Lemma float_not_lt_le (x y : float) :
  PrimFloat.is_nan x = false -> PrimFloat.is_nan y = false ->
  PrimFloat.ltb x y = false -> PrimFloat.leb y x = true.
Proof.
  intros Hx Hy. rewrite FloatAxioms.ltb_spec, FloatAxioms.leb_spec.
  unfold SpecFloat.SFltb, SpecFloat.SFleb.
  destruct (SFcompare_total _ _ (not_nan_spec x Hx) (not_nan_spec y Hy)) as [c Hc].
  rewrite (SFcompare_antisym (Prim2SF x) (Prim2SF y)), Hc. destruct c; cbn; congruence.
Qed.

Lemma float_lt_le (x y : float) :
  PrimFloat.ltb x y = true -> PrimFloat.leb x y = true.
Proof.
  rewrite FloatAxioms.ltb_spec, FloatAxioms.leb_spec.
  unfold SpecFloat.SFltb, SpecFloat.SFleb.
  destruct (SpecFloat.SFcompare _ _) as [[| |]|]; congruence.
Qed.

(** The clamp of [handleTouchMove]. *)
Lemma clamp_range (x : float) :
  let r := JS.Math_max 0.1 (JS.Math_min 2.0 x) in
  (PrimFloat.is_nan x = true -> PrimFloat.is_nan r = true)
  /\ (PrimFloat.is_nan x = false -> in_brightness_range r).
Proof.
  cbv zeta. split.
  - intros Hx. unfold JS.Math_min. rewrite Hx.
    replace (PrimFloat.is_nan 2 || true) with true by (now rewrite orb_true_r).
    reflexivity.
  - intros Hx. unfold in_brightness_range, JS.Math_min.
    replace (PrimFloat.is_nan 2) with false by reflexivity. rewrite Hx. cbn [orb].
    replace (PrimFloat.get_sign 2) with false by reflexivity.
    assert (Hmax : forall m, PrimFloat.is_nan m = false -> PrimFloat.leb m 2 = true ->
              PrimFloat.leb 0.1 (JS.Math_max 0.1 m) = true
              /\ PrimFloat.leb (JS.Math_max 0.1 m) 2 = true).
    { intros m Hm Hle. unfold JS.Math_max.
      replace (PrimFloat.is_nan 0.1) with false by reflexivity. rewrite Hm. cbn [orb].
      replace (PrimFloat.get_sign 0.1) with false by reflexivity.
      destruct (PrimFloat.ltb 0.1 m) eqn:E1.
      - split; [now apply float_lt_le | exact Hle].
      - destruct (PrimFloat.ltb m 0.1); split; reflexivity. }
    destruct (PrimFloat.ltb 2 x) eqn:E2.
    + apply Hmax; reflexivity.
    + assert (Hle : PrimFloat.leb x 2 = true)
        by (apply float_not_lt_le; [reflexivity | exact Hx | exact E2]).
      destruct (PrimFloat.ltb x 2); apply Hmax; assumption.
Qed.

Lemma config_loadNewImage cl a : config (state (loadNewImage cl a)) = config (state a).
Proof. unfold loadNewImage. open_app a. now destruct gen. Qed.

Lemma config_loadPreviousImage a : config (state (loadPreviousImage a)) = config (state a).
Proof.
  unfold loadPreviousImage. open_app a.
  now destruct (idx >=? 0), (0 <? Z.of_nat (length hist)).
Qed.

Lemma config_clear_if_set r a : config (state (clear_if_set r a)) = config (state a).
Proof. now destruct r. Qed.

Lemma config_handleInteraction x w t a :
  config (state (handleInteraction x w t a)) = config (state a).
Proof.
  unfold handleInteraction.
  destruct (is_double_tap _ _ _).
  - cbn [set_lastTap with_refs state].
    set (b := match singleTapTimerRef (refs a) with Some id => _ | None => a end).
    assert (Hb : config (state b) = config (state a))
      by (subst b; now destruct (singleTapTimerRef (refs a))).
    destruct (side_of x w);
      now rewrite ?config_loadPreviousImage, ?config_loadNewImage.
  - open_app a. now destruct stt.
Qed.

Lemma config_single_tap_action seen a :
  config (state (single_tap_action seen a)) = config (state a).
Proof. unfold single_tap_action. open_app a. destruct seen; [|destruct ctr]; reflexivity. Qed.

Lemma step_brightness_ok (e : Event) (a a' : App) :
  from_controls e -> brightness_ok a -> step e a = Some a' -> brightness_ok a'.
Proof.
  intros He Hinv Hstep. unfold brightness_ok in *.
  destruct e; cbn [step] in Hstep.
  - inversion Hstep; subst. now rewrite config_loadNewImage.
  - inversion Hstep; subst. now rewrite config_loadPreviousImage.
  - destruct (extract i (inflight (loop a))) as [[[cl [|url]] rest]|]; try discriminate.
    inversion Hstep; subst; clear Hstep.
    unfold loadNewImage_resumed. open_app a.
    destruct imageUrl as [[|c url]|]; exact Hinv.
  - destruct (extract i (inflight (loop a))) as [[[cl [|url]] rest]|]; try discriminate.
    inversion Hstep; subst; clear Hstep.
    unfold img_onload. open_app a. destruct cur as [[|c p]|]; exact Hinv.
  - destruct (extract i (inflight (loop a))) as [[[cl [|url]] rest]|]; try discriminate.
    inversion Hstep; subst; clear Hstep. exact Hinv.
  - inversion Hstep; subst. now rewrite config_handleInteraction.
  - destruct (extract_timer id (timers (loop a))) as [[t rest]|]; [|discriminate].
    inversion Hstep; subst; clear Hstep.
    destruct (timer_callback t); cbn [run_callback].
    + now rewrite config_single_tap_action.
    + exact Hinv.
    + now rewrite config_loadNewImage.
  - inversion Hstep; subst. exact Hinv.
  - inversion Hstep; subst; clear Hstep. unfold handleTouchMove.
    destruct (touchStartRef (refs a)) as [[sx sy]|]; [|exact Hinv].
    destruct (is_brightness_swipe _ _ _ _); [|exact Hinv].
    cbn [setConfig with_state state config set_brightness brightness].
    match goal with |- context [JS.Math_min 2 ?v] =>
      destruct (clamp_range v) as [Hn Hr]; destruct (PrimFloat.is_nan v) end.
    + left. now apply Hn.
    + right. now apply Hr.
  - inversion Hstep; subst. exact Hinv.
  - inversion Hstep; subst; clear Hstep. cbn in He.
    unfold updateConfig. open_app a.
    destruct (p_genre newConfig) as [g|];
      try destruct (negb (Genre_eqb g (genre cfg))); destruct ctr; cbn;
      rewrite He; exact Hinv.
Qed.

(** Whatever the gestures and the updates from the control panel, the
    brightness is within [0.1, 2.0] (or NaN, when the arithmetic of a
    swipe yields NaN). *)
Theorem brightness_stays_in_range (events : list Event) (a : App) :
  Forall from_controls events ->
  run events initial = Some a ->
  let b := brightness (config (state a)) in
  PrimFloat.is_nan b = true
  \/ (PrimFloat.leb 0.1 b = true /\ PrimFloat.leb b 2.0 = true).
Proof.
  intros Hev Hrun.
  assert (G : forall evs s, Forall from_controls evs -> brightness_ok s ->
                run evs s = Some a -> brightness_ok a).
  { induction evs as [|e evs IH]; cbn; intros s Hf Hs Hr.
    - now inversion Hr; subst.
    - inversion Hf as [|? ? He Hf']; subst.
      destruct (step e s) as [s'|] eqn:E; [|discriminate].
      apply (IH s'); [assumption | | assumption].
      eapply step_brightness_ok; eassumption. }
  apply (G events initial Hev); [|exact Hrun].
  right. split; reflexivity.
Qed.

Lemma brightness_stays_in_range_witness :
  let b := brightness (config (state
             (handleTouchMove 800 350 1000 (handleTouchStart 800 500 initial)))) in
  PrimFloat.is_nan b = true
  \/ (PrimFloat.leb 0.1 b = true /\ PrimFloat.leb b 2.0 = true).
Proof.
  apply (brightness_stays_in_range [TouchStart 800 500; TouchMove 800 350 1000]).
  - repeat constructor.
  - reflexivity.
Defined.

Lemma distinct_ids_filter (keep : Timer -> bool) (tm : list Timer) :
  NoDup (map timer_id tm) -> NoDup (map timer_id (filter keep tm)).
Proof.
  intros Hdistinct.
  induction tm as [|t tm IH]; [constructor|].
  cbn in Hdistinct. inversion Hdistinct as [|? ? Hnew Hrest]; subst.
  cbn [filter]. destruct (keep t); [|now apply IH].
  cbn [map]. constructor; [|now apply IH].
  intros Hin. apply Hnew.
  apply in_map_iff in Hin. destruct Hin as (u & Hid & Hu).
  apply filter_In in Hu. apply in_map_iff. exists u. tauto.
Qed.

Lemma disciplined_filter stt ctr tm nid (p : Timer -> bool) :
  disciplined stt ctr tm nid -> disciplined stt ctr (filter p tm) nid.
Proof.
  intros (Hf & Hn & Hs & Hh). split; [now apply Forall_filter|].
  split; [now apply distinct_ids_filter|].
  split; intros t Hin; apply filter_In in Hin; destruct Hin; auto.
Qed.

Lemma disciplined_cleared stt ctr tm nid r :
  disciplined stt ctr tm nid -> disciplined stt ctr (cleared r tm) nid.
Proof. destruct r; cbn; [apply disciplined_filter | trivial]. Qed.

Lemma cleared_In r tm t : In t (cleared r tm) -> In t tm.
Proof. destruct r; cbn; [|trivial]. intros H. apply filter_In in H. tauto. Qed.

Lemma cleared_single stt ctr tm nid :
  disciplined stt ctr tm nid -> none_of is_single_tap (cleared stt tm).
Proof.
  intros (_ & _ & Hs & _) t Hin.
  destruct (is_single_tap t) eqn:E; [|reflexivity].
  pose proof (Hs t (cleared_In _ _ _ Hin) E) as Hstt. subst stt. cbn in Hin.
  apply filter_In in Hin. destruct Hin as [_ Hneq].
  now rewrite Pos.eqb_refl in Hneq.
Qed.

Lemma cleared_hide stt ctr tm nid :
  disciplined stt ctr tm nid -> none_of is_hide (cleared ctr tm).
Proof.
  intros (_ & _ & _ & Hh) t Hin.
  destruct (is_hide t) eqn:E; [|reflexivity].
  pose proof (Hh t (cleared_In _ _ _ Hin) E) as Hctr. subst ctr. cbn in Hin.
  apply filter_In in Hin. destruct Hin as [_ Hneq].
  now rewrite Pos.eqb_refl in Hneq.
Qed.

Lemma none_of_cleared kind r tm : none_of kind tm -> none_of kind (cleared r tm).
Proof. intros H t Hin. apply H. eapply cleared_In; eassumption. Qed.

Lemma disciplined_add stt ctr tm nid (d : Z) (cb : TimerCallback) stt' ctr' :
  disciplined stt ctr tm nid ->
  (match cb with
   | SingleTapAction _ => none_of is_single_tap tm /\ stt' = Some nid /\ ctr' = ctr
   | HideControls => none_of is_hide tm /\ ctr' = Some nid /\ stt' = stt
   | DelayedLoadNewImage _ => stt' = stt /\ ctr' = ctr
   end) ->
  disciplined stt' ctr'
    (tm ++ [{| timer_id := nid; timer_delay := d; timer_callback := cb |}])
    (Pos.succ nid).
Proof.
  intros (Hf & Hn & Hs & Hh) Hcb. split; [|split; [|split]].
  - apply Forall_app. split.
    + eapply Forall_impl; [|exact Hf]. cbn. intros t Ht. lia.
    + repeat constructor. cbn. lia.
  - rewrite map_app. cbn. apply NoDup_app; [exact Hn | repeat constructor; intros [] |].
    intros i Hi [<- | []]. apply in_map_iff in Hi. destruct Hi as (t & E & Ht).
    rewrite Forall_forall in Hf. specialize (Hf t Ht). lia.
  - intros t Hin Hk. apply in_app_or in Hin. destruct Hin as [Hin | [<- | []]].
    + destruct cb; [destruct Hcb as (Hno & _); rewrite (Hno t Hin) in Hk; discriminate| |].
      * destruct Hcb as (_ & _ & ->). auto.
      * destruct Hcb as (-> & _). auto.
    + destruct cb; try discriminate. destruct Hcb as (_ & -> & _). reflexivity.
  - intros t Hin Hk. apply in_app_or in Hin. destruct Hin as [Hin | [<- | []]].
    + destruct cb; [|destruct Hcb as (Hno & _); rewrite (Hno t Hin) in Hk; discriminate|].
      * destruct Hcb as (_ & _ & ->). auto.
      * destruct Hcb as (_ & ->). auto.
    + destruct cb; try discriminate. destruct Hcb as (_ & -> & _). reflexivity.
Qed.

Lemma disciplined_reset_single stt ctr tm nid stt' :
  disciplined stt ctr tm nid -> none_of is_single_tap tm ->
  disciplined stt' ctr tm nid.
Proof.
  intros (Hf & Hn & Hs & Hh) Hno. repeat split; try assumption.
  intros t Hin Hk. rewrite (Hno t Hin) in Hk. discriminate.
Qed.

Lemma extract_timer_id id tm t rest :
  extract_timer id tm = Some (t, rest) ->
  timer_id t = id
  /\ exists l1 l2, tm = l1 ++ t :: l2 /\ rest = l1 ++ l2.
Proof.
  revert rest. induction tm as [|u tm IH]; cbn; intros rest H; [discriminate|].
  destruct (Pos.eqb_spec (timer_id u) id).
  - inversion H; subst. split; [reflexivity|]. now exists [], rest.
  - destruct (extract_timer id tm) as [[v r]|]; [|discriminate].
    inversion H; subst. destruct (IH r eq_refl) as (Hid & l1 & l2 & -> & ->).
    split; [exact Hid|]. now exists (u :: l1), l2.
Qed.

Lemma disciplined_extract stt ctr tm nid id t rest :
  extract_timer id tm = Some (t, rest) ->
  disciplined stt ctr tm nid ->
  disciplined stt ctr rest nid
  /\ (is_single_tap t = true -> none_of is_single_tap rest)
  /\ (is_hide t = true -> none_of is_hide rest).
Proof.
  intros Hex (Hf & Hn & Hs & Hh).
  destruct (extract_timer_id _ _ _ _ Hex) as (Hid & l1 & l2 & -> & ->).
  assert (Hin : forall u, In u (l1 ++ l2) -> In u (l1 ++ t :: l2)).
  { intros u Hu. apply in_app_or in Hu. apply in_or_app. cbn. tauto. }
  assert (Hother : forall u, In u (l1 ++ l2) -> timer_id u <> timer_id t).
  { rewrite map_app in Hn. cbn in Hn. apply NoDup_remove_2 in Hn.
    intros u Hu E. apply Hn. rewrite <- E, <- map_app. now apply in_map. }
  split; [|split].
  - split; [|split; [|split]].
    + rewrite Forall_forall in *. auto.
    + rewrite map_app in *. cbn in Hn. now apply NoDup_remove_1 in Hn.
    + auto.
    + auto.
  - intros Ht u Hu. destruct (is_single_tap u) eqn:E; [|reflexivity].
    exfalso. apply (Hother u Hu).
    assert (E1 : stt = Some (timer_id u)) by auto.
    assert (E2 : stt = Some (timer_id t))
      by (apply Hs; [apply in_or_app; cbn; tauto | exact Ht]).
    congruence.
  - intros Ht u Hu. destruct (is_hide u) eqn:E; [|reflexivity].
    exfalso. apply (Hother u Hu).
    assert (E1 : ctr = Some (timer_id u)) by auto.
    assert (E2 : ctr = Some (timer_id t))
      by (apply Hh; [apply in_or_app; cbn; tauto | exact Ht]).
    congruence.
Qed.

Lemma timer_frame (a b : App) :
  singleTapTimerRef (refs b) = singleTapTimerRef (refs a) ->
  controlsTimerRef (refs b) = controlsTimerRef (refs a) ->
  loop b = loop a \/ (timers (loop b) = timers (loop a)
                      /\ nextTimerId (loop b) = nextTimerId (loop a)) ->
  timer_discipline a -> timer_discipline b.
Proof.
  unfold timer_discipline. intros -> -> [-> | [-> ->]]; trivial.
Qed.

Lemma timers_loadNewImage cl a :
  timer_discipline a -> timer_discipline (loadNewImage cl a).
Proof.
  apply timer_frame; unfold loadNewImage; open_app a; destruct gen; auto.
Qed.

Lemma timers_loadPreviousImage a :
  timer_discipline a -> timer_discipline (loadPreviousImage a).
Proof.
  apply timer_frame; unfold loadPreviousImage; open_app a;
    destruct (idx >=? 0), (0 <? Z.of_nat (length hist)); auto.
Qed.

Lemma timers_handleInteraction x w t a :
  timer_discipline a -> timer_discipline (handleInteraction x w t a).
Proof.
  intros Hd. destruct (is_double_tap (side_of x w) t a) eqn:E.
  - unfold handleInteraction. rewrite E.
    set (b := match singleTapTimerRef (refs a) with Some id => _ | None => a end).
    assert (Hb : timer_discipline b).
    { subst b. unfold timer_discipline in *.
      destruct a as [s [ctr gen ltt lts stt ts ib] [fl tm nid]]. cbn in *.
      destruct stt as [id|]; cbn; [|exact Hd].
      apply (disciplined_reset_single (Some id)).
      - now apply (disciplined_cleared _ _ _ _ (Some id)).
      - apply (cleared_single (Some id) ctr tm nid Hd). }
    assert (Hn : timer_discipline (navigate (side_of x w) b)).
    { destruct (side_of x w); cbn [navigate];
        [now apply timers_loadPreviousImage | now apply timers_loadNewImage | exact Hb]. }
    revert Hn. apply timer_frame; auto.
  - rewrite handleInteraction_single by assumption.
    unfold timer_discipline in *.
    destruct a as [s [ctr gen ltt lts stt ts ib] [fl tm nid]]. cbn in Hd.
    assert (Ht : timers (loop (clear_if_set stt
                  (set_lastTap t (Some (side_of x w))
                     {| state := s;
                        refs := {| controlsTimerRef := ctr; isGeneratingRef := gen;
                                   lastTapTimeRef := ltt; lastTapSideRef := lts;
                                   singleTapTimerRef := stt; touchStartRef := ts;
                                   initialBrightnessRef := ib |};
                        loop := {| inflight := fl; timers := tm; nextTimerId := nid |} |})))
                 = cleared stt tm) by (destruct stt; reflexivity).
    destruct stt as [id|]; cbn in *.
    + apply (disciplined_add (Some id) ctr); [now apply disciplined_filter|].
      split; [apply (cleared_single (Some id) ctr tm nid Hd) | auto].
    + apply (disciplined_add None ctr); [exact Hd|].
      split; [apply (cleared_single None ctr tm nid Hd) | auto].
Qed.

Lemma timers_single_tap_action seen a :
  timer_discipline a -> none_of is_single_tap (timers (loop a)) ->
  timer_discipline (single_tap_action seen a).
Proof.
  unfold timer_discipline, single_tap_action.
  destruct a as [s [ctr gen ltt lts stt ts ib] [fl tm nid]]. cbn.
  intros Hd Hno. destruct seen; cbn.
  - now apply (disciplined_reset_single stt).
  - apply (disciplined_reset_single stt _ _ _ None) in Hd; [|exact Hno].
    destruct ctr as [c|]; cbn.
    + apply (disciplined_add None (Some c)).
      * apply (disciplined_cleared _ _ _ _ (Some c)) in Hd. exact Hd.
      * split; [apply (cleared_hide None (Some c) tm nid Hd)|]. split; reflexivity.
    + apply (disciplined_add None None); [exact Hd|].
      split; [apply (cleared_hide None None tm nid Hd)|]. split; reflexivity.
Qed.

Lemma timers_updateConfig p a :
  timer_discipline a -> timer_discipline (updateConfig p a).
Proof.
  unfold timer_discipline, updateConfig.
  destruct a as [[cfg cur ld sc hist idx] [ctr gen ltt lts stt ts ib] [fl tm nid]]. cbn.
  intros Hd.
  assert (Hc : disciplined stt ctr (cleared ctr tm) nid) by now apply disciplined_cleared.
  destruct (p_genre p) as [g|]; [destruct (negb (Genre_eqb g (genre cfg)))|];
    destruct ctr as [c|]; cbn in *; try exact Hc.
  - apply (disciplined_add stt (Some c)); [exact Hc | split; reflexivity].
  - apply (disciplined_add stt None); [exact Hc | split; reflexivity].
Qed.

Lemma step_timer_discipline (e : Event) (a a' : App) :
  timer_discipline a -> step e a = Some a' -> timer_discipline a'.
Proof.
  intros Hd Hstep.
  destruct e; cbn [step] in Hstep.
  - inversion Hstep; subst. now apply timers_loadNewImage.
  - inversion Hstep; subst. now apply timers_loadPreviousImage.
  - destruct (extract i (inflight (loop a))) as [[[cl [|url]] rest]|]; try discriminate.
    inversion Hstep; subst; clear Hstep. revert Hd.
    apply timer_frame; unfold loadNewImage_resumed; open_app a;
      destruct imageUrl as [[|c url]|]; auto.
  - destruct (extract i (inflight (loop a))) as [[[cl [|url]] rest]|]; try discriminate.
    inversion Hstep; subst; clear Hstep. revert Hd.
    apply timer_frame; unfold img_onload; open_app a;
      destruct cur as [[|c p]|]; auto.
  - destruct (extract i (inflight (loop a))) as [[[cl [|url]] rest]|]; try discriminate.
    inversion Hstep; subst; clear Hstep. revert Hd.
    apply timer_frame; open_app a; auto.
  - inversion Hstep; subst. now apply timers_handleInteraction.
  - destruct (extract_timer id (timers (loop a))) as [[t rest]|] eqn:Ex; [|discriminate].
    inversion Hstep; subst; clear Hstep.
    destruct (disciplined_extract _ _ _ _ _ _ _ Ex Hd) as (Hrest & Hsingle & Hhide).
    set (b := with_loop _ a).
    assert (Hb : timer_discipline b) by exact Hrest.
    destruct (timer_callback t) eqn:Ecb; cbn [run_callback].
    + apply timers_single_tap_action; [exact Hb|].
      apply Hsingle. unfold is_single_tap. now rewrite Ecb.
    + revert Hb. apply timer_frame; auto.
    + now apply timers_loadNewImage.
  - inversion Hstep; subst. revert Hd. apply timer_frame; auto.
  - inversion Hstep; subst. revert Hd.
    apply timer_frame; unfold handleTouchMove;
      destruct (touchStartRef (refs a)) as [[sx sy]|]; auto;
      destruct (is_brightness_swipe _ _ _ _); auto.
  - inversion Hstep; subst. revert Hd. apply timer_frame; auto.
  - inversion Hstep; subst. now apply timers_updateConfig.
Qed.

Lemma at_most_one (kind : Timer -> bool) (tm : list Timer) (r : option TimerId) :
  NoDup (map timer_id tm) ->
  (forall t, In t tm -> kind t = true -> r = Some (timer_id t)) ->
  (length (filter kind tm) <= 1)%nat.
Proof.
  intros Hn Hk.
  destruct (filter kind tm) as [|t [|u rest]] eqn:E; cbn; try lia.
  exfalso.
  assert (Ht : In t (filter kind tm)) by (rewrite E; now left).
  assert (Hu : In u (filter kind tm)) by (rewrite E; right; now left).
  apply filter_In in Ht. apply filter_In in Hu.
  assert (Eid : timer_id t = timer_id u).
  { destruct Ht as [Ht1 Ht2]. destruct Hu as [Hu1 Hu2].
    pose proof (Hk t Ht1 Ht2). pose proof (Hk u Hu1 Hu2). congruence. }
  assert (Hn' : NoDup (map timer_id (filter kind tm))) by now apply distinct_ids_filter.
  rewrite E in Hn'. cbn in Hn'. inversion Hn' as [|? ? Hnin _]; subst.
  apply Hnin. left. now symmetry.
Qed.

(** In every reachable state at most one single-tap timer and at most
    one auto-hide timer are pending, timer identifiers are distinct,
    and a pending single-tap timer is the one [singleTapTimerRef]
    names. *)
Theorem pending_timers_are_single (events : list Event) (a : App) :
  run events initial = Some a ->
  (length (filter is_single_tap (timers (loop a))) <= 1)%nat
  /\ (length (filter is_hide (timers (loop a))) <= 1)%nat
  /\ NoDup (map timer_id (timers (loop a)))
  /\ (forall t, In t (timers (loop a)) -> is_single_tap t = true ->
                singleTapTimerRef (refs a) = Some (timer_id t)).
Proof.
  intros Hrun.
  assert (Hd : timer_discipline a).
  { apply (run_invariant _ step_timer_discipline events initial a); [|exact Hrun].
    repeat split; try constructor; intros t []. }
  destruct Hd as (Hf & Hn & Hs & Hh).
  split; [eapply at_most_one; eassumption|].
  split; [eapply at_most_one; eassumption|].
  split; assumption.
Qed.

Lemma pending_timers_are_single_witness :
  let a := handleInteraction 500 1000 1000 initial in
  (length (filter is_single_tap (timers (loop a))) <= 1)%nat
  /\ (length (filter is_hide (timers (loop a))) <= 1)%nat
  /\ NoDup (map timer_id (timers (loop a)))
  /\ (forall t, In t (timers (loop a)) -> is_single_tap t = true ->
                singleTapTimerRef (refs a) = Some (timer_id t)).
Proof.
  apply (pending_timers_are_single [Click 500 1000 1000]). reflexivity.
Defined.

(** ** The controls panel and the slideshow *)

Lemma run_timer_discipline (events : list Event) (a : App) :
  run events initial = Some a -> timer_discipline a.
Proof.
  intros Hrun.
  apply (run_invariant _ step_timer_discipline events initial a); [|exact Hrun].
  repeat split; try constructor; intros t [].
Qed.

Lemma disciplined_fresh stt ctr tm nid :
  disciplined stt ctr tm nid -> Forall (fun t => timer_id t <> nid) tm.
Proof.
  intros (Hf & _). eapply Forall_impl; [|exact Hf]. cbn. intros t Ht. lia.
Qed.

(** In a reachable state a double tap leaves no single-tap timer
    behind, so nothing is left to toggle the controls; the controls
    stay as they are. *)
Theorem double_tap_leaves_no_toggle (events : list Event) (a : App)
    (x w : float) (t : Z) :
  run events initial = Some a ->
  is_double_tap (side_of x w) t a = true ->
  let a' := handleInteraction x w t a in
  (forall u, In u (timers (loop a')) -> is_single_tap u = false)
  /\ singleTapTimerRef (refs a') = None
  /\ showControls (state a') = showControls (state a).
Proof.
  intros Hrun Hd a'.
  pose proof (run_timer_discipline events a Hrun) as Hdisc.
  assert (Ht : timers (loop a') = cleared (singleTapTimerRef (refs a)) (timers (loop a))
               /\ singleTapTimerRef (refs a') = None
               /\ showControls (state a') = showControls (state a)).
  { subst a'. unfold handleInteraction. rewrite Hd.
    unfold timer_discipline in Hdisc.
    destruct a as [[cfg cur ld sc hist idx] [ctr gen ltt lts stt ts ib] [fl tm nid]].
    cbn in Hdisc |- *.
    destruct stt as [id|]; destruct (side_of x w); cbn;
      unfold loadPreviousImage, loadNewImage; cbn;
      repeat match goal with
             | |- context [if ?c then _ else _] => destruct c; cbn
             end; auto. }
  destruct Ht as (Htm & Href & Hsc).
  split; [|split; assumption].
  rewrite Htm. exact (cleared_single _ _ _ _ Hdisc).
Qed.

Lemma double_tap_leaves_no_toggle_witness :
  let a' := handleInteraction 900 1000 1100 (handleInteraction 900 1000 1000 initial) in
  (forall u, In u (timers (loop a')) -> is_single_tap u = false)
  /\ singleTapTimerRef (refs a') = None
  /\ showControls (state a')
     = showControls (state (handleInteraction 900 1000 1000 initial)).
Proof.
  apply (double_tap_leaves_no_toggle [Click 900 1000 1000]).
  - reflexivity.
  - vm_compute. reflexivity.
Defined.

Lemma cleared_below (r : option TimerId) (tm : list Timer) (nid : TimerId) :
  Forall (fun t => (timer_id t < nid)%positive) tm ->
  Forall (fun t => (timer_id t < nid)%positive) (cleared r tm).
Proof. destruct r; cbn; [apply Forall_filter | trivial]. Qed.

Lemma below_fresh (tm : list Timer) (nid id : TimerId) :
  (nid <= id)%positive ->
  Forall (fun t => (timer_id t < nid)%positive) tm ->
  Forall (fun t => timer_id t <> id) tm.
Proof.
  intros Hle Hf. eapply Forall_impl; [|exact Hf]. cbn. intros t Ht. lia.
Qed.

Lemma click_single_state (x w : float) (t : Z) (a : App) :
  is_double_tap (side_of x w) t a = false ->
  handleInteraction x w t a
  = panel_of a (showControls (state a)) (controlsTimerRef (refs a))
      (Some (nextTimerId (loop a))) t (Some (side_of x w))
      (cleared (singleTapTimerRef (refs a)) (timers (loop a))
       ++ [timer (nextTimerId (loop a)) 300 (SingleTapAction (showControls (state a)))])
      (Pos.succ (nextTimerId (loop a))).
Proof.
  intros H. rewrite handleInteraction_single by assumption.
  destruct a as [[cfg cur ld sc hist idx] [ctr gen ltt lts stt ts ib] [fl tm nid]].
  destruct stt; reflexivity.
Qed.

Lemma fire_last_timer (a : App) (sc : bool) (ctr stt : option TimerId) (ltt : Z)
    (lts : option Side) (tm : list Timer) (nid id : TimerId) (d : Z)
    (cb : TimerCallback) :
  Forall (fun u => timer_id u <> id) tm ->
  step (TimerFires id) (panel_of a sc ctr stt ltt lts (tm ++ [timer id d cb]) nid)
  = Some (run_callback cb (panel_of a sc ctr stt ltt lts tm nid)).
Proof.
  intros Hf. cbn [step panel_of loop timers].
  rewrite extract_timer_last; [reflexivity | exact Hf | reflexivity].
Qed.

Lemma single_tap_action_state (a : App) (sc : bool) (ctr stt : option TimerId)
    (ltt : Z) (lts : option Side) (tm : list Timer) (nid : TimerId) :
  single_tap_action sc (panel_of a sc ctr stt ltt lts tm nid)
  = if sc
    then panel_of a false ctr None ltt lts tm nid
    else panel_of a true (Some nid) None ltt lts
           (cleared ctr tm ++ [timer nid 4000 HideControls]) (Pos.succ nid).
Proof. destruct sc; [reflexivity|]. destruct ctr; reflexivity. Qed.

Lemma same_session_panel_of (a : App) sc ctr stt ltt lts tm nid :
  (forall u, In u tm -> is_delayed_load u = true -> In u (timers (loop a))) ->
  same_session a (panel_of a sc ctr stt ltt lts tm nid).
Proof. intros H. unfold same_session. cbn. repeat split. exact H. Qed.

(** In a reachable state a single tap followed by its timer toggles
    the controls and touches nothing of the session.  When it shows
    them, the auto-hide timer (4000 ms) is armed, and when that timer
    fires the controls are hidden and no auto-hide timer is left. *)
Theorem single_tap_toggles_controls (events : list Event) (a : App)
    (x w : float) (t : Z) :
  run events initial = Some a ->
  is_double_tap (side_of x w) t a = false ->
  let id := nextTimerId (loop a) in
  exists a1 : App,
    run [Click x w t; TimerFires id] a = Some a1
    /\ showControls (state a1) = negb (showControls (state a))
    /\ singleTapTimerRef (refs a1) = None
    /\ same_session a a1
    /\ (showControls (state a) = false ->
        controlsTimerRef (refs a1) = Some (Pos.succ id)
        /\ exists a2 : App,
             step (TimerFires (Pos.succ id)) a1 = Some a2
             /\ showControls (state a2) = false
             /\ none_of is_hide (timers (loop a2))).
Proof.
  intros Hrun Hd id.
  pose proof (run_timer_discipline events a Hrun) as Hdisc.
  unfold timer_discipline in Hdisc. fold id in Hdisc.
  set (stt := singleTapTimerRef (refs a)) in *.
  set (ctr := controlsTimerRef (refs a)) in *.
  set (tm1 := cleared stt (timers (loop a))).
  assert (Hd1 : disciplined stt ctr tm1 id) by now apply disciplined_cleared.
  assert (Hb1 : Forall (fun u => (timer_id u < id)%positive) tm1) by apply Hd1.
  set (sc := showControls (state a)).
  set (lts := Some (side_of x w)).
  set (a1 := if sc
             then panel_of a false ctr None t lts tm1 (Pos.succ id)
             else panel_of a true (Some (Pos.succ id)) None t lts
                    (cleared ctr tm1 ++ [timer (Pos.succ id) 4000 HideControls])
                    (Pos.succ (Pos.succ id))).
  assert (Hrun1 : run [Click x w t; TimerFires id] a = Some a1).
  { cbn [run].
    change (step (Click x w t) a) with (Some (handleInteraction x w t a)).
    cbv iota beta. rewrite click_single_state by assumption.
    fold id stt ctr sc tm1 lts.
    rewrite fire_last_timer by (apply (below_fresh tm1 id id); [lia | exact Hb1]).
    cbn [run_callback]. now rewrite single_tap_action_state. }
  assert (Hsub : forall u, In u tm1 -> In u (timers (loop a)))
    by (intros u; apply cleared_In).
  exists a1. split; [exact Hrun1|].
  subst a1. destruct sc eqn:Esc.
  - split; [reflexivity|]. split; [reflexivity|]. split.
    + apply same_session_panel_of. auto.
    + discriminate.
  - split; [reflexivity|]. split; [reflexivity|]. split.
    + apply same_session_panel_of. intros u Hu Hk.
      apply in_app_or in Hu. destruct Hu as [Hu | [<- | []]]; [|discriminate].
      apply Hsub. eapply cleared_In; eassumption.
    + intros _. split; [reflexivity|].
      exists (panel_of a false (Some (Pos.succ id)) None t lts (cleared ctr tm1)
                (Pos.succ (Pos.succ id))).
      split; [|split; [reflexivity|]].
      * rewrite fire_last_timer; [reflexivity|].
        apply (below_fresh _ id); [lia|]. now apply cleared_below.
      * cbn [panel_of loop timers]. exact (cleared_hide _ _ _ _ Hd1).
Qed.

Lemma single_tap_toggles_controls_witness :
  let id := nextTimerId (loop initial) in
  exists a1 : App,
    run [Click 500 1000 1000; TimerFires id] initial = Some a1
    /\ showControls (state a1) = negb (showControls (state initial))
    /\ singleTapTimerRef (refs a1) = None
    /\ same_session initial a1
    /\ (showControls (state initial) = false ->
        controlsTimerRef (refs a1) = Some (Pos.succ id)
        /\ exists a2 : App,
             step (TimerFires (Pos.succ id)) a1 = Some a2
             /\ showControls (state a2) = false
             /\ none_of is_hide (timers (loop a2))).
Proof.
  apply (single_tap_toggles_controls [] initial 500 1000 1000).
  - reflexivity.
  - reflexivity.
Defined.



Lemma option_string_eqb_eq (x y : option string) :
  option_string_eqb x y = true -> x = y.
Proof.
  destruct x as [s|], y as [t|]; cbn; try discriminate; [|reflexivity].
  intros H. apply String.eqb_eq in H. now subst.
Qed.

Lemma Genre_eqb_eq (g h : Genre) : Genre_eqb g h = true -> g = h.
Proof. destruct g, h; cbn; congruence. Qed.

Lemma same_deps_fields (a b : App) :
  same_deps a b = true ->
  isSlideshow (config (state a)) = isSlideshow (config (state b))
  /\ interval (config (state a)) = interval (config (state b))
  /\ rendered_loadNewImage a = rendered_loadNewImage b
  /\ currentImage (state a) = currentImage (state b).
Proof.
  unfold same_deps. intros H.
  apply andb_prop in H. destruct H as [H H5].
  apply andb_prop in H. destruct H as [H H4].
  apply andb_prop in H. destruct H as [H H3].
  apply andb_prop in H. destruct H as [H1 H2].
  apply Bool.eqb_prop in H1. apply FloatAxioms.Leibniz.eqb_spec in H2.
  apply Genre_eqb_eq in H3. apply Z.eqb_eq in H4. apply option_string_eqb_eq in H5.
  unfold rendered_loadNewImage. rewrite H3, H4. auto.
Qed.

Lemma rendered_loadNewImage_call (cl : LoadClosure) (a : App) :
  rendered_loadNewImage (loadNewImage cl a) = rendered_loadNewImage a
  /\ config (state (loadNewImage cl a)) = config (state a).
Proof. unfold loadNewImage. destruct a as [s [? gen ? ? ? ? ?] l]. now destruct gen. Qed.

Lemma slideshow_timer_registered (a : App) (m : Mounted) :
  slideshow_timer_ok (set_app a m) -> registered m.
Proof.
  unfold slideshow_timer_ok, registered. cbn.
  destruct (intervals m) as [|i [|j rest]]; tauto.
Qed.

(** After the cleanup, the effect leaves exactly the interval it
    needs. *)
Lemma effect_after_cleanup (m : Mounted) :
  registered m -> slideshow_timer_ok (slideshow_effect (slideshow_cleanup m)).
Proof.
  intros Hok.
  assert (Hc : intervals (slideshow_cleanup m) = []).
  { unfold slideshow_cleanup, clear_slideshow_timer. unfold registered in Hok.
    destruct (intervals m) as [|i [|j rest]] eqn:E; [| |contradiction].
    - destruct (slideshowTimerRef m); cbn; now rewrite ?E.
    - rewrite Hok. cbn. rewrite E. cbn. now rewrite Pos.eqb_refl. }
  assert (Ha : app (slideshow_cleanup m) = app m)
    by (unfold slideshow_cleanup, clear_slideshow_timer; now destruct (slideshowTimerRef m)).
  set (m1 := slideshow_cleanup m) in *.
  unfold slideshow_effect. rewrite Ha.
  set (a := app m) in *.
  set (cl := rendered_loadNewImage a).
  set (m2 := if negb (JS.truthy (currentImage (state a))) && negb (isGeneratingRef (refs a))
             then set_app (loadNewImage cl a) m1 else m1).
  assert (H2 : intervals m2 = []
               /\ rendered_loadNewImage (app m2) = cl
               /\ config (state (app m2)) = config (state a)).
  { subst m2. destruct (_ && _); cbn.
    - split; [exact Hc|]. apply rendered_loadNewImage_call.
    - rewrite Ha. auto. }
  destruct H2 as (Hi2 & Hcl2 & Hcfg2).
  assert (H3 : intervals (clear_slideshow_timer m2) = []
               /\ app (clear_slideshow_timer m2) = app m2).
  { unfold clear_slideshow_timer. destruct (slideshowTimerRef m2); cbn; now rewrite ?Hi2. }
  destruct H3 as (Hi3 & Ha3).
  unfold slideshow_timer_ok.
  destruct (isSlideshow (config (state a))) eqn:Es.
  - cbn. rewrite Hi3, Ha3. cbn.
    repeat split.
    + rewrite Hcfg2. exact Es.
    + now rewrite Hcfg2.
    + unfold rendered_loadNewImage in *. cbn. exact (eq_sym Hcl2).
  - rewrite Hi3, Ha3, Hcfg2. exact Es.
Qed.

(** A render keeps the interval in step with the state, provided the
    event left the interval alone. *)
Lemma commit_ok (before : App) (m : Mounted) :
  slideshow_timer_ok (set_app before m) ->
  slideshow_timer_ok (commit before m).
Proof.
  intros Hok. unfold commit.
  destruct (same_deps before (app m)) eqn:E.
  - apply same_deps_fields in E. destruct E as (E1 & E2 & E3 & _).
    unfold slideshow_timer_ok in *. cbn in Hok.
    destruct (intervals m) as [|i [|j rest]]; [| |contradiction].
    + now rewrite <- E1.
    + rewrite <- E1, <- E2, <- E3. exact Hok.
  - apply effect_after_cleanup. eapply slideshow_timer_registered. exact Hok.
Qed.

Lemma mounted_step_timer_ok (e : MountedEvent) (m m' : Mounted) :
  slideshow_timer_ok m -> mounted_step e m = Some m' -> slideshow_timer_ok m'.
Proof.
  intros Hok Hstep. destruct e as [e | id]; cbn in Hstep.
  - destruct (step e (app m)) as [a'|]; [|discriminate].
    inversion Hstep; subst. apply commit_ok. destruct m; exact Hok.
  - destruct (find _ (intervals m)) as [i|]; [|discriminate].
    inversion Hstep; subst. apply commit_ok. destruct m; exact Hok.
Qed.

Lemma mount_timer_ok : slideshow_timer_ok mount.
Proof. apply (effect_after_cleanup {| app := initial; slideshowTimerRef := None; intervals := [] |}). exact I. Qed.

(** After mounting and any events, at most one slideshow interval is
    registered; none exactly when the slideshow is off; and the one
    registered is the one in [slideshowTimerRef], with period
    [interval * 1000] and the [loadNewImage] of the latest render. *)
Theorem one_slideshow_interval (events : list MountedEvent) (m : Mounted) :
  mounted_run events mount = Some m ->
  (length (intervals m) <= 1)%nat
  /\ (isSlideshow (config (state (app m))) = false <-> intervals m = [])
  /\ (forall i, In i (intervals m) ->
        slideshowTimerRef m = Some (interval_id i)
        /\ interval_period i = (interval (config (state (app m))) * 1000)%float
        /\ interval_closure i = rendered_loadNewImage (app m)).
Proof.
  intros Hrun.
  assert (Hok : slideshow_timer_ok m).
  { revert Hrun. generalize mount_timer_ok. generalize mount.
    induction events as [|e events IH]; cbn; intros s Hs Hr.
    - now inversion Hr; subst.
    - destruct (mounted_step e s) as [s'|] eqn:E; [|discriminate].
      apply (IH s'); [|exact Hr]. eapply mounted_step_timer_ok; eassumption. }
  unfold slideshow_timer_ok in Hok.
  destruct (intervals m) as [|i [|j rest]]; [| |contradiction].
  - split; [cbn; lia|]. split; [tauto|]. intros i [].
  - destruct Hok as (Hs & Hr & Hp & Hc).
    split; [cbn; lia|]. split.
    + rewrite Hs. split; discriminate.
    + intros k [<- | []]. auto.
Qed.

Lemma one_slideshow_interval_witness :
  let m := slideshow_started in
  (length (intervals m) <= 1)%nat
  /\ (isSlideshow (config (state (app m))) = false <-> intervals m = [])
  /\ (forall i, In i (intervals m) ->
        slideshowTimerRef m = Some (interval_id i)
        /\ interval_period i = (interval (config (state (app m))) * 1000)%float
        /\ interval_closure i = rendered_loadNewImage (app m)).
Proof.
  apply (one_slideshow_interval [AppEvent (ConfigUpdate slideshow_on)]).
  reflexivity.
Defined.

Lemma same_session_updateConfig (p : PartialConfig) (a : App) :
  p_genre p = None -> same_session a (updateConfig p a).
Proof.
  intros Hp. unfold updateConfig. rewrite Hp.
  eapply same_session_trans; [apply same_session_setConfig|].
  apply same_session_clear_if_set.
Qed.

Lemma same_session_next_id (a : App) (id : TimerId) :
  same_session a
    (with_loop (fun l => {| inflight := inflight l; timers := timers l;
                            nextTimerId := id |}) a).
Proof. unfold same_session. cbn. repeat split. auto. Qed.

Lemma app_clear_slideshow_timer (m : Mounted) : app (clear_slideshow_timer m) = app m.
Proof. unfold clear_slideshow_timer. now destruct (slideshowTimerRef m). Qed.

Lemma commit_session_invariant (before : App) (m : Mounted) :
  session_invariant (app m) -> session_invariant (app (commit before m)).
Proof.
  intros Hinv. unfold commit. destruct (same_deps before (app m)); [exact Hinv|].
  unfold slideshow_effect, slideshow_cleanup. rewrite app_clear_slideshow_timer.
  set (a := app m) in *.
  set (m2 := if negb (JS.truthy (currentImage (state a))) && negb (isGeneratingRef (refs a))
             then set_app (loadNewImage (rendered_loadNewImage a) a) (clear_slideshow_timer m)
             else clear_slideshow_timer m).
  assert (H2 : session_invariant (app m2)).
  { subst m2. destruct (_ && _); cbn.
    - now apply session_invariant_loadNewImage.
    - now rewrite app_clear_slideshow_timer. }
  destruct (isSlideshow (config (state a))).
  - cbn. rewrite app_clear_slideshow_timer.
    eapply session_invariant_same; [apply same_session_next_id | exact H2].
  - now rewrite app_clear_slideshow_timer.
Qed.

Lemma mounted_step_session (e : MountedEvent) (m m' : Mounted) :
  leaves_genre e ->
  session_invariant (app m) -> slideshow_timer_ok m ->
  mounted_step e m = Some m' ->
  session_invariant (app m').
Proof.
  intros He Hinv Hok Hstep. destruct e as [e | id]; cbn in Hstep.
  - destruct (step e (app m)) as [a'|] eqn:Es; [|discriminate].
    inversion Hstep; subst. apply commit_session_invariant. cbn.
    destruct (session_event e) eqn:Ese.
    + eapply step_session_invariant; eassumption.
    + destruct e; try discriminate. cbn in He, Es. inversion Es; subst.
      eapply session_invariant_same; [now apply same_session_updateConfig | exact Hinv].
  - destruct (find _ (intervals m)) as [i|] eqn:Ef; [|discriminate].
    inversion Hstep; subst. apply commit_session_invariant. cbn.
    apply find_some in Ef. destruct Ef as [Hin _].
    unfold slideshow_timer_ok in Hok.
    destruct (intervals m) as [|j [|k rest]]; [destruct Hin | | contradiction].
    destruct Hin as [<- | []]. destruct Hok as (_ & _ & _ & ->).
    now apply session_invariant_loadNewImage.
Qed.

(** With the slideshow effect and its ticks included, and
    configuration updates that name no genre, [historyIndex] stays
    within [-1, history.length - 1]: a tick always calls the
    [loadNewImage] of the latest render. *)
Theorem slideshow_keeps_range (events : list MountedEvent) (m : Mounted) :
  Forall leaves_genre events ->
  mounted_run events mount = Some m ->
  index_in_range (app m).
Proof.
  intros Hev Hrun.
  assert (G : forall evs s, Forall leaves_genre evs ->
                session_invariant (app s) -> slideshow_timer_ok s ->
                mounted_run evs s = Some m -> session_invariant (app m)).
  { induction evs as [|e evs IH]; cbn; intros s Hf Hs Ht Hr.
    - now inversion Hr; subst.
    - inversion Hf as [|? ? He Hf']; subst.
      destruct (mounted_step e s) as [s'|] eqn:E; [|discriminate].
      apply (IH s'); try assumption.
      + eapply mounted_step_session; eassumption.
      + eapply mounted_step_timer_ok; eassumption. }
  assert (Hm : session_invariant (app m)).
  { apply (G events mount Hev); [| apply mount_timer_ok | exact Hrun].
    change (app mount) with (loadNewImage (rendered_loadNewImage initial) initial).
    apply session_invariant_loadNewImage, session_invariant_initial. }
  exact (proj1 Hm).
Qed.

Lemma slideshow_keeps_range_witness : index_in_range (app slideshow_started).
Proof.
  apply (slideshow_keeps_range [AppEvent (ConfigUpdate slideshow_on)]).
  - repeat constructor.
  - reflexivity.
Defined.

Lemma same_deps_refl_fields (a b : App) :
  config (state b) = config (state a) ->
  historyIndex (state b) = historyIndex (state a) ->
  currentImage (state b) = currentImage (state a) ->
  same_deps a b = true.
Proof.
  intros H1 H2 H3. unfold same_deps. rewrite H1, H2, H3.
  rewrite Bool.eqb_reflx, Z.eqb_refl.
  replace (PrimFloat.Leibniz.eqb _ _) with true
    by (symmetry; now apply FloatAxioms.Leibniz.eqb_spec).
  replace (Genre_eqb _ _) with true by (now destruct (genre (config (state a)))).
  replace (option_string_eqb _ _) with true
    by (destruct (currentImage (state a)); cbn; [now rewrite String.eqb_refl | reflexivity]).
  reflexivity.
Qed.

(** A provider answer that is null or empty ends the load without a
    retry: no dependency of the effect has changed, so the effect does
    not run again.  Nothing is in flight, the flags are cleared, the
    intervals are untouched; without a current image the frame shows
    neither image nor placeholder. *)
Theorem failed_load_is_not_retried (m : Mounted) (cl : LoadClosure)
    (answer : option string) :
  inflight (loop (app m)) = [{| if_closure := cl; if_stage := AwaitingProvider |}] ->
  JS.truthy answer = false ->
  exists m' : Mounted,
    mounted_step (AppEvent (ProviderResolves 0 answer)) m = Some m'
    /\ inflight (loop (app m')) = []
    /\ isGeneratingRef (refs (app m')) = false
    /\ loading (state (app m')) = false
    /\ currentImage (state (app m')) = currentImage (state (app m))
    /\ intervals m' = intervals m
    /\ (JS.truthy (currentImage (state (app m))) = false ->
        shows_image (currentImage (state (app m'))) = false
        /\ shows_placeholder (loading (state (app m')))
                              (currentImage (state (app m'))) = false).
Proof.
  intros Hfl Ha.
  set (a' := load_failed (set_inflight (fun _ => []) (app m))).
  assert (Hstep : step (ProviderResolves 0 answer) (app m) = Some a').
  { cbn [step]. rewrite Hfl. cbn [extract]. unfold loadNewImage_resumed.
    destruct answer as [[|c u]|]; try reflexivity. discriminate. }
  assert (Hdeps : same_deps (app m) a' = true)
    by (apply same_deps_refl_fields; reflexivity).
  exists (set_app a' m). split.
  { cbn [mounted_step]. rewrite Hstep. unfold commit. cbn [set_app app].
    now rewrite Hdeps. }
  cbn [set_app app intervals].
  do 5 (split; [reflexivity|]).
  intros Hnone. unfold shows_image, shows_placeholder.
  change (currentImage (state a')) with (currentImage (state (app m))).
  rewrite Hnone. split; reflexivity.
Qed.

Lemma failed_load_is_not_retried_witness :
  exists m' : Mounted,
    mounted_step (AppEvent (ProviderResolves 0 None)) mount = Some m'
    /\ inflight (loop (app m')) = []
    /\ isGeneratingRef (refs (app m')) = false
    /\ loading (state (app m')) = false
    /\ currentImage (state (app m')) = currentImage (state (app mount))
    /\ intervals m' = intervals mount
    /\ (JS.truthy (currentImage (state (app mount))) = false ->
        shows_image (currentImage (state (app m'))) = false
        /\ shows_placeholder (loading (state (app m')))
                              (currentImage (state (app m'))) = false).
Proof.
  apply (failed_load_is_not_retried mount (rendered_loadNewImage initial) None).
  - reflexivity.
  - reflexivity.
Defined.

(** ** The interval across renders *)

Lemma next_id_loadNewImage cl a : next_id (loadNewImage cl a) = next_id a.
Proof. unfold loadNewImage, next_id. destruct a as [s [? gen ? ? ? ? ?] l]. now destruct gen. Qed.

Lemma next_id_loadPreviousImage a : next_id (loadPreviousImage a) = next_id a.
Proof. unfold loadPreviousImage, next_id. destruct a as [s r l]. cbn. now destruct (_ && _). Qed.

Lemma next_id_clear_if_set r a : next_id (clear_if_set r a) = next_id a.
Proof. destruct r; destruct a as [s rf l]; reflexivity. Qed.

Lemma next_id_with_state f a : next_id (with_state f a) = next_id a.
Proof. now destruct a. Qed.

Lemma next_id_with_refs f a : next_id (with_refs f a) = next_id a.
Proof. now destruct a. Qed.

Lemma next_id_set_lastTap t s a : next_id (set_lastTap t s a) = next_id a.
Proof. now destruct a. Qed.

Lemma next_id_set_singleTapTimerRef v a : next_id (set_singleTapTimerRef v a) = next_id a.
Proof. now destruct a. Qed.

Lemma next_id_set_controlsTimerRef v a : next_id (set_controlsTimerRef v a) = next_id a.
Proof. now destruct a. Qed.

Lemma next_id_setShowControls v a : next_id (setShowControls v a) = next_id a.
Proof. now destruct a. Qed.

Lemma next_id_clearTimeout id a : next_id (clearTimeout id a) = next_id a.
Proof. now destruct a. Qed.

Lemma next_id_setTimeout c d a :
  next_id (snd (setTimeout c d a)) = Pos.succ (next_id a).
Proof. now destruct a. Qed.

Lemma next_id_handleInteraction x w t a :
  (next_id a <= next_id (handleInteraction x w t a))%positive.
Proof.
  unfold handleInteraction.
  destruct (is_double_tap _ _ _).
  - rewrite next_id_set_lastTap.
    set (b := match singleTapTimerRef (refs a) with Some id => _ | None => a end).
    assert (Hb : next_id b = next_id a).
    { subst b. destruct (singleTapTimerRef (refs a)); [|reflexivity].
      now rewrite next_id_set_singleTapTimerRef, next_id_clearTimeout. }
    destruct (side_of x w);
      rewrite ?next_id_loadPreviousImage, ?next_id_loadNewImage, Hb; lia.
  - destruct (setTimeout _ _ _) as [id b] eqn:E.
    rewrite next_id_set_singleTapTimerRef.
    change b with (snd (id, b)). rewrite <- E, next_id_setTimeout.
    rewrite next_id_clear_if_set, next_id_set_lastTap. lia.
Qed.

Lemma next_id_single_tap_action seen a :
  (next_id a <= next_id (single_tap_action seen a))%positive.
Proof.
  unfold single_tap_action. rewrite next_id_set_singleTapTimerRef.
  destruct seen.
  - rewrite next_id_setShowControls. lia.
  - destruct (setTimeout _ _ _) as [id b] eqn:E.
    rewrite next_id_set_controlsTimerRef.
    change b with (snd (id, b)). rewrite <- E, next_id_setTimeout.
    rewrite next_id_clear_if_set, next_id_setShowControls. lia.
Qed.

Lemma next_id_updateConfig p a :
  (next_id a <= next_id (updateConfig p a))%positive.
Proof.
  unfold updateConfig.
  destruct (p_genre p) as [g|].
  - destruct (negb _).
    + rewrite next_id_setTimeout, next_id_clear_if_set.
      unfold setConfig. rewrite next_id_with_state. lia.
    + rewrite next_id_clear_if_set. unfold setConfig. rewrite next_id_with_state. lia.
  - rewrite next_id_clear_if_set. unfold setConfig. rewrite next_id_with_state. lia.
Qed.

Lemma next_id_set_inflight f a : next_id (set_inflight f a) = next_id a.
Proof. now destruct a as [s r []]. Qed.

Lemma next_id_load_failed a : next_id (load_failed a) = next_id a.
Proof. now destruct a. Qed.

Lemma next_id_img_onload cl url a : next_id (img_onload cl url a) = next_id a.
Proof.
  unfold img_onload. destruct a as [s r l]. cbn.
  destruct (currentImage s) as [prev|]; [|reflexivity].
  now destruct (JS.truthy (Some prev)).
Qed.

Lemma step_next_id (e : Event) (a a' : App) :
  step e a = Some a' -> (next_id a <= next_id a')%positive.
Proof.
  intros Hstep. destruct e; cbn [step] in Hstep.
  - injection Hstep as <-. rewrite next_id_loadNewImage. lia.
  - injection Hstep as <-. rewrite next_id_loadPreviousImage. lia.
  - destruct (extract i (inflight (loop a))) as [[[cl [|url]] rest]|]; try discriminate.
    injection Hstep as <-. unfold loadNewImage_resumed.
    destruct imageUrl as [u|].
    + destruct (JS.truthy (Some u));
        rewrite ?next_id_load_failed, ?next_id_set_inflight; lia.
    + rewrite next_id_load_failed, next_id_set_inflight. lia.
  - destruct (extract i (inflight (loop a))) as [[[cl [|url]] rest]|]; try discriminate.
    injection Hstep as <-. rewrite next_id_img_onload, next_id_set_inflight. lia.
  - destruct (extract i (inflight (loop a))) as [[[cl [|url]] rest]|]; try discriminate.
    injection Hstep as <-. unfold img_onerror.
    rewrite next_id_load_failed, next_id_set_inflight. lia.
  - injection Hstep as <-. apply next_id_handleInteraction.
  - destruct (extract_timer id (timers (loop a))) as [[t rest]|]; [|discriminate].
    injection Hstep as <-.
    set (b := with_loop _ a).
    assert (Hb : next_id b = next_id a) by (subst b; now destruct a as [s r []]).
    rewrite <- Hb. destruct (timer_callback t); cbn [run_callback].
    + apply next_id_single_tap_action.
    + rewrite next_id_setShowControls. lia.
    + rewrite next_id_loadNewImage. lia.
  - injection Hstep as <-. destruct a; cbn. unfold next_id. cbn. lia.
  - injection Hstep as <-. unfold handleTouchMove.
    destruct (touchStartRef (refs a)) as [[sx sy]|]; [|lia].
    destruct (is_brightness_swipe _ _ _ _); [|lia].
    unfold setConfig. rewrite next_id_with_state. lia.
  - injection Hstep as <-. destruct a; cbn. unfold next_id. cbn. lia.
  - injection Hstep as <-. apply next_id_updateConfig.
Qed.

Lemma cleanup_registered (m : Mounted) :
  registered m ->
  intervals (slideshow_cleanup m) = []
  /\ app (slideshow_cleanup m) = app m.
Proof.
  intros Hok. split.
  - unfold slideshow_cleanup, clear_slideshow_timer. unfold registered in Hok.
    destruct (intervals m) as [|i [|j rest]] eqn:E; [| |contradiction].
    + destruct (slideshowTimerRef m); cbn; now rewrite ?E.
    + rewrite Hok. cbn. rewrite E. cbn. now rewrite Pos.eqb_refl.
  - apply app_clear_slideshow_timer.
Qed.

Lemma effect_intervals (m : Mounted) :
  intervals m = [] ->
  match intervals (slideshow_effect m) with
  | [] => isSlideshow (config (state (app m))) = false
          /\ next_id (app (slideshow_effect m)) = next_id (app m)
  | [i] => isSlideshow (config (state (app m))) = true
           /\ interval_id i = next_id (app m)
           /\ next_id (app (slideshow_effect m)) = Pos.succ (next_id (app m))
  | _ => False
  end.
Proof.
  intros Hi. unfold slideshow_effect.
  set (a := app m).
  set (cl := rendered_loadNewImage a).
  set (m2 := if negb (JS.truthy (currentImage (state a))) && negb (isGeneratingRef (refs a))
             then set_app (loadNewImage cl a) m else m).
  assert (H2 : intervals m2 = [] /\ next_id (app m2) = next_id a).
  { subst m2. destruct (_ && _); cbn [set_app intervals app].
    - split; [exact Hi|]. apply next_id_loadNewImage.
    - auto. }
  destruct H2 as [Hi2 Hn2].
  assert (H3 : intervals (clear_slideshow_timer m2) = []
               /\ app (clear_slideshow_timer m2) = app m2).
  { unfold clear_slideshow_timer. destruct (slideshowTimerRef m2); cbn; now rewrite ?Hi2. }
  destruct H3 as (Hi3 & Ha3).
  destruct (isSlideshow (config (state a))) eqn:Es.
  - cbn. rewrite Hi3, Ha3. cbn. fold (next_id (app m2)). rewrite Hn2.
    repeat split.
  - rewrite Hi3, Ha3. auto.
Qed.

Lemma addresses_commit (before : App) (m : Mounted) :
  addresses_truthy (app m) -> addresses_truthy (app (commit before m)).
Proof.
  intros Hinv. unfold commit. destruct (same_deps before (app m)); [exact Hinv|].
  unfold slideshow_effect, slideshow_cleanup. rewrite app_clear_slideshow_timer.
  set (a := app m) in *.
  set (m2 := if negb (JS.truthy (currentImage (state a))) && negb (isGeneratingRef (refs a))
             then set_app (loadNewImage (rendered_loadNewImage a) a) (clear_slideshow_timer m)
             else clear_slideshow_timer m).
  assert (H2 : addresses_truthy (app m2)).
  { subst m2. destruct (_ && _); cbn.
    - now apply addresses_loadNewImage.
    - now rewrite app_clear_slideshow_timer. }
  destruct (isSlideshow (config (state a))).
  - cbn. rewrite app_clear_slideshow_timer.
    eapply addresses_same; [apply same_session_next_id | exact H2].
  - now rewrite app_clear_slideshow_timer.
Qed.

Lemma commit_below (before : App) (m : Mounted) :
  slideshow_timer_ok (set_app before m) ->
  Forall (fun i => (interval_id i < next_id before)%positive) (intervals m) ->
  (next_id before <= next_id (app m))%positive ->
  interval_ids_below (commit before m)
  /\ (same_deps before (app m) = false ->
      isSlideshow (config (state (app m))) = true ->
      exists i', intervals (commit before m) = [i']
        /\ Forall (fun i => (interval_id i < interval_id i')%positive) (intervals m)).
Proof.
  intros Hok Hbelow Hle. unfold commit.
  destruct (same_deps before (app m)) eqn:E.
  - split; [|discriminate]. unfold interval_ids_below.
    eapply Forall_impl; [|exact Hbelow]. cbn. intros i Hi. unfold next_id in *. lia.
  - assert (Hreg : registered m) by (eapply slideshow_timer_registered; exact Hok).
    destruct (cleanup_registered m Hreg) as [Hc Ha].
    pose proof (effect_intervals (slideshow_cleanup m) Hc) as He.
    rewrite Ha in He. unfold interval_ids_below.
    destruct (intervals (slideshow_effect (slideshow_cleanup m))) as [|i' [|j rest]];
      [| |contradiction].
    + split; [constructor|]. destruct He as [He _]. intros _ Hs. congruence.
    + destruct He as (Hs & Hid & Hn). split.
      * constructor; [|constructor]. fold (next_id (app (slideshow_effect (slideshow_cleanup m)))).
        rewrite Hn, Hid. lia.
      * intros _ _. exists i'. split; [reflexivity|].
        eapply Forall_impl; [|exact Hbelow]. cbn. intros i Hi. rewrite Hid. lia.
Qed.

Lemma mounted_step_invariant (e : MountedEvent) (m m' : Mounted) :
  mounted_invariant m -> mounted_step e m = Some m' -> mounted_invariant m'.
Proof.
  intros (Hok & Hb & Ha) Hstep. split; [|split].
  - eapply mounted_step_timer_ok; eassumption.
  - destruct e as [e|id]; cbn [mounted_step] in Hstep.
    + destruct (step e (app m)) as [a'|] eqn:Es; [|discriminate].
      injection Hstep as <-.
      apply commit_below; [destruct m; exact Hok | exact Hb |].
      now apply (step_next_id e).
    + destruct (find _ (intervals m)) as [i|]; [|discriminate].
      injection Hstep as <-.
      apply commit_below; [destruct m; exact Hok | exact Hb |].
      cbn [set_app app]. rewrite next_id_loadNewImage. lia.
  - destruct e as [e|id]; cbn [mounted_step] in Hstep.
    + destruct (step e (app m)) as [a'|] eqn:Es; [|discriminate].
      injection Hstep as <-. apply addresses_commit. cbn [set_app app].
      now apply (step_addresses e (app m)).
    + destruct (find _ (intervals m)) as [i|]; [|discriminate].
      injection Hstep as <-. apply addresses_commit. cbn [set_app app].
      now apply addresses_loadNewImage.
Qed.

Lemma mount_invariant : mounted_invariant mount.
Proof.
  split; [apply mount_timer_ok|]. split.
  - unfold interval_ids_below. vm_compute. constructor.
  - unfold addresses_truthy. vm_compute. split; repeat constructor.
Qed.

Lemma mounted_run_invariant (events : list MountedEvent) (m m' : Mounted) :
  mounted_invariant m -> mounted_run events m = Some m' -> mounted_invariant m'.
Proof.
  revert m. induction events as [|e events IH]; cbn; intros m Hi Hr.
  - now injection Hr as <-.
  - destruct (mounted_step e m) as [m1|] eqn:E; [|discriminate].
    apply (IH m1); [|exact Hr]. eapply mounted_step_invariant; eassumption.
Qed.

Lemma step_restarts (e : Event) (m m' : Mounted) (a' : App) :
  mounted_invariant m ->
  step e (app m) = Some a' ->
  same_deps (app m) a' = false ->
  isSlideshow (config (state a')) = true ->
  mounted_step (AppEvent e) m = Some m' ->
  restarted m m'.
Proof.
  intros (Hok & Hb & Ha) Es Hd Hs Hstep.
  assert (Hok' : slideshow_timer_ok m').
  { eapply mounted_step_timer_ok; [exact Hok | exact Hstep]. }
  cbn [mounted_step] in Hstep. rewrite Es in Hstep. injection Hstep as <-.
  destruct (commit_below (app m) (set_app a' m)) as [_ Hr].
  - destruct m; exact Hok.
  - exact Hb.
  - now apply (step_next_id e).
  - destruct (Hr Hd Hs) as (i' & Hi & Hlt).
    exists i'. unfold slideshow_timer_ok in Hok'. rewrite Hi in Hok'.
    destruct Hok' as (_ & H1 & H2 & H3). cbn [set_app intervals] in Hlt. auto.
Qed.

Lemma config_commit (before : App) (m : Mounted) :
  config (state (app (commit before m))) = config (state (app m)).
Proof.
  unfold commit. destruct (same_deps before (app m)); [reflexivity|].
  unfold slideshow_effect, slideshow_cleanup. rewrite app_clear_slideshow_timer.
  set (a := app m).
  set (m2 := if negb (JS.truthy (currentImage (state a))) && negb (isGeneratingRef (refs a))
             then set_app (loadNewImage (rendered_loadNewImage a) a) (clear_slideshow_timer m)
             else clear_slideshow_timer m).
  assert (H2 : config (state (app m2)) = config (state a)).
  { subst m2. destruct (_ && _); cbn [set_app app].
    - apply rendered_loadNewImage_call.
    - now rewrite app_clear_slideshow_timer. }
  destruct (isSlideshow (config (state a))).
  - cbn. rewrite app_clear_slideshow_timer. exact H2.
  - now rewrite app_clear_slideshow_timer.
Qed.

Lemma img_onload_changes_deps (cl : LoadClosure) (url : string)
    (rest : list InFlight) (a : App) :
  truthy_url url ->
  same_deps a (img_onload cl url (set_inflight (fun _ => rest) a)) = false
  /\ config (state (img_onload cl url (set_inflight (fun _ => rest) a)))
     = config (state a).
Proof.
  intros Hu. unfold same_deps, img_onload.
  destruct a as [[cfg cur ld sc hist idx] r [fl tm nid]]. cbn.
  destruct cur as [[|c prev]|]; cbn.
  - split; [|reflexivity].
    destruct url as [|c u]; [discriminate|]. cbn. apply andb_false_r.
  - split; [|reflexivity].
    replace (idx =? idx + 1) with false by (symmetry; apply Z.eqb_neq; lia).
    now rewrite andb_false_r.
  - split; [|reflexivity]. apply andb_false_r.
Qed.

(** While the slideshow is on, every image that finishes loading restarts
    the interval: [img.onload] changes [currentImage] or [historyIndex],
    both dependencies of the effect, so the render that follows clears
    the interval and registers a new one, under a new identifier, with the
    [loadNewImage] of that render.  The period therefore counts from the
    moment an image is shown, not from the previous tick. *)
Theorem load_restarts_interval
  (events : list MountedEvent) (m m' : Mounted) (k : nat) :
  mounted_run events mount = Some m ->
  isSlideshow (config (state (app m))) = true ->
  mounted_step (AppEvent (ImageLoads k)) m = Some m' ->
  restarted m m'.
Proof.
  intros Hrun Hs Hstep.
  assert (Hinv : mounted_invariant m)
    by (eapply mounted_run_invariant; [apply mount_invariant | exact Hrun]).
  pose proof Hstep as Hstep'. cbn [mounted_step] in Hstep'.
  destruct (step (ImageLoads k) (app m)) as [a'|] eqn:Es; [|discriminate].
  pose proof Es as Es'. cbn [step] in Es'.
  destruct (extract k (inflight (loop (app m)))) as [[[cl [|url]] rest]|] eqn:Ex;
    try discriminate.
  injection Es' as Ea.
  destruct Hinv as (Hok & Hb & Ha).
  destruct (extract_Forall decoding_truthy k _ _ _ Ex (proj2 Ha)) as [Hu _].
  cbn in Hu.
  destruct (img_onload_changes_deps cl url rest (app m) Hu) as [Hd Hc].
  rewrite Ea in Hd, Hc.
  apply (step_restarts (ImageLoads k) m m' a'); auto.
  - exact (conj Hok (conj Hb Ha)).
  - now rewrite Hc.
Qed.

Lemma load_restarts_interval_witness :
  exists m' : Mounted,
    mounted_step (AppEvent (ImageLoads 0)) slideshow_decoding = Some m'
    /\ restarted slideshow_decoding m'.
Proof.
  eexists. split; [vm_compute; reflexivity|].
  apply (load_restarts_interval
           [AppEvent (ConfigUpdate slideshow_on);
            AppEvent (ProviderResolves 0 (Some "a"%string))] _ _ 0).
  - vm_compute. reflexivity.
  - vm_compute. reflexivity.
  - vm_compute. reflexivity.
Defined.

Lemma updateConfig_changes_genre (p : PartialConfig) (g : Genre) (a : App) :
  p_genre p = Some g ->
  g <> genre (config (state a)) ->
  same_deps a (updateConfig p a) = false
  /\ config (state (updateConfig p a)) = spread (config (state a)) p.
Proof.
  intros Hp Hne. unfold updateConfig. rewrite Hp.
  rewrite (Genre_eqb_neq g _ Hne). cbn [negb].
  destruct a as [[cfg cur ld sc hist idx] [ctr gen ltt lts stt ts ib] [fl tm nid]].
  unfold same_deps. destruct ctr; cbn; rewrite Hp; cbn.
  - replace (Genre_eqb (genre cfg) g) with false
      by (symmetry; apply Genre_eqb_neq; intros E; apply Hne; symmetry; exact E).
    split; [|reflexivity]. now rewrite andb_false_r.
  - replace (Genre_eqb (genre cfg) g) with false
      by (symmetry; apply Genre_eqb_neq; intros E; apply Hne; symmetry; exact E).
    split; [|reflexivity]. now rewrite andb_false_r.
Qed.

(** While the slideshow is on, an update that names another genre
    restarts the interval: the old one is cleared, one new interval is
    registered, and its [loadNewImage] asks for the new genre. *)
Theorem genre_change_restarts_interval
  (events : list MountedEvent) (m m' : Mounted) (p : PartialConfig) (g : Genre) :
  mounted_run events mount = Some m ->
  p_genre p = Some g ->
  g <> genre (config (state (app m))) ->
  mounted_step (AppEvent (ConfigUpdate p)) m = Some m' ->
  isSlideshow (config (state (app m'))) = true ->
  restarted m m'
  /\ cl_genre (rendered_loadNewImage (app m')) = g.
Proof.
  intros Hrun Hp Hne Hstep Hs.
  assert (Hinv : mounted_invariant m)
    by (eapply mounted_run_invariant; [apply mount_invariant | exact Hrun]).
  destruct (updateConfig_changes_genre p g (app m) Hp Hne) as [Hd Hc].
  pose proof Hstep as Hstep'. cbn [mounted_step step] in Hstep'.
  injection Hstep' as Hm'.
  assert (Hcfg : config (state (app m')) = spread (config (state (app m))) p).
  { rewrite <- Hm', config_commit. exact Hc. }
  split.
  - apply (step_restarts (ConfigUpdate p) m m' (updateConfig p (app m))); auto.
    now rewrite Hc, <- Hcfg.
  - unfold rendered_loadNewImage. cbn [cl_genre]. rewrite Hcfg. cbn. now rewrite Hp.
Qed.

Lemma genre_change_restarts_interval_witness :
  exists m' : Mounted,
    mounted_step (AppEvent (ConfigUpdate to_urban)) slideshow_started = Some m'
    /\ restarted slideshow_started m'
    /\ cl_genre (rendered_loadNewImage (app m')) = Urban.
Proof.
  eexists. split; [vm_compute; reflexivity|].
  apply (genre_change_restarts_interval
           [AppEvent (ConfigUpdate slideshow_on)] _ _ to_urban Urban).
  - vm_compute. reflexivity.
  - reflexivity.
  - vm_compute. discriminate.
  - vm_compute. reflexivity.
  - vm_compute. reflexivity.
Defined.

(** ** The screen wake lock *)

Lemma wake_run_app (es1 es2 : list WakeEvent) (w : WakeLock) :
  wake_run (es1 ++ es2) w
  = match wake_run es1 w with
    | Some w' => wake_run es2 w'
    | None => None
    end.
Proof.
  revert w. induction es1 as [|e es1 IH]; intros w; [reflexivity|].
  cbn [List.app wake_run]. destruct (wake_step e w); [apply IH | reflexivity].
Qed.

Lemma requestWakeLock_holding (w : WakeLock) (s : Sentinel) :
  wakeLockRef w = Some s -> requestWakeLock w = w.
Proof.
  intros H. unfold requestWakeLock. rewrite H. cbn.
  now rewrite andb_false_r.
Qed.

(** While the ref holds a sentinel and no request is awaited, no click and
    no return to the foreground issues a request: the test of line 45
    looks at the ref only, and nothing but the cleanup empties it.  Once
    the page has been hidden the lock is therefore gone for good: nothing
    is held, nothing is awaited, the ref still names the old sentinel. *)
Theorem wake_lock_not_reacquired
  (w w' : WakeLock) (s : Sentinel) (es : list WakeEvent) :
  wakeLockRef w = Some s ->
  awaited w = 0%nat ->
  ~ In Unmount es ->
  wake_run es w = Some w' ->
  wakeLockRef w' = Some s
  /\ awaited w' = 0%nat
  /\ (In (VisibilityChange false) es -> held w' = [])
  /\ (held w = [] -> held w' = []).
Proof.
  revert w. induction es as [|e es IH]; intros w Href Haw Hun Hrun.
  - injection Hrun as <-. repeat split; auto. intros [].
  - cbn [wake_run] in Hrun.
    assert (Hun' : ~ In Unmount es) by (intros H; apply Hun; now right).
    destruct e as [|[|]|r|].
    + cbn [wake_step] in Hrun. rewrite (requestWakeLock_holding w s Href) in Hrun.
      destruct (IH w Href Haw Hun' Hrun) as (H1 & H2 & H3 & H4).
      repeat split; auto. intros [H|H]; [discriminate | auto].
    + cbn [wake_step] in Hrun. rewrite (requestWakeLock_holding w s Href) in Hrun.
      destruct (IH w Href Haw Hun' Hrun) as (H1 & H2 & H3 & H4).
      repeat split; auto. intros [H|H]; [discriminate | auto].
    + cbn [wake_step] in Hrun.
      destruct (IH (platform_hides w) Href Haw Hun' Hrun) as (H1 & H2 & H3 & H4).
      repeat split; auto.
    + cbn [wake_step] in Hrun. rewrite Haw in Hrun. discriminate.
    + exfalso. apply Hun. now left.
Qed.

Lemma wake_lock_not_reacquired_witness :
  exists w' : WakeLock,
    wake_run [VisibilityChange false; VisibilityChange true; Interaction]
      lock_granted = Some w'
    /\ wakeLockRef w' = Some 1%positive
    /\ awaited w' = 0%nat
    /\ held w' = [].
Proof.
  exists (platform_hides lock_granted). split; [reflexivity|].
  destruct (wake_lock_not_reacquired lock_granted
              (platform_hides lock_granted) 1%positive
              [VisibilityChange false; VisibilityChange true; Interaction])
    as (H1 & H2 & H3 & _).
  - reflexivity.
  - reflexivity.
  - intros [H|[H|[H|[]]]]; discriminate.
  - reflexivity.
  - exact (conj H1 (conj H2 (H3 (or_introl eq_refl)))).
Defined.

(** Calls made before the first answer all pass the test of line 45. *)
Lemma interactions_pile_up (n : nat) (w : WakeLock) :
  wakeLock_in_navigator w = true ->
  wakeLockRef w = None ->
  wake_run (repeat Interaction n) w
  = Some {| wakeLock_in_navigator := true; wakeLockRef := None;
            awaited := (n + awaited w)%nat; held := held w |}.
Proof.
  revert w. induction n as [|n IH]; intros w Hs Hr.
  - cbn. destruct w; cbn in *; now subst.
  - cbn [repeat wake_run wake_step]. unfold requestWakeLock at 1.
    rewrite Hs, Hr. cbn [andb ref_is_empty].
    rewrite IH by reflexivity. cbn [awaited held].
    do 2 f_equal. lia.
Qed.

Lemma grants_fill (ss : list Sentinel) (w : WakeLock) (s0 : Sentinel) :
  (length ss <= awaited w)%nat ->
  wake_run (grants ss) w
  = Some {| wakeLock_in_navigator := wakeLock_in_navigator w;
            wakeLockRef := match ss with
                           | [] => wakeLockRef w
                           | _ => Some (last ss s0)
                           end;
            awaited := (awaited w - length ss)%nat;
            held := rev ss ++ held w |}.
Proof.
  revert w. induction ss as [|s ss IH]; intros w Hlen.
  - cbn. destruct w; cbn. do 2 f_equal. lia.
  - cbn [grants map wake_run wake_step length] in *.
    destruct (awaited w) as [|n] eqn:Haw; [lia|].
    fold (grants ss). rewrite IH by (cbn; lia).
    cbn [requestWakeLock_resumed platform_settles wakeLock_in_navigator
         wakeLockRef awaited held rev].
    rewrite <- app_assoc. cbn [List.app].
    destruct ss as [|s' ss']; reflexivity.
Qed.

Lemma release_absent (s : Sentinel) (l : list Sentinel) :
  ~ In s l -> release s l = l.
Proof.
  induction l as [|x l IH]; intros H; [reflexivity|].
  cbn [release filter]. destruct (Pos.eqb_spec x s) as [->|Hne].
  - exfalso. apply H. now left.
  - cbn [negb]. fold (release s l). rewrite IH; [reflexivity|].
    intros Hin. apply H. now right.
Qed.

Lemma release_last (ss : list Sentinel) (s0 : Sentinel) :
  NoDup ss -> ss <> [] ->
  release (last ss s0) (rev ss) = rev (removelast ss).
Proof.
  intros Hnd Hne.
  destruct (exists_last Hne) as (front & s & ->).
  rewrite last_last, removelast_last, rev_app_distr. cbn [rev List.app].
  cbn [release filter]. rewrite Pos.eqb_refl. cbn [negb].
  apply release_absent.
  apply NoDup_remove_2 in Hnd. rewrite app_nil_r in Hnd.
  now rewrite <- in_rev.
Qed.

(** [requestWakeLock] has no guard for a request in progress.  Clicks made
    before the first answer each issue a request of their own; when all
    are granted, every grant overwrites the ref, and the cleanup releases
    the last sentinel only: the others stay held. *)
Theorem overlapping_requests_leak (s : Sentinel) (rest : list Sentinel) :
  NoDup (s :: rest) ->
  wake_run (repeat Interaction (length rest) ++ grants (s :: rest) ++ [Unmount])
    (wake_mount true)
  = Some {| wakeLock_in_navigator := true; wakeLockRef := None;
            awaited := 0; held := rev (removelast (s :: rest)) |}.
Proof.
  intros Hnd.
  rewrite wake_run_app, interactions_pile_up by reflexivity.
  rewrite wake_run_app, (grants_fill (s :: rest) _ s) by (cbn; lia).
  cbn [wake_run wake_step wake_cleanup wakeLock_in_navigator wakeLockRef
       awaited held wake_mount wake_initial requestWakeLock andb ref_is_empty].
  unfold wake_cleanup.
  cbn [wakeLock_in_navigator wakeLockRef awaited held].
  rewrite app_nil_r, (release_last (s :: rest) s Hnd) by discriminate.
  do 2 f_equal. cbn [length]. lia.
Qed.

Lemma overlapping_requests_leak_witness :
  wake_run [Interaction; RequestSettles (Granted 1%positive);
            RequestSettles (Granted 2%positive); Unmount] (wake_mount true)
  = Some {| wakeLock_in_navigator := true; wakeLockRef := None;
            awaited := 0; held := [1%positive] |}.
Proof.
  apply (overlapping_requests_leak 1%positive [2%positive]).
  repeat constructor; cbn; intuition discriminate.
Defined.

Lemma wake_step_invariant (e : WakeEvent) (w w' : WakeLock) :
  wake_invariant w ->
  (calls_requestWakeLock e = true -> awaited w = 0%nat) ->
  wake_step e w = Some w' ->
  wake_invariant w'.
Proof.
  intros [Ht Ha] Hcall Hstep.
  assert (Hreq : awaited w = 0%nat -> wake_invariant (requestWakeLock w)).
  { intros H0. unfold requestWakeLock.
    destruct (wakeLock_in_navigator w); cbn [andb]; [|split; auto].
    destruct (wakeLockRef w) as [s|] eqn:Hr; cbn [ref_is_empty];
      [split; auto|].
    unfold ref_tracks_lock in Ht.
    destruct (held w) as [|x [|y l]] eqn:Hh; try easy; try congruence.
    split.
    - unfold ref_tracks_lock. now cbn [held].
    - right. cbn [awaited wakeLockRef held]. rewrite H0. repeat split. }
  destruct e as [|[|]|r|]; cbn [wake_step] in Hstep.
  - injection Hstep as <-. apply Hreq, Hcall. reflexivity.
  - injection Hstep as <-. apply Hreq, Hcall. reflexivity.
  - injection Hstep as <-. split; [exact I|].
    cbn [platform_hides awaited wakeLockRef held].
    destruct Ha as [H|(H & Hr & _)]; auto.
  - destruct (awaited w) as [|n] eqn:Haw; [discriminate|].
    injection Hstep as <-.
    destruct Ha as [H|(H & Hr & Hh)]; [discriminate|].
    injection H as ->.
    destruct r as [s|]; split; try (now left).
    + unfold ref_tracks_lock. cbn. now rewrite Hh.
    + unfold ref_tracks_lock. cbn. now rewrite Hh.
  - injection Hstep as <-. unfold wake_cleanup. split.
    + unfold ref_tracks_lock in *. cbn [held wakeLockRef].
      destruct (held w) as [|x [|y l]] eqn:Hh; try easy.
      * now destruct (wakeLockRef w).
      * rewrite Ht. cbn. now rewrite Pos.eqb_refl.
    + cbn [awaited wakeLockRef held].
      destruct Ha as [H|(H & Hr & Hh)]; [now left|].
      right. rewrite Hr. auto.
Qed.

Lemma wake_run_invariant (es : list WakeEvent) (w w' : WakeLock) :
  wake_invariant w ->
  one_at_a_time es w ->
  wake_run es w = Some w' ->
  wake_invariant w'.
Proof.
  revert w. induction es as [|e es IH]; intros w Hi Hseq Hrun.
  - now injection Hrun as <-.
  - cbn [wake_run one_at_a_time] in *. destruct Hseq as [Hcall Hseq].
    destruct (wake_step e w) as [w1|] eqn:Hstep; [|discriminate].
    apply (IH w1); auto. now apply (wake_step_invariant e w).
Qed.

(** When no call of [requestWakeLock] is made while a request is awaited,
    at most one sentinel is held at any time, the ref names it, and the
    cleanup of the effect releases it. *)
Theorem one_lock_released_on_unmount
  (supported : bool) (es : list WakeEvent) (w' : WakeLock) :
  one_at_a_time es (wake_mount supported) ->
  wake_run es (wake_mount supported) = Some w' ->
  ref_tracks_lock w' /\ held (wake_cleanup w') = [].
Proof.
  intros Hseq Hrun.
  assert (Hi : wake_invariant (wake_mount supported)).
  { destruct supported; split; cbn; auto. }
  destruct (wake_run_invariant es _ w' Hi Hseq Hrun) as [Ht _].
  split; [exact Ht|].
  unfold wake_cleanup, ref_tracks_lock in *. cbn [held].
  destruct (held w') as [|x [|y l]]; try easy.
  - now destruct (wakeLockRef w').
  - rewrite Ht. cbn. now rewrite Pos.eqb_refl.
Qed.

Lemma one_lock_released_on_unmount_witness :
  ref_tracks_lock lock_granted /\ held (wake_cleanup lock_granted) = [].
Proof.
  apply (one_lock_released_on_unmount true
           [RequestSettles (Granted 1%positive); Interaction]).
  - cbn. repeat split; try reflexivity; discriminate.
  - reflexivity.
Defined.
